(** * Home-automation core: presence tracking, worker pool, time events,
      remote state machine, ordered set and helpers.

    A shallow embedding of
      - [app/DeviceTracker.py]                         (module [DeviceTracker])
      - [homeassistant/util.py] ThreadPool, OrderedSet (modules [ThreadPool], [OrderedSet])
      - [homeassistant/util.py] string helpers         (module [Util])
      - [homeassistant/util.py] Throttle               (module [Throttle])
      - [homeassistant/util.py] strip_microseconds     (module [UtilTime])
      - [homeassistant/components/scheduler/time.py]   (module [TimeEvent])
      - [homeassistant/remote.py] StateMachine, Bus    (module [Remote])
      - [homeassistant/helpers.py] entity ids          (module [Helpers])
    with the properties of each proved next to its definitions. *)

From stdpp Require Import base option list gmap strings pretty.
From Stdlib Require Import ZArith Lia Ascii.

Local Open Scope Z_scope.

(* ===================================================================== *)
(** ** homeassistant/remote.py : StateMachine.get_state, is_state        *)
(* ===================================================================== *)
Module Remote.

(** The exception classes that travel through [get_state].  A constructor
    stands for the class together with its subclasses, the way an
    [except] clause matches. *)
Inductive exn : Type :=
| HomeAssistantError (msg : string)   (* ha.HomeAssistantError *)
| ConnectionError                     (* requests.exceptions.ConnectionError *)
| ValueError
| KeyError
| AttributeError
| UnboundLocalError                   (* a handler reads [req] before it was bound *)
| OtherError (name : string).         (* e.g. requests.exceptions.ReadTimeout *)

Inductive result (A : Type) : Type :=
| Return (a : A)
| Raise (e : exn).
Arguments Return {A} a.
Arguments Raise {A} e.

(** What [requests] hands back: the fields of the response that
    [get_state] reads. *)
Record Response : Type := { status_code : Z; text : string }.

(** Outcome of the HTTP exchange made by [requests.get]: an answer or an
    exception raised by the transport. *)
Inductive exchange : Type :=
| Answer (req : Response)
| Fails (e : exn).

(** Modelled from the spec: [ha.State] of homeassistant/__init__.py, which
    is not among the sources; section 3 gives its fields. *)
Record State : Type := {
  entity_id : string;
  state : string;
  attributes : list (string * string);
  last_changed : Z;
  last_updated : Z
}.

Definition METHOD_GET : string := "get".
Definition METHOD_POST : string := "post".

(** [_call_api]: both branches ([requests.get], [requests.request]) sit in
    one [try] whose only handler turns a ConnectionError into a
    HomeAssistantError. *)
Definition _call_api (method : string) (net : exchange) : result Response :=
  match net with
  | Answer req => Return req
  | Fails ConnectionError => Raise (HomeAssistantError "Error connecting to server")
  | Fails e => Raise e
  end.

Section StateMachine.

(** [req.json()] and [ha.State.from_dict]: the JSON decoder of [requests]
    and a class method of the missing homeassistant/__init__.py, taken as
    parameters.  [json_loads] answers [None] where [req.json()] raises
    ValueError. *)
Context {JSON : Type}.
Variable json_loads : string → option JSON.
Variable from_dict : JSON → result (option State).

Definition req_json (req : Response) : result JSON :=
  match json_loads (text req) with
  | Some data => Return data
  | None => Raise ValueError
  end.

(** The three [except] clauses of [get_state].  [req] is [None] while the
    local variable is still unbound. *)
Definition get_state_handlers (req : option Response) (e : exn)
  : result (option State) :=
  match e with
  | ConnectionError => Raise (HomeAssistantError "Error connecting to server")
  | ValueError =>
      match req with
      | Some r => Raise (HomeAssistantError ("Got unexpected result: " ++ text r))
      | None => Raise UnboundLocalError
      end
  | KeyError =>
      match req with
      | Some r => Raise (HomeAssistantError ("Got unexpected result (2): " ++ text r))
      | None => Raise UnboundLocalError
      end
  | _ => Raise e
  end.

Definition get_state (net : exchange) : result (option State) :=
  match _call_api METHOD_GET net with
  | Raise e => get_state_handlers None e
  | Return req =>
      if status_code req =? 200 then
        match req_json req with
        | Raise e => get_state_handlers (Some req) e
        | Return data =>
            match from_dict data with
            | Raise e => get_state_handlers (Some req) e
            | Return st => Return st
            end
        end
      else if status_code req =? 422 then
        Return None
      else
        get_state_handlers (Some req)
          (HomeAssistantError ("Got unexpected result (3): " ++ text req ++ "."))
  end.

(** [is_state]: [None.state] raises AttributeError, which the handler
    turns into [False]; the handler also sees an AttributeError that
    escaped [get_state]. *)
Definition is_state (net : exchange) (st : string) : result bool :=
  match get_state net with
  | Return (Some s) => Return (bool_decide (state s = st))
  | Return None => Return false
  | Raise AttributeError => Return false
  | Raise e => Raise e
  end.

Definition is_HomeAssistantError {A} (r : result A) : Prop :=
  ∃ msg, r = Raise (HomeAssistantError msg).

(** C8. [get_state] returns what [State.from_dict] parsed on a 200 answer,
    [None] on a 422 answer, and raises HomeAssistantError on a connection
    error, on a 200 answer whose body is not JSON or lacks a key, and on
    every other status code. *)
Theorem get_state_contract :
  (∀ req data st,
     status_code req = 200 → json_loads (text req) = Some data →
     from_dict data = Return st →
     get_state (Answer req) = Return st) ∧
  (∀ req, status_code req = 422 → get_state (Answer req) = Return None) ∧
  is_HomeAssistantError (get_state (Fails ConnectionError)) ∧
  (∀ req, status_code req = 200 → json_loads (text req) = None →
     is_HomeAssistantError (get_state (Answer req))) ∧
  (∀ req data, status_code req = 200 → json_loads (text req) = Some data →
     from_dict data = Raise KeyError →
     is_HomeAssistantError (get_state (Answer req))) ∧
  (∀ req, status_code req ≠ 200 → status_code req ≠ 422 →
     is_HomeAssistantError (get_state (Answer req))).
Proof.
  unfold get_state, req_json, is_HomeAssistantError; simpl.
  repeat split.
  - intros req data st -> -> ->. reflexivity.
  - intros req ->. reflexivity.
  - eauto.
  - intros req -> ->. simpl. eauto.
  - intros req data -> -> ->. simpl. eauto.
  - intros req H1 H2.
    destruct (Z.eqb_spec (status_code req) 200); [done|].
    destruct (Z.eqb_spec (status_code req) 422); [done|].
    simpl. eauto.
Qed.

(** C9. [is_state] answers [False] when [get_state] returns [None], and
    compares the [state] field with the given string when it returns a
    State. *)
Theorem is_state_spec (net : exchange) (st : string) :
  (get_state net = Return None → is_state net st = Return false) ∧
  (∀ s, get_state net = Return (Some s) →
        is_state net st = Return (bool_decide (state s = st)) ∧
        (is_state net st = Return true ↔ state s = st)).
Proof.
  unfold is_state. split.
  - intros ->. reflexivity.
  - intros s ->. split; [reflexivity|].
    split.
    + intros [= H]. by apply bool_decide_eq_true in H.
    + intros H. f_equal. by apply bool_decide_eq_true.
Qed.

(** *** What is raised, and when *)

(** X15. [is_state] answers [True] exactly when [get_state] returned a state
    whose [state] field is the given string, and [False] exactly when
    [get_state] returned [None] or another state or raised AttributeError.
    Every other exception of [get_state] leaves [is_state] unchanged, a
    failed connection included: [is_state] then raises, it does not answer
    [False]. *)
Theorem is_state_answers (net : exchange) (st : string) :
  (is_state net st = Return true ↔
     ∃ s, get_state net = Return (Some s) ∧ state s = st) ∧
  (is_state net st = Return false ↔
     get_state net = Return None ∨
     (∃ s, get_state net = Return (Some s) ∧ state s ≠ st) ∨
     get_state net = Raise AttributeError) ∧
  (∀ e, is_state net st = Raise e ↔ get_state net = Raise e ∧ e ≠ AttributeError) ∧
  is_HomeAssistantError (is_state (Fails ConnectionError) st).
Proof.
  unfold is_state. split_and!.
  - destruct (get_state net) as [[s|]|e]; [| |destruct e].
    2-9: by split; [|intros (s' & ? & ?)].
    split.
    + intros [= Hb]. apply bool_decide_eq_true in Hb. eauto.
    + intros (s' & [= <-] & Hs). f_equal. by apply bool_decide_eq_true.
  - destruct (get_state net) as [[s|]|e]; [| |destruct e].
    + split.
      * intros [= Hb]. apply bool_decide_eq_false in Hb. right. left. eauto.
      * intros [|[(s' & [= <-] & Hs)|]]; [done| |done].
        f_equal. by apply bool_decide_eq_false.
    + split; [by left|done].
    + split; [done|]. by intros [|[(s' & ? & _)|]].
    + split; [done|]. by intros [|[(s' & ? & _)|]].
    + split; [done|]. by intros [|[(s' & ? & _)|]].
    + split; [done|]. by intros [|[(s' & ? & _)|]].
    + split; [by right; right|done].
    + split; [done|]. by intros [|[(s' & ? & _)|]].
    + split; [done|]. by intros [|[(s' & ? & _)|]].
  - intros e'. destruct (get_state net) as [[s|]|e]; [| |destruct e].
    1-2: by split; [|intros [? _]].
    5: by split; [|intros [[= <-] ?]].
    all: split; [by intros [= <-]|by intros [[= <-] _]].
  - unfold is_HomeAssistantError. simpl. eauto.
Qed.

(** X16. What [get_state] lets out.  On any answer of the server, a
    [from_dict] that raises nothing but KeyError and ValueError makes
    [get_state] return or raise HomeAssistantError.  When the transport
    fails: a ConnectionError arrives as HomeAssistantError (already from
    [_call_api], so the handler of [get_state] for it is never entered); a
    ValueError or KeyError finds the handlers reading [req] before it was
    bound, and UnboundLocalError is raised; everything else passes.  In no
    case does ConnectionError, ValueError or KeyError leave [get_state]. *)
Theorem get_state_translates_errors :
  (∀ data e, from_dict data = Raise e → e = KeyError ∨ e = ValueError) →
  (∀ req, (∃ st, get_state (Answer req) = Return st) ∨
          is_HomeAssistantError (get_state (Answer req))) ∧
  (∀ e, get_state (Fails e) =
        match e with
        | ConnectionError => Raise (HomeAssistantError "Error connecting to server")
        | ValueError | KeyError => Raise UnboundLocalError
        | _ => Raise e
        end) ∧
  (∀ net e, get_state net = Raise e →
            e ≠ ConnectionError ∧ e ≠ ValueError ∧ e ≠ KeyError).
Proof.
  intros Hfrom. unfold get_state, req_json, is_HomeAssistantError. split_and!.
  - intros req. simpl.
    destruct (status_code req =? 200).
    + destruct (json_loads (text req)) as [data|]; [|right; simpl; eauto].
      destruct (from_dict data) as [st|e] eqn:Hd; [left; eauto|right].
      destruct (Hfrom _ _ Hd) as [-> | ->]; simpl; eauto.
    + destruct (status_code req =? 422); [left; eauto|right; simpl; eauto].
  - by intros [].
  - assert (∀ req e0 e, get_state_handlers req e0 = Raise e →
              e ≠ ConnectionError ∧ e ≠ ValueError ∧ e ≠ KeyError) as Hh.
    { intros [req|] e0 e; destruct e0; simpl; intros [= <-]; done. }
    intros [req|e0] e; cbn [_call_api].
    + destruct (status_code req =? 200).
      * destruct (json_loads (text req)) as [data|]; [|apply Hh].
        destruct (from_dict data) as [st|e1]; [done|apply Hh].
      * destruct (status_code req =? 422); [done|apply Hh].
    + destruct e0; simpl; intros [= <-]; done.
Qed.

(** [data[key]] on the decoded body, raising KeyError on a missing key, and
    the empty list, both left to the JSON library. *)
Variable getitem : JSON → string → result JSON.
Variable empty_list : JSON.

(** The handlers of [Bus.services] and [Bus.event_listeners]. *)
Definition Bus_handlers (req : option Response) (e : exn) : result JSON :=
  match e with
  | ValueError =>
      match req with
      | Some r => Raise (HomeAssistantError ("Got unexpected result: " ++ text r))
      | None => Raise UnboundLocalError
      end
  | KeyError =>
      match req with
      | Some r => Raise (HomeAssistantError ("Got unexpected result (2): " ++ text r))
      | None => Raise UnboundLocalError
      end
  | _ => Raise e
  end.

(** The body the two properties of [Bus] share, with the key they read. *)
Definition Bus_listing (key : string) (net : exchange) : result JSON :=
  match _call_api METHOD_GET net with
  | Raise e => Bus_handlers None e
  | Return req =>
      if status_code req =? 200 then
        match req_json req with
        | Raise e => Bus_handlers (Some req) e
        | Return data =>
            match getitem data key with
            | Raise e => Bus_handlers (Some req) e
            | Return v => Return v
            end
        end
      else
        Bus_handlers (Some req)
          (HomeAssistantError ("Got unexpected result (3): " ++ text req ++ "."))
  end.

Definition services : exchange → result JSON := Bus_listing "services".
Definition event_listeners : exchange → result JSON := Bus_listing "event_listeners".

(** [StateMachine.entity_ids]: no look at the status code, and handlers
    that answer the empty list. *)
Definition entity_ids_handlers (e : exn) : result JSON :=
  match e with
  | ConnectionError | ValueError | KeyError => Return empty_list
  | _ => Raise e
  end.

Definition entity_ids (net : exchange) : result JSON :=
  match _call_api METHOD_GET net with
  | Raise e => entity_ids_handlers e
  | Return req =>
      match req_json req with
      | Raise e => entity_ids_handlers e
      | Return data =>
          match getitem data "entity_ids" with
          | Raise e => entity_ids_handlers e
          | Return v => Return v
          end
      end
  end.

(** X17. [entity_ids] reads the list out of any answer, whatever its status
    code, and answers the empty list for a body that is no JSON or has no
    such key.  A failed connection, however, raises HomeAssistantError: the
    handler that would answer the empty list never sees the ConnectionError,
    which [_call_api] has turned into HomeAssistantError before.  No
    ConnectionError, ValueError or KeyError leaves the method. *)
Theorem entity_ids_fallback :
  (∀ req data v, json_loads (text req) = Some data →
     getitem data "entity_ids" = Return v → entity_ids (Answer req) = Return v) ∧
  (∀ req, json_loads (text req) = None → entity_ids (Answer req) = Return empty_list) ∧
  (∀ req data, json_loads (text req) = Some data →
     getitem data "entity_ids" = Raise KeyError →
     entity_ids (Answer req) = Return empty_list) ∧
  entity_ids (Fails ConnectionError) =
    Raise (HomeAssistantError "Error connecting to server") ∧
  (∀ net e, entity_ids net = Raise e →
            e ≠ ConnectionError ∧ e ≠ ValueError ∧ e ≠ KeyError).
Proof.
  unfold entity_ids, req_json. split_and!.
  - intros req data v Hj Hk. simpl. by rewrite Hj, Hk.
  - intros req Hj. simpl. by rewrite Hj.
  - intros req data Hj Hk. simpl. by rewrite Hj, Hk.
  - done.
  - assert (∀ e0 e, entity_ids_handlers e0 = Raise e →
              e ≠ ConnectionError ∧ e ≠ ValueError ∧ e ≠ KeyError) as Hh.
    { intros e0 e; destruct e0; simpl; intros [= <-]; done. }
    intros [req|e0] e; cbn [_call_api].
    + destruct (json_loads (text req)) as [data|]; [|apply Hh].
      destruct (getitem data "entity_ids"); [done|apply Hh].
    + destruct e0; simpl; intros [= <-]; done.
Qed.

(** X18. [Bus.services] and [Bus.event_listeners] return a value exactly
    when the server answered 200 with a JSON body that has the key, and then
    that value; a failed connection, another status code, a body that is no
    JSON and a missing key all raise HomeAssistantError. *)
Theorem Bus_listing_contract key :
  (∀ net v, Bus_listing key net = Return v ↔
     ∃ req data, net = Answer req ∧ status_code req = 200 ∧
       json_loads (text req) = Some data ∧ getitem data key = Return v) ∧
  is_HomeAssistantError (Bus_listing key (Fails ConnectionError)) ∧
  (∀ req, status_code req ≠ 200 →
     is_HomeAssistantError (Bus_listing key (Answer req))) ∧
  (∀ req, status_code req = 200 → json_loads (text req) = None →
     is_HomeAssistantError (Bus_listing key (Answer req))) ∧
  (∀ req data, status_code req = 200 → json_loads (text req) = Some data →
     getitem data key = Raise KeyError →
     is_HomeAssistantError (Bus_listing key (Answer req))).
Proof.
  unfold Bus_listing, req_json, is_HomeAssistantError. split_and!.
  - intros net v. split.
    + destruct net as [req|e0]; simpl.
      * destruct (Z.eqb_spec (status_code req) 200) as [H200|]; [|done].
        destruct (json_loads (text req)) as [data|] eqn:Hj; [|done].
        destruct (getitem data key) as [v'|e] eqn:Hk.
        -- intros [= <-]. by exists req, data.
        -- by destruct e.
      * by destruct e0.
    + intros (req & data & -> & H200 & Hj & Hk). simpl.
      by rewrite H200, Hj, Hk.
  - simpl. eauto.
  - intros req Hne. simpl.
    destruct (Z.eqb_spec (status_code req) 200); [done|]. simpl. eauto.
  - intros req H200 Hj. simpl. rewrite H200, Hj. simpl. eauto.
  - intros req data H200 Hj Hk. simpl. rewrite H200, Hj, Hk. simpl. eauto.
Qed.

End StateMachine.

(** *** A concrete server *)

(** A decoder that rejects one body, and a [from_dict] that misses a key
    on the empty object and otherwise reads the body as the state. *)
Definition demo_json (body : string) : option string :=
  if decide (body = "<html>") then None else Some body.

Definition kitchen (st : string) : State :=
  {| entity_id := "light.kitchen"; state := st; attributes := [];
     last_changed := 0; last_updated := 0 |}.

Definition demo_from_dict (data : string) : result (option State) :=
  if decide (data = "{}") then Raise KeyError else Return (Some (kitchen data)).

Definition answer (code : Z) (body : string) : exchange :=
  Answer {| status_code := code; text := body |}.

(** An exception of [requests] that is no ConnectionError is not among
    the handlers' classes and leaves [get_state] as it came. *)
Example read_timeout_passes :
  get_state demo_json demo_from_dict (Fails (OtherError "ReadTimeout")) =
  Raise (OtherError "ReadTimeout").
Proof. reflexivity. Qed.

(** The contract of [get_state] against the concrete server. *)
Lemma get_state_contract_witness :
  get_state demo_json demo_from_dict (answer 200 "on") = Return (Some (kitchen "on")) ∧
  get_state demo_json demo_from_dict (answer 422 "") = Return None ∧
  is_HomeAssistantError (get_state demo_json demo_from_dict (Fails ConnectionError)) ∧
  is_HomeAssistantError (get_state demo_json demo_from_dict (answer 200 "<html>")) ∧
  is_HomeAssistantError (get_state demo_json demo_from_dict (answer 200 "{}")) ∧
  is_HomeAssistantError (get_state demo_json demo_from_dict (answer 500 "oops")).
Proof.
  destruct (get_state_contract demo_json demo_from_dict)
    as (H200 & H422 & Hconn & Hbody & Hkey & Hother).
  split_and!.
  - apply (H200 _ "on"); reflexivity.
  - apply H422. reflexivity.
  - exact Hconn.
  - apply Hbody; reflexivity.
  - apply (Hkey _ "{}"); reflexivity.
  - apply Hother; simpl; lia.
Defined.

(** [is_state] against the concrete server. *)
Lemma is_state_spec_witness :
  is_state demo_json demo_from_dict (answer 422 "") "on" = Return false ∧
  is_state demo_json demo_from_dict (answer 200 "on") "on" = Return true ∧
  is_state demo_json demo_from_dict (answer 200 "off") "on" = Return false.
Proof.
  split_and!.
  - apply (proj1 (is_state_spec demo_json demo_from_dict (answer 422 "") "on")).
    reflexivity.
  - exact (proj1 (proj2 (is_state_spec demo_json demo_from_dict
                           (answer 200 "on") "on") (kitchen "on") eq_refl)).
  - exact (proj1 (proj2 (is_state_spec demo_json demo_from_dict
                           (answer 200 "off") "on") (kitchen "off") eq_refl)).
Defined.


(** The concrete [from_dict] raises KeyError only. *)
Lemma get_state_translates_errors_witness :
  (∀ req, (∃ st, get_state demo_json demo_from_dict (Answer req) = Return st) ∨
          is_HomeAssistantError (get_state demo_json demo_from_dict (Answer req))) ∧
  (∀ e, get_state demo_json demo_from_dict (Fails e) =
        match e with
        | ConnectionError => Raise (HomeAssistantError "Error connecting to server")
        | ValueError | KeyError => Raise UnboundLocalError
        | _ => Raise e
        end) ∧
  (∀ net e, get_state demo_json demo_from_dict net = Raise e →
            e ≠ ConnectionError ∧ e ≠ ValueError ∧ e ≠ KeyError).
Proof.
  apply (get_state_translates_errors demo_json demo_from_dict).
  intros data e. unfold demo_from_dict. case_decide; [|done].
  intros [= <-]. by left.
Defined.

(** A body is read as an object with the one key "entity_ids", unless it
    is the empty object. *)
Definition demo_getitem (data key : string) : result string :=
  if decide (data = "{}") then Raise KeyError
  else if decide (key = "entity_ids") then Return data else Raise KeyError.

Example entity_ids_ignores_status :
  entity_ids demo_json demo_getitem "[]" (answer 500 "[light.kitchen]") =
    Return "[light.kitchen]" ∧
  entity_ids demo_json demo_getitem "[]" (answer 200 "<html>") = Return "[]" ∧
  entity_ids demo_json demo_getitem "[]" (answer 200 "{}") = Return "[]" ∧
  services demo_json demo_getitem (answer 200 "[light.kitchen]") =
    Raise (HomeAssistantError "Got unexpected result (2): [light.kitchen]").
Proof. split_and!; reflexivity. Qed.

End Remote.

(* ===================================================================== *)
(** ** homeassistant/util.py : OrderedSet                                 *)
(* ===================================================================== *)
Module OrderedSet.

(** Identity of a Python list object on the heap. *)
Abbreviation addr := nat.

Section OrderedSet.

Context `{Countable K}.

(** A node of the doubly linked list is the three-element Python list
    [[key, prev, next]]; the sentinel carries [None] as key. *)
Record node : Type := Node { nkey : option K; nprev : addr; nnext : addr }.

Definition set_prev (p : addr) (n : node) : node := Node (nkey n) p (nnext n).
Definition set_next (x : addr) (n : node) : node := Node (nkey n) (nprev n) x.

(** The object: [self.end], [self.map], and the heap that holds the nodes
    both of them point to.  [fresh_id] is the identity the next allocated
    node receives. *)
Record t : Type := {
  heap : gmap addr node;
  fresh_id : addr;
  end_ : addr;
  map : gmap K addr
}.

(** [__init__] without an iterable: the sentinel points to itself. *)
Definition init : t :=
  {| heap := {[ 0%nat := Node None 0%nat 0%nat ]};
     fresh_id := 1%nat; end_ := 0%nat; map := ∅ |}.

Definition __len__ (s : t) : nat := size (map s).

Definition __contains__ (key : K) (s : t) : bool :=
  bool_decide (is_Some (map s !! key)).

(** [add]: [curr[2] = end[1] = self.map[key] = [key, curr, end]] builds the
    node once and stores it in the three targets from left to right.  A
    read through a dangling reference gives [None]; Python has none. *)
Definition add (key : K) (s : t) : option t :=
  if __contains__ key s then Some s
  else
    e ← heap s !! end_ s;
    let curr := nprev e in
    let new := fresh_id s in
    let h1 := <[new := Node (Some key) curr (end_ s)]> (heap s) in
    let h2 := alter (set_next new) curr h1 in
    let h3 := alter (set_prev new) (end_ s) h2 in
    Some {| heap := h3; fresh_id := S new; end_ := end_ s;
            map := <[key := new]> (map s) |}.

(** [discard]: [self.map.pop(key)] hands back the node, whose neighbours
    are then linked to each other. *)
Definition discard (key : K) (s : t) : option t :=
  match map s !! key with
  | None => Some s
  | Some a =>
      n ← heap s !! a;
      let prev_item := nprev n in
      let next_item := nnext n in
      let h1 := alter (set_next next_item) prev_item (heap s) in
      let h2 := alter (set_prev prev_item) next_item h1 in
      Some {| heap := h2; fresh_id := fresh_id s; end_ := end_ s;
              map := delete key (map s) |}
  end.

(** The loop of [__iter__], started at [curr]; [fuel] bounds the number of
    nodes visited. *)
Fixpoint iter_from (fuel : nat) (h : gmap addr node) (e curr : addr)
  : option (list K) :=
  if decide (curr = e) then Some []
  else
    match fuel with
    | O => None
    | S fuel' =>
        n ← h !! curr;
        key ← nkey n;
        rest ← iter_from fuel' h e (nnext n);
        Some (key :: rest)
    end.

(** [list(self)]: every node lives on the heap, so its size is fuel
    enough. *)
Definition __iter__ (s : t) : option (list K) :=
  e ← heap s !! end_ s;
  iter_from (size (heap s)) (heap s) (end_ s) (nnext e).

(** The loop of [__reversed__]. *)
Fixpoint reversed_from (fuel : nat) (h : gmap addr node) (e curr : addr)
  : option (list K) :=
  if decide (curr = e) then Some []
  else
    match fuel with
    | O => None
    | S fuel' =>
        n ← h !! curr;
        key ← nkey n;
        rest ← reversed_from fuel' h e (nprev n);
        Some (key :: rest)
    end.

Definition __reversed__ (s : t) : option (list K) :=
  e ← heap s !! end_ s;
  reversed_from (size (heap s)) (heap s) (end_ s) (nprev e).

(** [update], and [__init__] with an iterable ([self |= iterable]): the
    items are added one after the other. *)
Fixpoint update (items : list K) (s : t) : option t :=
  match items with
  | [] => Some s
  | key :: items' => s' ← add key s; update items' s'
  end.

Definition of_list (items : list K) : option t := update items init.

(** The calls a client can make on the set that change it. *)
Inductive op : Type := Add (key : K) | Discard (key : K).

Definition apply (o : op) (s : t) : option t :=
  match o with
  | Add key => add key s
  | Discard key => discard key s
  end.

Fixpoint run (ops : list op) (s : t) : option t :=
  match ops with
  | [] => Some s
  | o :: ops' => s' ← apply o s; run ops' s'
  end.


(** *** The list a set stands for *)

(** What the calls do to the sequence of keys, written on plain lists. *)
Definition model_add (key : K) (l : list K) : list K :=
  if decide (key ∈ l) then l else l ++ [key].

Definition model_discard (key : K) (l : list K) : list K :=
  filter (λ x, x ≠ key) l.

Definition model_apply (o : op) (l : list K) : list K :=
  match o with
  | Add key => model_add key l
  | Discard key => model_discard key l
  end.

Definition model_run (ops : list op) (l : list K) : list K :=
  foldl (λ acc o, model_apply o acc) l ops.

(** The keys of a sequence, each at the place of its first occurrence. *)
Fixpoint first_added (items : list K) : list K :=
  match items with
  | [] => []
  | x :: items' => x :: filter (λ y, y ≠ x) (first_added items')
  end.

(** *** Representation invariant *)

Definition first_addr (z : addr) (nodes : list (addr * K)) : addr :=
  match nodes with
  | [] => z
  | n :: _ => n.1
  end.

Fixpoint last_addr (p : addr) (nodes : list (addr * K)) : addr :=
  match nodes with
  | [] => p
  | n :: rest => last_addr n.1 rest
  end.

(** [links h p nodes z]: the nodes are chained in this order on the heap,
    the first one pointing back to [p] and the last one forward to [z]. *)
Fixpoint links (h : gmap addr node) (p : addr) (nodes : list (addr * K))
  (z : addr) : Prop :=
  match nodes with
  | [] => True
  | n :: rest =>
      h !! n.1 = Some (Node (Some n.2) p (first_addr z rest)) ∧
      links h n.1 rest z
  end.

Record repr (s : t) (nodes : list (addr * K)) : Prop := {
  repr_end :
    heap s !! end_ s =
      Some (Node None (last_addr (end_ s) nodes) (first_addr (end_ s) nodes));
  repr_links : links (heap s) (end_ s) nodes (end_ s);
  repr_nodup_addr : NoDup (end_ s :: nodes.*1);
  repr_nodup_key : NoDup nodes.*2;
  repr_map : ∀ k a, map s !! k = Some a ↔ (a, k) ∈ nodes;
  repr_fresh : ∀ a, is_Some (heap s !! a) → (a < fresh_id s)%nat
}.

Lemma last_addr_app p l1 l2 :
  last_addr p (l1 ++ l2) = last_addr (last_addr p l1) l2.
Proof. revert p. induction l1 as [|n l1 IH]; intros p; simpl; auto. Qed.

Lemma last_addr_cons_elem (n : addr * K) rest :
  last_addr n.1 rest ∈ (n :: rest).*1.
Proof.
  revert n. induction rest as [|m rest IH]; intros n; simpl.
  - left.
  - right. apply IH.
Qed.

Lemma last_addr_elem p (nodes : list (addr * K)) :
  last_addr p nodes ∈ p :: nodes.*1.
Proof.
  destruct nodes as [|n rest]; simpl; [left|right].
  by apply last_addr_cons_elem.
Qed.

Lemma first_addr_elem z (nodes : list (addr * K)) :
  first_addr z nodes ∈ z :: nodes.*1.
Proof. destruct nodes as [|n rest]; simpl; [left|right; left]. Qed.

Lemma first_addr_app z l1 l2 :
  first_addr z (l1 ++ l2) = first_addr (first_addr z l2) l1.
Proof. by destruct l1. Qed.

Lemma links_alter_ne h f a p nodes z :
  a ∉ nodes.*1 → links h p nodes z → links (alter f a h) p nodes z.
Proof.
  revert p. induction nodes as [|n rest IH]; intros p Ha; simpl; [done|].
  intros [Hn Hrest]. apply not_elem_of_cons in Ha as [Hne Ha].
  split; [|by apply IH].
  by rewrite lookup_alter_ne.
Qed.

Lemma links_insert_ne h x a p nodes z :
  a ∉ nodes.*1 → links h p nodes z → links (<[a:=x]> h) p nodes z.
Proof.
  revert p. induction nodes as [|n rest IH]; intros p Ha; simpl; [done|].
  intros [Hn Hrest]. apply not_elem_of_cons in Ha as [Hne Ha].
  split; [|by apply IH].
  by rewrite lookup_insert_ne.
Qed.

Lemma links_is_Some h p nodes z a :
  links h p nodes z → a ∈ nodes.*1 → is_Some (h !! a).
Proof.
  revert p. induction nodes as [|n rest IH]; intros p; simpl.
  - intros _ Ha. by apply elem_of_nil in Ha.
  - intros [Hn Hrest] [->|Ha]%elem_of_cons; eauto.
Qed.

Lemma links_middle h p l1 n l2 z :
  links h p (l1 ++ n :: l2) z →
  h !! n.1 = Some (Node (Some n.2) (last_addr p l1) (first_addr z l2)).
Proof.
  revert p. induction l1 as [|m l1 IH]; intros p; simpl.
  - by intros [Hn _].
  - intros [_ Hrest]. by apply IH.
Qed.

(** Appending a freshly allocated node behind the last one. *)
Lemma links_snoc h p nodes z new key :
  links h p nodes z →
  NoDup (p :: nodes.*1) → new ∉ p :: nodes.*1 →
  links (alter (set_next new) (last_addr p nodes)
           (<[new := Node (Some key) (last_addr p nodes) z]> h))
        p (nodes ++ [(new, key)]) z.
Proof.
  revert p. induction nodes as [|n rest IH]; intros p Hl Hnd Hnew; simpl.
  - split; [|done].
    apply not_elem_of_cons in Hnew as [Hne _].
    rewrite lookup_alter_ne by done. by rewrite lookup_insert_eq.
  - destruct Hl as [Hn Hrest].
    apply NoDup_cons in Hnd as [Hp Hnd].
    apply not_elem_of_cons in Hnew as [Hnp Hnew].
    split; [|apply IH; auto].
    simpl in Hnew. apply not_elem_of_cons in Hnew as [Hnn Hnew'].
    destruct rest as [|m rest]; simpl.
    + rewrite lookup_alter_eq, lookup_insert_ne by done.
      by rewrite Hn.
    + assert (n.1 ≠ last_addr m.1 rest) as Hne.
      { intros Heq. simpl in Hnd. apply NoDup_cons in Hnd as [Hnotin _].
        apply Hnotin. rewrite Heq. by apply last_addr_cons_elem. }
      rewrite lookup_alter_ne, lookup_insert_ne by done. exact Hn.
Qed.

(** Taking a node out of the chain: its neighbours are linked to each
    other. *)
Lemma links_unlink h p l1 n l2 z :
  links h p (l1 ++ n :: l2) z →
  NoDup (p :: (l1 ++ n :: l2).*1) → z ∉ (l1 ++ n :: l2).*1 →
  links (alter (set_prev (last_addr p l1)) (first_addr z l2)
           (alter (set_next (first_addr z l2)) (last_addr p l1) h))
        p (l1 ++ l2) z.
Proof.
  revert p. induction l1 as [|m l1 IH]; intros p Hl Hnd Hz.
  - simpl in *. destruct Hl as [Hn Hl2].
    apply NoDup_cons in Hnd as [Hp Hnd].
    apply NoDup_cons in Hnd as [Hn1 Hnd].
    apply not_elem_of_cons in Hp as [Hpn Hp].
    apply not_elem_of_cons in Hz as [Hzn Hz].
    destruct l2 as [|b l2]; simpl in *; [done|].
    destruct Hl2 as [Hb Hl2].
    apply not_elem_of_cons in Hp as [Hpb Hp].
    apply NoDup_cons in Hnd as [Hb1 Hnd].
    split.
    + rewrite lookup_alter_eq, lookup_alter_ne by done. by rewrite Hb.
    + apply links_alter_ne; [done|]. by apply links_alter_ne.
  - simpl in Hl. destruct Hl as [Hm Hl].
    change ((m :: l1) ++ n :: l2) with (m :: (l1 ++ n :: l2)) in Hnd, Hz.
    rewrite fmap_cons in Hnd, Hz.
    apply NoDup_cons in Hnd as [Hp Hnd].
    apply not_elem_of_cons in Hz as [Hzm Hz].
    specialize (IH m.1 Hl Hnd Hz).
    simpl. split; [|exact IH].
    apply NoDup_cons in Hnd as [Hm1 Hnd].
    assert (m.1 ≠ first_addr z l2) as Hmf.
    { intros Heq. pose proof (first_addr_elem z l2) as Hin.
      rewrite <- Heq in Hin. apply elem_of_cons in Hin as [Hin|Hin]; [done|].
      apply Hm1. rewrite fmap_app, fmap_cons, elem_of_app, elem_of_cons.
      auto. }
    rewrite lookup_alter_ne by done.
    destruct l1 as [|c l1]; simpl in Hm; simpl.
    + rewrite lookup_alter_eq, Hm. done.
    + assert (m.1 ≠ last_addr c.1 l1) as Hml.
      { intros Heq. apply Hm1. rewrite Heq.
        rewrite fmap_app, elem_of_app. left. apply last_addr_cons_elem. }
      rewrite lookup_alter_ne by done. exact Hm.
Qed.

Lemma iter_from_links h e p nodes fuel :
  links h p nodes e → e ∉ nodes.*1 → (length nodes ≤ fuel)%nat →
  iter_from fuel h e (first_addr e nodes) = Some nodes.*2.
Proof.
  revert p fuel. induction nodes as [|n rest IH]; intros p fuel Hl He Hlen.
  - simpl. destruct fuel; simpl; by rewrite decide_True.
  - simpl in *. destruct Hl as [Hn Hrest].
    apply not_elem_of_cons in He as [Hne He].
    destruct fuel as [|fuel]; [lia|]. simpl.
    rewrite decide_False by done.
    rewrite Hn. simpl. rewrite (IH n.1) by (auto; lia). done.
Qed.


Lemma repr_key_elem s nodes key :
  repr s nodes → (key ∈ nodes.*2 ↔ is_Some (map s !! key)).
Proof.
  intros Hr. split.
  - intros ([a k] & -> & Hin)%list_elem_of_fmap. simpl.
    exists a. by apply (repr_map _ _ Hr).
  - intros [a Ha]. apply (repr_map _ _ Hr) in Ha.
    apply list_elem_of_fmap. by exists (a, key).
Qed.

Lemma repr_init : repr init [].
Proof.
  split; simpl.
  - apply lookup_singleton_eq.
  - done.
  - apply NoDup_singleton.
  - apply NoDup_nil_2.
  - intros k a. rewrite lookup_empty. split; [done|].
    intros Hin. by apply elem_of_nil in Hin.
  - intros a [x Hx]. apply lookup_singleton_Some in Hx as [<- _]. lia.
Qed.

Lemma repr_addr_lt s nodes a :
  repr s nodes → a ∈ end_ s :: nodes.*1 → (a < fresh_id s)%nat.
Proof.
  intros Hr Ha. apply (repr_fresh _ _ Hr).
  apply elem_of_cons in Ha as [->|Ha].
  - rewrite (repr_end _ _ Hr). eauto.
  - eapply links_is_Some; [apply (repr_links _ _ Hr)|done].
Qed.

Lemma add_present s key :
  __contains__ key s = true → add key s = Some s.
Proof. unfold add. by intros ->. Qed.

Lemma add_repr s nodes key :
  repr s nodes → key ∉ nodes.*2 →
  ∃ s', add key s = Some s' ∧ repr s' (nodes ++ [(fresh_id s, key)]).
Proof.
  intros Hr Hkey.
  assert (__contains__ key s = false) as Hc.
  { unfold __contains__. apply bool_decide_eq_false.
    by rewrite <- (repr_key_elem _ _ _ Hr). }
  assert (fresh_id s ∉ end_ s :: nodes.*1) as Hnew.
  { intros Hin. apply (repr_addr_lt _ _ _ Hr) in Hin. lia. }
  pose proof (repr_nodup_addr _ _ Hr) as Hnd.
  pose proof Hnew as Hnew'. apply not_elem_of_cons in Hnew' as [Hne Hnew'].
  pose proof Hnd as Hnd'. apply NoDup_cons in Hnd' as [Hend Hnd'].
  unfold add. rewrite Hc, (repr_end _ _ Hr). simpl.
  eexists; split; [reflexivity|].
  split; simpl.
  - rewrite lookup_alter_eq.
    rewrite last_addr_app, first_addr_app. simpl.
    destruct nodes as [|n rest]; simpl.
    + rewrite lookup_alter_eq, lookup_insert_ne by done.
      by rewrite (repr_end _ _ Hr).
    + assert (last_addr n.1 rest ≠ end_ s) as Hle.
      { intros Heq. apply Hend. rewrite <- Heq. apply last_addr_cons_elem. }
      rewrite lookup_alter_ne, lookup_insert_ne by done.
      by rewrite (repr_end _ _ Hr).
  - apply links_alter_ne.
    { rewrite fmap_app, elem_of_app. simpl. intros [Hin|Hin]; [done|].
      apply list_elem_of_singleton in Hin. done. }
    apply links_snoc; [apply (repr_links _ _ Hr)|done|done].
  - rewrite fmap_app. simpl.
    apply NoDup_cons. split.
    + rewrite elem_of_app, list_elem_of_singleton. intros [?|?]; done.
    + apply NoDup_app. split_and!; [done| |apply NoDup_singleton].
      intros x Hx ->%list_elem_of_singleton. done.
  - rewrite fmap_app. simpl. apply NoDup_app.
    split_and!; [apply (repr_nodup_key _ _ Hr)| |apply NoDup_singleton].
    intros x Hx ->%list_elem_of_singleton. done.
  - intros k a. rewrite elem_of_app, list_elem_of_singleton.
    rewrite lookup_insert. case_decide as Hk.
    + subst k. split.
      * intros [= <-]. by right.
      * intros [Hin|[= ->]]; [|done].
        exfalso. apply Hkey. apply list_elem_of_fmap. by exists (a, key).
    + rewrite (repr_map _ _ Hr). split; [by left|].
      intros [Hin|[= -> ->]]; done.
  - intros a Ha. apply elem_of_dom in Ha.
    rewrite !dom_alter_L, dom_insert_L in Ha.
    apply elem_of_union in Ha as [->%elem_of_singleton|Ha]; [lia|].
    apply elem_of_dom in Ha. apply (repr_fresh _ _ Hr) in Ha. lia.
Qed.

Lemma filter_key_notin (nodes : list (addr * K)) key :
  key ∉ nodes.*2 → filter (λ n, n.2 ≠ key) nodes = nodes.
Proof.
  induction nodes as [|n rest IH]; [done|]. rewrite fmap_cons.
  intros [Hne Hrest]%not_elem_of_cons.
  rewrite filter_cons_True by done. f_equal. auto.
Qed.

Lemma discard_repr s nodes key :
  repr s nodes →
  ∃ s', discard key s = Some s' ∧ repr s' (filter (λ n, n.2 ≠ key) nodes).
Proof.
  intros Hr. unfold discard.
  destruct (map s !! key) as [a|] eqn:Hm.
  - apply (repr_map _ _ Hr) in Hm.
    apply list_elem_of_split in Hm as (l1 & l2 & ->).
    pose proof (repr_nodup_key _ _ Hr) as Hk.
    rewrite fmap_app, fmap_cons in Hk. simpl in Hk.
    apply NoDup_app in Hk as (Hk1 & Hk12 & Hk2).
    apply NoDup_cons in Hk2 as [Hk2 Hk2'].
    assert (key ∉ l1.*2) as Hkl1.
    { intros Hin. apply (Hk12 _ Hin). left. }
    rewrite filter_app, filter_cons_False by (simpl; auto).
    rewrite !filter_key_notin by done.
    pose proof (repr_links _ _ Hr) as Hl.
    pose proof (links_middle _ _ _ _ _ _ Hl) as Ha. simpl in Ha.
    rewrite Ha. simpl. eexists; split; [reflexivity|].
    pose proof (repr_nodup_addr _ _ Hr) as Hnd.
    pose proof Hnd as Hnd'. apply NoDup_cons in Hnd' as [Hend Hnd'].
    rewrite fmap_app, fmap_cons in Hend, Hnd'. simpl in Hend, Hnd'.
    apply NoDup_app in Hnd' as (Hn1 & Hn12 & Hn2).
    apply NoDup_cons in Hn2 as [Han2 Hn2].
    apply not_elem_of_app in Hend as [He1 He2].
    apply not_elem_of_cons in He2 as [Hea He2].
    split; simpl.
    + rewrite last_addr_app, first_addr_app.
      destruct l2 as [|b l2]; simpl.
      * rewrite lookup_alter_eq.
        destruct l1 as [|c l1]; simpl.
        -- rewrite lookup_alter_eq, (repr_end _ _ Hr). done.
        -- assert (last_addr c.1 l1 ≠ end_ s) as Hle.
           { intros Heq. apply He1. rewrite <- Heq. apply last_addr_cons_elem. }
           rewrite lookup_alter_ne by done.
           rewrite (repr_end _ _ Hr). simpl.
           rewrite last_addr_app. done.
      * rewrite fmap_cons in He2. apply not_elem_of_cons in He2 as [Heb He2].
        rewrite lookup_alter_ne by done.
        destruct l1 as [|c l1]; simpl.
        -- rewrite lookup_alter_eq. rewrite (repr_end _ _ Hr). done.
        -- assert (last_addr c.1 l1 ≠ end_ s) as Hle.
           { intros Heq. apply He1. rewrite <- Heq. apply last_addr_cons_elem. }
           rewrite lookup_alter_ne by done.
           rewrite (repr_end _ _ Hr). simpl.
           rewrite !last_addr_app. done.
    + apply (links_unlink _ _ _ (a, key)); [done|done|].
      rewrite fmap_app, fmap_cons. simpl.
      apply not_elem_of_app. split; [done|].
      by apply not_elem_of_cons.
    + rewrite fmap_app. apply NoDup_cons. split.
      * by apply not_elem_of_app.
      * apply NoDup_app. split_and!; [done| |done].
        intros x Hx Hx'. apply (Hn12 _ Hx). by right.
    + rewrite fmap_app. apply NoDup_app. split_and!; [done| |done].
      intros x Hx Hx'. apply (Hk12 _ Hx). by right.
    + intros k a'. rewrite lookup_delete. case_decide as Hkk.
      * subst k. split; [done|]. intros Hin. exfalso.
        apply elem_of_app in Hin as [Hin|Hin].
        -- apply Hkl1. apply list_elem_of_fmap. by exists (a', key).
        -- apply Hk2. apply list_elem_of_fmap. by exists (a', key).
      * rewrite (repr_map _ _ Hr). rewrite !elem_of_app, elem_of_cons.
        split; [|tauto]. intros [?|[[= -> ->]|?]]; tauto.
    + intros a' Ha'. apply elem_of_dom in Ha'.
      rewrite !dom_alter_L in Ha'. apply elem_of_dom in Ha'.
      by apply (repr_fresh _ _ Hr).
  - eexists; split; [reflexivity|].
    rewrite filter_key_notin; [done|].
    rewrite (repr_key_elem _ _ _ Hr), Hm. by intros [? ?].
Qed.


Lemma repr_length s nodes : repr s nodes → (length nodes ≤ size (heap s))%nat.
Proof.
  intros Hr. rewrite <- (length_fmap fst nodes), <- size_dom.
  unfold size at 1, set_size. simpl.
  apply submseteq_length, NoDup_submseteq.
  - pose proof (repr_nodup_addr _ _ Hr) as Hnd.
    by apply NoDup_cons in Hnd as [_ Hnd].
  - intros a Ha. apply elem_of_elements, elem_of_dom.
    eapply links_is_Some; [apply (repr_links _ _ Hr)|done].
Qed.

Lemma iter_repr s nodes : repr s nodes → __iter__ s = Some nodes.*2.
Proof.
  intros Hr. unfold __iter__. rewrite (repr_end _ _ Hr). simpl.
  apply (iter_from_links _ _ (end_ s)).
  - apply (repr_links _ _ Hr).
  - pose proof (repr_nodup_addr _ _ Hr) as Hnd.
    by apply NoDup_cons in Hnd as [Hend _].
  - by apply repr_length.
Qed.

Lemma filter_keys (nodes : list (addr * K)) key :
  (filter (λ n, n.2 ≠ key) nodes).*2 = model_discard key nodes.*2.
Proof.
  unfold model_discard. induction nodes as [|n rest IH]; [done|].
  rewrite fmap_cons.
  destruct (decide (n.2 = key)) as [Heq|Hne].
  - rewrite !filter_cons_False by (simpl; auto). exact IH.
  - rewrite !filter_cons_True by done. rewrite fmap_cons. by f_equal.
Qed.

Lemma apply_repr o s nodes :
  repr s nodes →
  ∃ s' nodes', apply o s = Some s' ∧ repr s' nodes' ∧
               nodes'.*2 = model_apply o nodes.*2.
Proof.
  intros Hr. destruct o as [key|key]; simpl.
  - unfold model_add. case_decide as Hin.
    + exists s, nodes. split_and!; [|done|done].
      apply add_present. unfold __contains__. apply bool_decide_eq_true.
      by rewrite <- (repr_key_elem _ _ _ Hr).
    + destruct (add_repr _ _ _ Hr Hin) as (s' & Hs' & Hr').
      exists s', (nodes ++ [(fresh_id s, key)]). split_and!; [done|done|].
      by rewrite fmap_app.
  - destruct (discard_repr _ _ key Hr) as (s' & Hs' & Hr').
    exists s', (filter (λ n, n.2 ≠ key) nodes). split_and!; [done|done|].
    apply filter_keys.
Qed.

Lemma run_repr ops s nodes :
  repr s nodes →
  ∃ s' nodes', run ops s = Some s' ∧ repr s' nodes' ∧
               nodes'.*2 = model_run ops nodes.*2.
Proof.
  revert s nodes. induction ops as [|o ops IH]; intros s nodes Hr; simpl.
  - by exists s, nodes.
  - destruct (apply_repr o _ _ Hr) as (s1 & nodes1 & Happ & Hr1 & Hk1).
    destruct (IH _ _ Hr1) as (s2 & nodes2 & Hrun & Hr2 & Hk2).
    exists s2, nodes2. rewrite Happ. simpl.
    split_and!; [done|done|]. rewrite Hk2, Hk1. done.
Qed.

Lemma update_run items s : update items s = run (Add <$> items) s.
Proof.
  revert s. induction items as [|x items IH]; intros s; simpl; [done|].
  destruct (add x s); simpl; auto.
Qed.

Lemma model_run_adds acc items :
  model_run (Add <$> items) acc =
  acc ++ filter (λ y, y ∉ acc) (first_added items).
Proof.
  unfold model_run.
  revert acc. induction items as [|x items IH]; intros acc; simpl.
  - by rewrite app_nil_r.
  - rewrite IH. unfold model_add. case_decide as Hin.
    + rewrite filter_cons_False by auto. f_equal.
      rewrite list_filter_filter. apply list_filter_iff.
      intros y. split; [|tauto]. intros Hy. split; [done|]. by intros ->.
    + rewrite filter_cons_True by done. rewrite <- app_assoc. simpl.
      do 2 f_equal.
      rewrite list_filter_filter. apply list_filter_iff.
      intros y. rewrite not_elem_of_app, list_elem_of_singleton. tauto.
Qed.

(** C10. Whatever sequence of [add] and [discard] calls built the set,
    iterating it yields the keys in the order of their insertion: the
    sequence [model_run] keeps on a plain list.  For a set built by adding
    alone this is the order of first occurrence, and adding a key the set
    holds returns the very same object state. *)
Theorem ordered_set_insertion_order (ops : list op) (items : list K) :
  (∃ s, run ops init = Some s ∧
        __iter__ s = Some (model_run ops []) ∧
        NoDup (model_run ops []) ∧
        (∀ key, key ∈ model_run ops [] ↔ __contains__ key s = true) ∧
        (∀ key, key ∈ model_run ops [] → add key s = Some s)) ∧
  (∃ s, of_list items = Some s ∧ __iter__ s = Some (first_added items)).
Proof.
  split.
  - destruct (run_repr ops _ _ repr_init) as (s & nodes & Hrun & Hr & Hk).
    simpl in Hk. exists s. rewrite <- Hk.
    assert (∀ key, key ∈ nodes.*2 ↔ __contains__ key s = true) as Hc.
    { intros key. rewrite (repr_key_elem _ _ _ Hr). unfold __contains__.
      by rewrite bool_decide_eq_true. }
    split_and!; [done|by apply iter_repr|apply (repr_nodup_key _ _ Hr)|done|].
    intros key Hin. apply add_present. by apply Hc.
  - unfold of_list. rewrite update_run.
    destruct (run_repr (Add <$> items) _ _ repr_init)
      as (s & nodes & Hrun & Hr & Hk).
    exists s. split; [done|]. rewrite (iter_repr _ _ Hr), Hk.
    rewrite model_run_adds. simpl. f_equal.
    induction (first_added items) as [|y l IHl]; [done|].
    rewrite filter_cons_True by apply not_elem_of_nil. by f_equal.
Qed.


(** *** The other methods *)

(** [pop]: [not self] asks [__len__]; the key is read off the node next
    to the sentinel and handed to [discard]. *)
Inductive popped : Type :=
| Popped (key : K) (s : t)
| KeyError.

Definition pop (last : bool) (s : t) : option popped :=
  if decide (__len__ s = 0%nat) then Some KeyError
  else
    e ← heap s !! end_ s;
    n ← heap s !! (if last then nprev e else nnext e);
    key ← nkey n;
    s' ← discard key s;
    Some (Popped key s').

(** [__eq__] against another OrderedSet: [and] lists the two sets only
    when they are equally long. *)
Definition __eq__ (s other : t) : option bool :=
  if decide (__len__ s = __len__ other) then
    l1 ← __iter__ s;
    l2 ← __iter__ other;
    Some (bool_decide (l1 = l2))
  else Some false.

(** [__eq__] against any other iterable: [set(self) == set(other)]. *)
Definition eq_iterable (s : t) (other : list K) : option bool :=
  l ← __iter__ s;
  Some (bool_decide ((list_to_set l : gset K) = list_to_set other)).

Lemma links_app_l h p l1 l2 z :
  links h p (l1 ++ l2) z → links h p l1 (first_addr z l2).
Proof.
  revert p. induction l1 as [|n l1 IH]; intros p; simpl; [done|].
  intros [Hn Hrest]. split; [|by apply IH].
  by rewrite first_addr_app in Hn.
Qed.

Lemma reversed_from_links h e nodes : ∀ z fuel,
  links h e nodes z → e ∉ nodes.*1 → (length nodes ≤ fuel)%nat →
  reversed_from fuel h e (last_addr e nodes) = Some (reverse nodes.*2).
Proof.
  induction nodes as [|n nodes IH] using rev_ind; intros z fuel Hl He Hlen.
  - simpl. destruct fuel; simpl; by rewrite decide_True.
  - rewrite last_addr_app. simpl.
    rewrite fmap_app, not_elem_of_app in He. destruct He as [He Hn].
    simpl in Hn. apply not_elem_of_cons in Hn as [Hne _].
    rewrite length_app in Hlen. simpl in Hlen.
    destruct fuel as [|fuel]; [lia|]. simpl.
    rewrite decide_False by done.
    rewrite (links_middle _ _ _ _ _ _ Hl). simpl.
    rewrite (IH (first_addr z [n]) fuel); [|by eapply links_app_l|done|lia].
    simpl. by rewrite fmap_app, reverse_app.
Qed.

Lemma reversed_repr s nodes : repr s nodes → __reversed__ s = Some (reverse nodes.*2).
Proof.
  intros Hr. unfold __reversed__. rewrite (repr_end _ _ Hr). simpl.
  apply (reversed_from_links _ _ _ (end_ s)).
  - apply (repr_links _ _ Hr).
  - pose proof (repr_nodup_addr _ _ Hr) as Hnd.
    by apply NoDup_cons in Hnd as [Hend _].
  - by apply repr_length.
Qed.

Lemma repr_len s nodes : repr s nodes → __len__ s = length nodes.
Proof.
  intros Hr. unfold __len__.
  rewrite <- (length_fmap (λ n : addr * K, (n.2, n.1)) nodes).
  rewrite <- length_map_to_list.
  apply Permutation_length, NoDup_Permutation.
  - apply NoDup_map_to_list.
  - apply (NoDup_fmap_1 fst). rewrite <- list_fmap_compose.
    apply (repr_nodup_key _ _ Hr).
  - intros [k a]. rewrite elem_of_map_to_list, (repr_map _ _ Hr), list_elem_of_fmap.
    split.
    + intros Hin. by exists (a, k).
    + intros ([a' k'] & [= -> ->] & Hin). done.
Qed.

Lemma model_discard_notin (l : list K) key :
  key ∉ l → model_discard key l = l.
Proof.
  unfold model_discard. induction l as [|x l IH]; [done|].
  intros [Hne Hl]%not_elem_of_cons.
  rewrite filter_cons_True by done. f_equal. auto.
Qed.

Lemma repr_pop_last s nodes n :
  repr s (nodes ++ [n]) →
  ∃ s', pop true s = Some (Popped n.2 s') ∧ repr s' nodes.
Proof.
  intros Hr. unfold pop.
  rewrite (repr_len _ _ Hr), length_app. simpl.
  rewrite decide_False by lia.
  rewrite (repr_end _ _ Hr). simpl. rewrite last_addr_app. simpl.
  rewrite (links_middle _ _ _ _ _ _ (repr_links _ _ Hr)). simpl.
  destruct (discard_repr _ _ n.2 Hr) as (s' & -> & Hr'). simpl.
  exists s'. split; [done|].
  pose proof (repr_nodup_key _ _ Hr) as Hnd.
  rewrite fmap_app in Hnd. apply NoDup_app in Hnd as (_ & Hnotin & _).
  rewrite filter_app, filter_cons_False, filter_nil, app_nil_r in Hr'
    by (simpl; auto).
  rewrite filter_key_notin in Hr'; [done|].
  intros Hin. apply (Hnotin _ Hin). simpl. left.
Qed.

Lemma repr_pop_first s nodes n :
  repr s (n :: nodes) →
  ∃ s', pop false s = Some (Popped n.2 s') ∧ repr s' nodes.
Proof.
  intros Hr. unfold pop.
  rewrite (repr_len _ _ Hr). case_decide as Hz; [simpl in Hz; lia|].
  rewrite (repr_end _ _ Hr). simpl.
  destruct (repr_links _ _ Hr) as [-> _]. simpl.
  destruct (discard_repr _ _ n.2 Hr) as (s' & -> & Hr'). simpl.
  exists s'. split; [done|].
  pose proof (repr_nodup_key _ _ Hr) as Hnd.
  rewrite fmap_cons in Hnd. apply NoDup_cons in Hnd as [Hnotin _].
  rewrite filter_cons_False in Hr' by (simpl; auto).
  by rewrite filter_key_notin in Hr'.
Qed.

(** X1. [reversed(s)] yields the keys of [iter(s)] in the opposite order,
    whatever calls built the set: the [prev] links mirror the [next]
    links. *)
Theorem reversed_mirrors_iter (ops : list op) :
  ∃ s l, run ops init = Some s ∧ __iter__ s = Some l ∧
         __reversed__ s = Some (reverse l).
Proof.
  destruct (run_repr ops _ _ repr_init) as (s & nodes & Hrun & Hr & _).
  exists s, nodes.*2. split_and!; [done|by apply iter_repr|by apply reversed_repr].
Qed.


(** X3. Two OrderedSets compare equal exactly when they hold the same keys
    in the same order; against another iterable the order is ignored, as
    are repetitions. *)
Theorem eq_compares_order (ops1 ops2 : list op) (other : list K) :
  ∃ s1 s2, run ops1 init = Some s1 ∧ run ops2 init = Some s2 ∧
    __eq__ s1 s2 = Some (bool_decide (model_run ops1 [] = model_run ops2 [])) ∧
    ∃ b, eq_iterable s1 other = Some b ∧
         (b = true ↔ ∀ key, key ∈ model_run ops1 [] ↔ key ∈ other).
Proof.
  destruct (run_repr ops1 _ _ repr_init) as (s1 & nodes1 & Hrun1 & Hr1 & Hk1).
  destruct (run_repr ops2 _ _ repr_init) as (s2 & nodes2 & Hrun2 & Hr2 & Hk2).
  simpl in Hk1, Hk2. exists s1, s2. split_and!; [done|done| |].
  - unfold __eq__. rewrite (repr_len _ _ Hr1), (repr_len _ _ Hr2).
    rewrite (iter_repr _ _ Hr1), (iter_repr _ _ Hr2), <- Hk1, <- Hk2.
    case_decide as Hlen; [done|]. f_equal. symmetry.
    apply bool_decide_eq_false. intros Heq. apply Hlen.
    by rewrite <- (length_fmap snd nodes1), Heq, length_fmap.
  - unfold eq_iterable. rewrite (iter_repr _ _ Hr1), <- Hk1. simpl.
    eexists. split; [reflexivity|]. rewrite bool_decide_eq_true. split.
    + intros Heq key. by rewrite <- (elem_of_list_to_set (C:=gset K)), Heq,
        elem_of_list_to_set.
    + intros Hall. apply set_eq. intros key.
      by rewrite !elem_of_list_to_set.
Qed.

(** X4. [pop] on a set without keys raises KeyError.  Otherwise
    [pop()] returns the key added last and [pop(last=False)] the one
    added first, and the set that remains iterates the other keys in
    their order. *)
Theorem pop_takes_from_the_ends (ops : list op) :
  ∃ s, run ops init = Some s ∧
    (model_run ops [] = [] →
     pop true s = Some KeyError ∧ pop false s = Some KeyError) ∧
    (∀ l key, model_run ops [] = l ++ [key] →
       ∃ s', pop true s = Some (Popped key s') ∧ __iter__ s' = Some l ∧
             __contains__ key s' = false) ∧
    (∀ key l, model_run ops [] = key :: l →
       ∃ s', pop false s = Some (Popped key s') ∧ __iter__ s' = Some l ∧
             __contains__ key s' = false).
Proof.
  destruct (run_repr ops _ _ repr_init) as (s & nodes & Hrun & Hr & Hk).
  simpl in Hk. rewrite <- Hk. exists s.
  assert (∀ s' nodes' key, repr s' nodes' → key ∉ nodes'.*2 →
            __contains__ key s' = false) as Hgone.
  { intros s' nodes' key Hr' Hnot. unfold __contains__.
    apply bool_decide_eq_false. by rewrite <- (repr_key_elem _ _ _ Hr'). }
  pose proof (repr_nodup_key _ _ Hr) as Hnd.
  split_and!; [done| | |].
  - intros Hnil. apply fmap_nil_inv in Hnil. subst nodes.
    unfold pop. rewrite (repr_len _ _ Hr). done.
  - intros l key Heq. apply fmap_app_inv in Heq as (nodes' & last & -> & Hlast & ->).
    destruct last as [|n [|? ?]]; try done. injection Hlast as ->.
    destruct (repr_pop_last _ _ _ Hr) as (s' & Hpop & Hr').
    exists s'. split_and!; [done|by apply iter_repr|].
    apply (Hgone _ _ _ Hr').
    rewrite fmap_app in Hnd. apply NoDup_app in Hnd as (_ & Hnotin & _).
    intros Hin. apply (Hnotin _ Hin). left.
  - intros key l Heq. destruct nodes as [|n nodes']; [done|].
    rewrite fmap_cons in Heq. injection Heq as <- <-.
    destruct (repr_pop_first _ _ _ Hr) as (s' & Hpop & Hr').
    exists s'. split_and!; [done|by apply iter_repr|].
    apply (Hgone _ _ _ Hr').
    rewrite fmap_cons in Hnd. by apply NoDup_cons in Hnd as [? _].
Qed.


(** *** Adding many *)

Lemma update_present items s :
  (∀ key, key ∈ items → __contains__ key s = true) → update items s = Some s.
Proof.
  induction items as [|key items IH]; intros Hall; simpl; [done|].
  rewrite add_present by (apply Hall; left). simpl.
  apply IH. intros key' Hin. apply Hall. by right.
Qed.

(** X29. [update], on a set built by any calls of [add] and [discard],
    leaves the keys the set holds where they are and puts the new keys of its
    arguments behind them, each once, in the order of their first occurrence;
    when the set holds them all it stays the very same object state. *)
Theorem update_appends_new_keys (ops : list op) (items : list K) :
  ∃ s s', run ops init = Some s ∧ update items s = Some s' ∧
    __iter__ s' = Some (model_run ops [] ++
                        filter (λ key, key ∉ model_run ops []) (first_added items)) ∧
    __len__ s' = (__len__ s +
                  length (filter (λ key, key ∉ model_run ops []) (first_added items)))%nat ∧
    ((∀ key, key ∈ items → key ∈ model_run ops []) → s' = s).
Proof.
  destruct (run_repr ops _ _ repr_init) as (s & nodes & Hrun & Hr & Hk).
  simpl in Hk. rewrite <- Hk.
  destruct (run_repr (Add <$> items) _ _ Hr) as (s' & nodes' & Hrun' & Hr' & Hk').
  rewrite <- update_run in Hrun'. rewrite model_run_adds in Hk'.
  exists s, s'. split_and!; [done|done| | |].
  - by rewrite (iter_repr _ _ Hr'), Hk'.
  - rewrite (repr_len _ _ Hr'), (repr_len _ _ Hr).
    rewrite <- (length_fmap snd nodes'), Hk', length_app, length_fmap. done.
  - intros Hall. rewrite update_present in Hrun'; [by injection Hrun'|].
    intros key Hin%Hall. unfold __contains__. apply bool_decide_eq_true.
    by apply (repr_key_elem _ _ _ Hr).
Qed.

End OrderedSet.

Example of_list_iterates :
  (s ← of_list [3; 1; 3; 2; 1]%nat; __iter__ s) = Some [3; 1; 2]%nat.
Proof. vm_compute. reflexivity. Qed.

Example readded_key_goes_last :
  (s ← run [Add 3; Add 1; Add 2; Discard 1; Add 5; Add 1; Discard 3]%nat init;
   __iter__ s) = Some [2; 5; 1]%nat.
Proof. vm_compute. reflexivity. Qed.

Example reversed_is_reverse :
  (s ← of_list [3; 1; 3; 2; 1]%nat; __reversed__ s) = Some [2; 1; 3]%nat.
Proof. vm_compute. reflexivity. Qed.

End OrderedSet.

(* ===================================================================== *)
(** ** app/DeviceTracker.py                                               *)
(* ===================================================================== *)
Module DeviceTracker.

Definition STATE_DEVICE_NOT_HOME : string := "device_not_home".
Definition STATE_DEVICE_HOME : string := "device_home".
Definition STATE_DEVICE_DEFAULT : string := STATE_DEVICE_NOT_HOME.

(** A [datetime] is the number of microseconds since 1970-01-01 00:00:00,
    a [timedelta] a number of microseconds. *)
Definition seconds (n : Z) : Z := n * 1000000.

(** [timedelta(seconds=70)] *)
Definition TIME_SPAN_FOR_ERROR_IN_SCANNING : Z := seconds 70.

Definition STATE_CATEGORY_ALL_DEVICES : string := "device.alldevices".
Definition STATE_CATEGORY_DEVICE_FORMAT (name : string) : string :=
  "device." ++ name.

(** [datetime(1990, 1, 1)]: 7305 days after 1970-01-01. *)
Definition default_last_seen : Z := seconds (7305 * 86400).

(** The value [devices_to_track] keeps for a device. *)
Record device : Type := {
  name : string;
  last_seen : Z;
  category : string
}.

Definition with_last_seen (now : Z) (d : device) : device :=
  {| name := name d; last_seen := now; category := category d |}.

(** Modelled from the spec: the state machine of app/StateMachine.py, which
    is not among the sources (section 4.2: [get] answers the state or
    none, [set] replaces the stored state).  [calls] records the
    [set_state] calls the object received, oldest first. *)
Record StateMachine : Type := {
  states : gmap string string;
  calls : list (string * string)
}.

Definition StateMachine_get_state (cat : string) (sm : StateMachine)
  : option string := states sm !! cat.

Definition StateMachine_set_state (cat st : string) (sm : StateMachine)
  : StateMachine :=
  {| states := <[cat := st]> (states sm); calls := calls sm ++ [(cat, st)] |}.

(** Modelled from the spec: [add_category] registers an entity with its
    first state (section 4.2, registering for the first time). *)
Definition StateMachine_add_category (cat st : string) (sm : StateMachine)
  : StateMachine :=
  {| states := <[cat := st]> (states sm); calls := calls sm |}.

(** The tracker object, the state machine it was handed, and the number of
    [datetime.now()] calls made so far. *)
Record t : Type := {
  devices_to_track : gmap string device;
  all_devices_state : string;
  statemachine : StateMachine;
  ticks : nat
}.

(** [list.remove(x)]: drops the first occurrence. *)
Fixpoint list_remove (x : string) (l : list string) : list string :=
  match l with
  | [] => []
  | y :: l' => if decide (y = x) then l' else y :: list_remove x l'
  end.

Section DeviceTracker.

(** [clock k] is what the [k]-th call of [datetime.now()] returns. *)
Variable clock : nat → Z.

(** [dict.keys()]: a fresh list of the keys (the module is Python 2), each
    once, in an order the interpreter chooses. *)
Variable dict_keys : gmap string device → list string.
Hypothesis dict_keys_perm : ∀ m, dict_keys m ≡ₚ (map_to_list m).*1.

(** [__init__], up to the registration of the timer callback.
    [device_names] is what [device_scanner.get_devices_to_track()]
    returned. *)
Definition __init__ (statemachine : StateMachine) (ticks : nat)
  (device_names : gmap string string) : t :=
  let devices :=
    (λ nm, {| name := nm; last_seen := default_last_seen;
              category := STATE_CATEGORY_DEVICE_FORMAT nm |}) <$> device_names in
  let sm1 :=
    StateMachine_add_category STATE_CATEGORY_ALL_DEVICES STATE_DEVICE_DEFAULT
      statemachine in
  let sm2 :=
    foldl (λ sm dev,
             match devices !! dev with
             | Some d => StateMachine_add_category (category d) STATE_DEVICE_DEFAULT sm
             | None => sm
             end) sm1 (dict_keys devices) in
  {| devices_to_track := devices;
     all_devices_state := STATE_DEVICE_DEFAULT;
     statemachine := sm2;
     ticks := ticks |}.

(** [set_state]: a lookup of a device that is not tracked raises KeyError,
    here [None]. *)
Definition set_state (dev st : string) (tr : t) : option t :=
  d ← devices_to_track tr !! dev;
  let tr1 :=
    if decide (st = STATE_DEVICE_HOME) then
      {| devices_to_track :=
           <[dev := with_last_seen (clock (ticks tr)) d]> (devices_to_track tr);
         all_devices_state := all_devices_state tr;
         statemachine := statemachine tr;
         ticks := S (ticks tr) |}
    else tr in
  Some {| devices_to_track := devices_to_track tr1;
          all_devices_state := all_devices_state tr1;
          statemachine := StateMachine_set_state (category d) st (statemachine tr1);
          ticks := ticks tr1 |}.

(** First loop of [update_devices]: the devices of the scan that are
    tracked are taken off [temp_tracking_devices] and set home. *)
Fixpoint mark_found (found temp : list string) (tr : t)
  : option (list string * t) :=
  match found with
  | [] => Some (temp, tr)
  | dev :: found' =>
      if decide (dev ∈ temp) then
        tr' ← set_state dev STATE_DEVICE_HOME tr;
        mark_found found' (list_remove dev temp) tr'
      else mark_found found' temp tr
  end.

(** Second loop: the devices left on the list.  [and] evaluates
    [datetime.now()] only when the state is home; [get_state] on an
    unknown category answers none, whose [.state] raises. *)
Fixpoint expire_missing (temp : list string) (tr : t) : option t :=
  match temp with
  | [] => Some tr
  | dev :: temp' =>
      d ← devices_to_track tr !! dev;
      st ← StateMachine_get_state (category d) (statemachine tr);
      if decide (st = STATE_DEVICE_HOME) then
        let now := clock (ticks tr) in
        let tr1 := {| devices_to_track := devices_to_track tr;
                      all_devices_state := all_devices_state tr;
                      statemachine := statemachine tr;
                      ticks := S (ticks tr) |} in
        if decide (now - last_seen d > TIME_SPAN_FOR_ERROR_IN_SCANNING) then
          tr2 ← set_state dev STATE_DEVICE_NOT_HOME tr1;
          expire_missing temp' tr2
        else expire_missing temp' tr1
      else expire_missing temp' tr
  end.

(** The list comprehension [states_of_devices]. *)
Definition states_of_devices (tr : t) : option (list string) :=
  mapM (λ dev, d ← devices_to_track tr !! dev;
               StateMachine_get_state (category d) (statemachine tr))
       (dict_keys (devices_to_track tr)).

Definition publish_all_devices (tr : t) : option t :=
  sts ← states_of_devices tr;
  let all := if decide (STATE_DEVICE_HOME ∈ sts)
             then STATE_DEVICE_HOME else STATE_DEVICE_NOT_HOME in
  Some {| devices_to_track := devices_to_track tr;
          all_devices_state := all;
          statemachine :=
            StateMachine_set_state STATE_CATEGORY_ALL_DEVICES all (statemachine tr);
          ticks := ticks tr |}.

Definition update_devices (found_devices : list string) (tr : t) : option t :=
  let temp_tracking_devices := dict_keys (devices_to_track tr) in
  '(temp, tr1) ← mark_found found_devices temp_tracking_devices tr;
  tr2 ← expire_missing temp tr1;
  publish_all_devices tr2.

(** The timer callback fired once per scan result. *)
Fixpoint run (scans : list (list string)) (tr : t) : option t :=
  match scans with
  | [] => Some tr
  | found :: scans' => tr' ← update_devices found tr; run scans' tr'
  end.

(** The state the state machine holds for a tracked device. *)
Definition device_state (dev : string) (tr : t) : option string :=
  d ← devices_to_track tr !! dev;
  StateMachine_get_state (category d) (statemachine tr).


(** *** Invariant and frame relation *)

(** Every tracked device has its category registered: what [__init__]
    sets up, and what keeps [get_state(...).state] from raising. *)
Definition tracker_ok (tr : t) : Prop :=
  ∀ dev d, devices_to_track tr !! dev = Some d →
           is_Some (states (statemachine tr) !! category d).

(** What no step of a cycle undoes. *)
Record extends (tr tr' : t) : Prop := {
  ext_dom : dom (devices_to_track tr') = dom (devices_to_track tr);
  ext_static : ∀ dev d d',
    devices_to_track tr !! dev = Some d → devices_to_track tr' !! dev = Some d' →
    name d' = name d ∧ category d' = category d;
  ext_ticks : (ticks tr ≤ ticks tr')%nat;
  ext_states : ∀ c, is_Some (states (statemachine tr) !! c) →
                    is_Some (states (statemachine tr') !! c)
}.

Lemma extends_refl tr : extends tr tr.
Proof. split; auto. intros dev d d' -> [= ->]. done. Qed.

Lemma extends_trans tr1 tr2 tr3 :
  extends tr1 tr2 → extends tr2 tr3 → extends tr1 tr3.
Proof.
  intros [Hd1 Hs1 Ht1 Hm1] [Hd2 Hs2 Ht2 Hm2]. split.
  - by rewrite Hd2.
  - intros dev d d' Hdev Hdev'.
    assert (is_Some (devices_to_track tr2 !! dev)) as [d2 Hdev2].
    { apply elem_of_dom. rewrite Hd1. apply elem_of_dom. eauto. }
    destruct (Hs1 _ _ _ Hdev Hdev2) as [? ?].
    destruct (Hs2 _ _ _ Hdev2 Hdev') as [? ?]. split; congruence.
  - lia.
  - auto.
Qed.

Lemma extends_ok tr tr' : extends tr tr' → tracker_ok tr → tracker_ok tr'.
Proof.
  intros Hext Hok dev d' Hdev'.
  assert (is_Some (devices_to_track tr !! dev)) as [d Hdev].
  { apply elem_of_dom. rewrite <- (ext_dom _ _ Hext). apply elem_of_dom. eauto. }
  destruct (ext_static _ _ Hext _ _ _ Hdev Hdev') as [_ ->].
  apply (ext_states _ _ Hext). by apply (Hok dev).
Qed.

Lemma dict_keys_elem m dev : dev ∈ dict_keys m ↔ is_Some (m !! dev).
Proof.
  rewrite dict_keys_perm, list_elem_of_fmap. split.
  - intros ([k d] & -> & Hin). apply elem_of_map_to_list in Hin. eauto.
  - intros [d Hd]. exists (dev, d). split; [done|].
    by apply elem_of_map_to_list.
Qed.

Lemma dict_keys_NoDup m : NoDup (dict_keys m).
Proof. rewrite dict_keys_perm. apply NoDup_fst_map_to_list. Qed.

Lemma elem_of_list_remove x y l :
  NoDup l → y ∈ list_remove x l ↔ y ∈ l ∧ y ≠ x.
Proof.
  induction l as [|z l IH]; simpl.
  - intros _. split; [by intros ?%elem_of_nil|by intros [?%elem_of_nil _]].
  - intros [Hz Hnd]%NoDup_cons. case_decide as Hzx.
    + subst z. rewrite elem_of_cons. split.
      * intros Hy. split; [by right|]. by intros ->.
      * intros [[->|Hy] Hne]; done.
    + rewrite !elem_of_cons, IH by done. split.
      * intros [->|[Hy Hne]]; auto.
      * intros [[->|Hy] Hne]; auto.
Qed.

Lemma NoDup_list_remove x l : NoDup l → NoDup (list_remove x l).
Proof.
  induction l as [|z l IH]; simpl; [done|].
  intros [Hz Hnd]%NoDup_cons. case_decide; [done|].
  apply NoDup_cons. split; [|auto].
  rewrite elem_of_list_remove by done. tauto.
Qed.

(** [set_state] on a tracked device, for the two states it is called
    with. *)
Lemma set_state_home dev d tr :
  devices_to_track tr !! dev = Some d →
  set_state dev STATE_DEVICE_HOME tr =
  Some {| devices_to_track :=
            <[dev := with_last_seen (clock (ticks tr)) d]> (devices_to_track tr);
          all_devices_state := all_devices_state tr;
          statemachine :=
            StateMachine_set_state (category d) STATE_DEVICE_HOME (statemachine tr);
          ticks := S (ticks tr) |}.
Proof. intros Hd. unfold set_state. rewrite Hd. done. Qed.

Lemma set_state_not_home dev d tr :
  devices_to_track tr !! dev = Some d →
  set_state dev STATE_DEVICE_NOT_HOME tr =
  Some {| devices_to_track := devices_to_track tr;
          all_devices_state := all_devices_state tr;
          statemachine :=
            StateMachine_set_state (category d) STATE_DEVICE_NOT_HOME
              (statemachine tr);
          ticks := ticks tr |}.
Proof. intros Hd. unfold set_state. rewrite Hd. done. Qed.

Lemma extends_set_home dev d tr :
  devices_to_track tr !! dev = Some d →
  extends tr
    {| devices_to_track :=
         <[dev := with_last_seen (clock (ticks tr)) d]> (devices_to_track tr);
       all_devices_state := all_devices_state tr;
       statemachine :=
         StateMachine_set_state (category d) STATE_DEVICE_HOME (statemachine tr);
       ticks := S (ticks tr) |}.
Proof.
  intros Hd. split; simpl.
  - rewrite dom_insert_L. apply elem_of_dom_2 in Hd.
    by apply subseteq_union_1_L, singleton_subseteq_l.
  - intros dev' d1 d2 H1. rewrite lookup_insert. case_decide.
    + subst dev'. intros [= <-]. rewrite Hd in H1. by injection H1 as <-.
    + rewrite H1. by intros [= ->].
  - lia.
  - intros c Hc. rewrite lookup_insert. case_decide; eauto.
Qed.

Lemma extends_sm_set cat st tr n :
  (ticks tr ≤ n)%nat →
  extends tr
    {| devices_to_track := devices_to_track tr;
       all_devices_state := all_devices_state tr;
       statemachine := StateMachine_set_state cat st (statemachine tr);
       ticks := n |}.
Proof.
  intros Hn. split; simpl; auto.
  - intros dev d d' -> [= ->]. done.
  - intros c Hc. rewrite lookup_insert. case_decide; eauto.
Qed.


Local Abbreviation devs tr := (devices_to_track tr).
Local Abbreviation store tr := (states (statemachine tr)).
Local Abbreviation log tr := (calls (statemachine tr)).
Local Abbreviation HOME := STATE_DEVICE_HOME.
Local Abbreviation NOT_HOME := STATE_DEVICE_NOT_HOME.

(** *** First loop *)

Lemma mark_found_spec found : ∀ temp tr,
  NoDup temp → (∀ dev, dev ∈ temp → is_Some (devs tr !! dev)) →
  ∃ temp' tr', mark_found found temp tr = Some (temp', tr') ∧
    NoDup temp' ∧
    (∀ dev, dev ∈ temp' ↔ dev ∈ temp ∧ dev ∉ found) ∧
    extends tr tr' ∧
    (∀ dev, ¬ (dev ∈ found ∧ dev ∈ temp) → devs tr' !! dev = devs tr !! dev) ∧
    (∀ dev d, dev ∈ found → dev ∈ temp → devs tr !! dev = Some d →
       ∃ k, (ticks tr ≤ k < ticks tr')%nat ∧
            devs tr' !! dev = Some (with_last_seen (clock k) d) ∧
            store tr' !! category d = Some HOME) ∧
    (∀ c, store tr' !! c = store tr !! c ∨
          (store tr' !! c = Some HOME ∧
           ∃ dev d, dev ∈ found ∧ dev ∈ temp ∧ devs tr !! dev = Some d ∧
                    category d = c)) ∧
    (∃ cs, log tr' = log tr ++ cs ∧
           (∀ dev d, dev ∈ found → dev ∈ temp → devs tr !! dev = Some d →
                     (category d, HOME) ∈ cs) ∧
           (∀ c, c ∈ cs → c.2 = HOME)).
Proof.
  induction found as [|dev0 found IH]; intros temp tr Hnd Htr; simpl.
  - exists temp, tr. split_and!; auto using extends_refl.
    + intros dev. rewrite elem_of_nil. tauto.
    + intros dev d Hin. by apply elem_of_nil in Hin.
    + exists []. rewrite app_nil_r. split_and!; [done| |].
      * intros dev d Hin. by apply elem_of_nil in Hin.
      * intros c Hin. by apply elem_of_nil in Hin.
  - case_decide as Hin0.
    + destruct (Htr _ Hin0) as [d0 Hd0].
      rewrite (set_state_home _ _ _ Hd0). simpl.
      set (tr1 := {| devices_to_track := _ |}).
      pose proof (extends_set_home _ _ _ Hd0) as Hext1. fold tr1 in Hext1.
      destruct (IH (list_remove dev0 temp) tr1) as
        (temp' & tr' & Hrun & Hnd' & Hmem & Hext & Hsame & Hfound & Hst & cs & Hlog & Hcs & Hcs').
      { by apply NoDup_list_remove. }
      { intros dev [Hdev _]%elem_of_list_remove; [|done].
        apply elem_of_dom. rewrite (ext_dom _ _ Hext1). apply elem_of_dom. auto. }
      exists temp', tr'. split_and!; [done|done| | | | | |].
      * intros dev. rewrite Hmem, elem_of_list_remove, not_elem_of_cons by done.
        tauto.
      * by eapply extends_trans.
      * intros dev Hdev. rewrite Hsame.
        -- simpl. apply lookup_insert_ne. intros <-. apply Hdev.
           split; [left|done].
        -- rewrite elem_of_list_remove by done. intros [Hf [Ht Hne]].
           apply Hdev. split; [by right|done].
      * intros dev d Hdevf Hdevt Hdev.
        destruct (decide (dev = dev0)) as [->|Hne].
        -- assert (d = d0) as -> by congruence.
           exists (ticks tr). split_and!.
           ++ lia.
           ++ pose proof (ext_ticks _ _ Hext) as Hle. simpl in Hle. lia.
           ++ rewrite Hsame.
              ** simpl. apply lookup_insert_eq.
              ** rewrite elem_of_list_remove by done. tauto.
           ++ destruct (Hst (category d0)) as [->|[-> _]]; [|done].
              simpl. apply lookup_insert_eq.
        -- apply elem_of_cons in Hdevf as [?|Hdevf]; [done|].
           destruct (Hfound dev d) as (k & Hk & Hdev' & Hstore); [done| | |].
           { by apply elem_of_list_remove. }
           { simpl. by rewrite lookup_insert_ne. }
           exists k. split_and!; [|lia|done|done].
           pose proof (ext_ticks _ _ Hext1) as Hle. lia.
      * intros c. destruct (Hst c) as [Hc|[Hc (dev & d & Hf & Ht & Hd & Hcat)]].
        -- rewrite Hc. simpl. rewrite lookup_insert. case_decide as Hcc; [|by left].
           right. split; [done|]. exists dev0, d0. split_and!; [left|done|done|done].
        -- right. split; [done|]. apply elem_of_list_remove in Ht as [Ht Hne]; [|done].
           exists dev, d. split_and!; [by right|done| |done].
           simpl in Hd. by rewrite lookup_insert_ne in Hd.
      * exists ((category d0, HOME) :: cs). split_and!.
        -- rewrite Hlog. simpl. by rewrite <- app_assoc.
        -- intros dev d Hdevf Hdevt Hdev.
           destruct (decide (dev = dev0)) as [->|Hne].
           ++ assert (d = d0) as -> by congruence. left.
           ++ right. apply elem_of_cons in Hdevf as [?|Hdevf]; [done|].
              apply (Hcs dev d); [done| |].
              ** by apply elem_of_list_remove.
              ** simpl. by rewrite lookup_insert_ne.
        -- intros c [->|Hc]%elem_of_cons; [done|auto].
    + destruct (IH temp tr Hnd Htr) as
        (temp' & tr' & Hrun & Hnd' & Hmem & Hext & Hsame & Hfound & Hst & cs & Hlog & Hcs & Hcs').
      exists temp', tr'. split_and!; [done|done| |done| | | |].
      * intros dev. rewrite Hmem, not_elem_of_cons. split; [|tauto].
        intros [Ht Hf]. split_and!; [done| |done]. by intros ->.
      * intros dev Hdev. apply Hsame. intros [Hf Ht]. apply Hdev.
        split; [by right|done].
      * intros dev d [->|Hf]%elem_of_cons Ht Hd; [done|]. by apply Hfound.
      * intros c. destruct (Hst c) as [Hc|[Hc (dev & d & Hf & Ht & Hd & Hcat)]];
          [by left|right].
        split; [done|]. exists dev, d. split_and!; [by right|done|done|done].
      * exists cs. split_and!; [done| |done].
        intros dev d [->|Hf]%elem_of_cons Ht Hd; [done|]. by apply (Hcs dev d).
Qed.


(** *** Second loop *)

Lemma expire_missing_spec temp : ∀ tr,
  tracker_ok tr → (∀ dev, dev ∈ temp → is_Some (devs tr !! dev)) →
  ∃ tr', expire_missing temp tr = Some tr' ∧
    devs tr' = devs tr ∧
    extends tr tr' ∧
    (∀ c, store tr' !! c = store tr !! c ∨
          (store tr' !! c = Some NOT_HOME ∧
           ∃ dev d, dev ∈ temp ∧ devs tr !! dev = Some d ∧ category d = c)) ∧
    (∃ cs, log tr' = log tr ++ cs ∧ ∀ c, c ∈ cs → c.2 = NOT_HOME).
Proof.
  induction temp as [|dev0 temp IH]; intros tr Hok Htr; simpl.
  - exists tr. split_and!; auto using extends_refl.
    exists []. rewrite app_nil_r. split; [done|].
    intros c Hin. by apply elem_of_nil in Hin.
  - destruct (Htr dev0) as [d0 Hd0]; [left|]. rewrite Hd0. simpl.
    destruct (Hok _ _ Hd0) as [st Hst].
    unfold StateMachine_get_state. rewrite Hst. simpl.
    assert (∀ tr1, devs tr1 = devs tr → tracker_ok tr1 →
              ∀ dev, dev ∈ temp → is_Some (devs tr1 !! dev)) as Hrest.
    { intros tr1 -> _ dev Hdev. apply Htr. by right. }
    case_decide as Hhome; [case_decide as Hlate|].
    + set (tr1 := {| devices_to_track := devs tr; ticks := S (ticks tr) |}).
      rewrite (set_state_not_home dev0 d0 tr1) by done. simpl.
      set (tr2 := {| devices_to_track := devs tr; ticks := S (ticks tr) |}).
      assert (extends tr tr2) as Hext2.
      { apply (extends_sm_set (category d0) NOT_HOME tr (S (ticks tr))). lia. }
      destruct (IH tr2) as (tr' & Hrun & Hdevs & Hext & Hstore & cs & Hlog & Hcs).
      { by eapply extends_ok. }
      { apply Hrest; [done|]. by eapply extends_ok. }
      exists tr'. split_and!; [done|done|by eapply extends_trans| |].
      * intros c. destruct (Hstore c) as [Hc|[Hc (dev & d & Ht & Hd & Hcat)]].
        -- rewrite Hc. simpl. rewrite lookup_insert. case_decide; [|by left].
           right. split; [done|]. exists dev0, d0. split_and!; [left|done|done].
        -- right. split; [done|]. exists dev, d. split_and!; [by right|done|done].
      * exists ((category d0, NOT_HOME) :: cs). split.
        -- rewrite Hlog. simpl. by rewrite <- app_assoc.
        -- intros c [->|Hc]%elem_of_cons; [done|auto].
    + set (tr1 := {| devices_to_track := devs tr; ticks := S (ticks tr) |}).
      assert (extends tr tr1) as Hext1.
      { split; simpl; auto. intros dev d d' -> [= ->]. done. }
      destruct (IH tr1) as (tr' & Hrun & Hdevs & Hext & Hstore & cs & Hlog & Hcs).
      { by eapply extends_ok. }
      { apply Hrest; [done|]. by eapply extends_ok. }
      exists tr'. split_and!; [done|done|by eapply extends_trans| |by exists cs].
      intros c. destruct (Hstore c) as [Hc|[Hc (dev & d & Ht & Hd & Hcat)]];
        [by left|right].
      split; [done|]. exists dev, d. split_and!; [by right|done|done].
    + destruct (IH tr) as (tr' & Hrun & Hdevs & Hext & Hstore & cs & Hlog & Hcs).
      { done. }
      { by apply Hrest. }
      exists tr'. split_and!; [done|done|done| |by exists cs].
      intros c. destruct (Hstore c) as [Hc|[Hc (dev & d & Ht & Hd & Hcat)]];
        [by left|right].
      split; [done|]. exists dev, d. split_and!; [by right|done|done].
Qed.



(** *** The summary state *)

Lemma mapM_elem {A B} (f : A → option B) (l : list A) (k : list B) (y : B) :
  mapM f l = Some k → (y ∈ k ↔ ∃ x, x ∈ l ∧ f x = Some y).
Proof.
  intros Hm%mapM_Some. induction Hm as [|x y' l k Hxy Hm IH].
  - split; [by intros ?%elem_of_nil|by intros (x & ?%elem_of_nil & _)].
  - rewrite elem_of_cons, IH. split.
    + intros [->|(x' & Hx' & Hfx')].
      * exists x. split; [left|done].
      * exists x'. split; [by right|done].
    + intros (x' & [->|Hx']%elem_of_cons & Hfx').
      * left. congruence.
      * right. eauto.
Qed.

Lemma publish_all_devices_spec tr :
  tracker_ok tr →
  ∃ tr' agg, publish_all_devices tr = Some tr' ∧
    devs tr' = devs tr ∧ ticks tr' = ticks tr ∧
    store tr' = <[STATE_CATEGORY_ALL_DEVICES := agg]> (store tr) ∧
    log tr' = log tr ++ [(STATE_CATEGORY_ALL_DEVICES, agg)] ∧
    all_devices_state tr' = agg ∧
    (agg = HOME ∨ agg = NOT_HOME) ∧
    (agg = HOME ↔
     ∃ dev d, devs tr !! dev = Some d ∧ store tr !! category d = Some HOME).
Proof.
  intros Hok. unfold publish_all_devices.
  destruct (states_of_devices tr) as [sts|] eqn:Hsts.
  - simpl. eexists _, _. split; [reflexivity|]. simpl.
    split_and!; try done.
    + case_decide; auto.
    + unfold states_of_devices in Hsts.
      pose proof (mapM_elem _ _ _ HOME Hsts) as Hmem.
      case_decide as Hex.
      * split; [intros _|done]. apply Hmem in Hex as (dev & Hdev & Hf).
        destruct (devs tr !! dev) as [d|] eqn:Hd; [|done]. simpl in Hf.
        by exists dev, d.
      * split; [done|]. intros (dev & d & Hd & Hst). exfalso.
        apply Hex, Hmem.
        exists dev. split; [apply dict_keys_elem; eauto|].
        rewrite Hd. done.
  - exfalso. assert (is_Some (states_of_devices tr)) as [? ?]; [|congruence].
    apply mapM_is_Some, Forall_forall. intros dev [d Hd]%dict_keys_elem.
    simpl. rewrite Hd. simpl. by apply (Hok dev).
Qed.


(** *** A whole cycle *)

Lemma extends_publish tr tr' agg :
  devs tr' = devs tr → ticks tr' = ticks tr →
  store tr' = <[STATE_CATEGORY_ALL_DEVICES := agg]> (store tr) →
  extends tr tr'.
Proof.
  intros Hd Ht Hs. split.
  - by rewrite Hd.
  - rewrite Hd. intros dev d d' -> [= ->]. done.
  - lia.
  - intros c Hc. rewrite Hs, lookup_insert. case_decide; eauto.
Qed.

(** Runs the three parts of [update_devices] from a well-formed tracker
    and names what each of them guarantees. *)
Ltac open_cycle found tr Hok :=
  let dev' := fresh "dev'" in
  let Hdev' := fresh "Hdev'" in
  destruct (mark_found_spec found (dict_keys (devs tr)) tr (dict_keys_NoDup _))
    as (temp & tr1 & Hrun1 & Hnd1 & Hmem1 & Hext1 & Hsame1 & Hfound1 & Hst1
          & cs1 & Hlog1 & Hcs1 & Hcs1');
  [ by intros ? ?%dict_keys_elem | ];
  pose proof (extends_ok _ _ Hext1 Hok) as Hok1;
  destruct (expire_missing_spec temp tr1 Hok1)
    as (tr2 & Hrun2 & Hdevs2 & Hext2 & Hst2 & cs2 & Hlog2 & Hcs2);
  [ intros dev' [Hdev' _]%Hmem1; apply elem_of_dom;
    rewrite (ext_dom _ _ Hext1); apply elem_of_dom; by apply dict_keys_elem | ];
  pose proof (extends_ok _ _ Hext2 Hok1) as Hok2;
  destruct (publish_all_devices_spec tr2 Hok2)
    as (tr' & agg & Hrun3 & Hdevs3 & Hticks3 & Hst3 & Hlog3 & Hall3 & Hagg3 & Hagg3');
  pose proof (extends_publish _ _ _ Hdevs3 Hticks3 Hst3) as Hext3;
  assert (update_devices found tr = Some tr') as Hrun
    by (unfold update_devices; rewrite Hrun1; simpl; rewrite Hrun2; simpl;
        exact Hrun3).


Lemma elem_of_list_remove_1 x y l : y ∈ list_remove x l → y ∈ l.
Proof.
  induction l as [|z l IH]; simpl; [done|].
  case_decide; [by right|].
  intros [->|Hy]%elem_of_cons; [left|right; auto].
Qed.

Lemma mark_found_filter (S : gset string) found : ∀ temp tr,
  (∀ dev, dev ∈ temp → dev ∈ S) →
  mark_found found temp tr = mark_found (filter (λ dev, dev ∈ S) found) temp tr.
Proof.
  induction found as [|dev0 found IH]; intros temp tr Htemp; [done|].
  destruct (decide (dev0 ∈ S)) as [Hin|Hout].
  - rewrite filter_cons_True by done. simpl. case_decide; [|auto].
    destruct (set_state dev0 HOME tr) as [tr1|]; [|done]. simpl.
    apply IH. intros dev Hdev%elem_of_list_remove_1. auto.
  - rewrite filter_cons_False by done. simpl.
    rewrite decide_False by (intros Hin; apply Hout; auto). auto.
Qed.

(** *** What [__init__] sets up *)

Lemma init_categories (devices : gmap string device) keys : ∀ sm,
  let sm' :=
    foldl (λ sm dev,
             match devices !! dev with
             | Some d => StateMachine_add_category (category d) STATE_DEVICE_DEFAULT sm
             | None => sm
             end) sm keys in
  (∀ dev d, dev ∈ keys → devices !! dev = Some d →
            states sm' !! category d = Some STATE_DEVICE_DEFAULT) ∧
  (∀ c, states sm !! c = Some STATE_DEVICE_DEFAULT →
        states sm' !! c = Some STATE_DEVICE_DEFAULT).
Proof.
  induction keys as [|dev0 keys IH]; intros sm; simpl.
  - split; [|done]. intros dev d Hin. by apply elem_of_nil in Hin.
  - destruct (IH (match devices !! dev0 with
                  | Some d => StateMachine_add_category (category d)
                                STATE_DEVICE_DEFAULT sm
                  | None => sm
                  end)) as [IH1 IH2].
    split.
    + intros dev d [->|Hin]%elem_of_cons Hd; [|by eapply IH1].
      apply IH2. rewrite Hd. simpl. apply lookup_insert_eq.
    + intros c Hc. apply IH2. destruct (devices !! dev0) as [d0|]; [|done].
      simpl. rewrite lookup_insert. by case_decide.
Qed.

Lemma init_spec sm n (names : gmap string string) :
  let tr := __init__ sm n names in
  tracker_ok tr ∧
  (∀ dev, devs tr !! dev =
          (λ nm, {| name := nm; last_seen := default_last_seen;
                    category := STATE_CATEGORY_DEVICE_FORMAT nm |}) <$> names !! dev) ∧
  (∀ dev d, devs tr !! dev = Some d → store tr !! category d = Some NOT_HOME) ∧
  store tr !! STATE_CATEGORY_ALL_DEVICES = Some NOT_HOME.
Proof.
  simpl. unfold __init__.
  set (devices := _ <$> names).
  set (sm1 := StateMachine_add_category _ _ sm).
  destruct (init_categories devices (dict_keys devices) sm1) as [H1 H2].
  simpl in H1, H2.
  assert (∀ dev d, devices !! dev = Some d →
            states (foldl (λ sm dev,
              match devices !! dev with
              | Some d => StateMachine_add_category (category d) STATE_DEVICE_DEFAULT sm
              | None => sm
              end) sm1 (dict_keys devices)) !! category d = Some NOT_HOME) as Hall.
  { intros dev d Hd. apply (H1 dev d); [|done]. apply dict_keys_elem. eauto. }
  simpl. split_and!.
  - intros dev d Hd. simpl in *. rewrite (Hall dev d Hd). eauto.
  - intros dev. unfold devices. by rewrite lookup_fmap.
  - exact Hall.
  - apply H2. simpl. apply lookup_insert_eq.
Qed.


(** *** The properties of a cycle *)


(** C3. Every cycle ends with a [set_state] call on device.alldevices;
    the value is home exactly when the state machine shows home for some
    tracked device, and not_home otherwise, in particular when nothing is
    tracked. *)
Theorem all_devices_summary found tr :
  tracker_ok tr →
  ∃ tr' agg cs,
    update_devices found tr = Some tr' ∧
    log tr' = log tr ++ cs ++ [(STATE_CATEGORY_ALL_DEVICES, agg)] ∧
    store tr' !! STATE_CATEGORY_ALL_DEVICES = Some agg ∧
    all_devices_state tr' = agg ∧
    (agg = HOME ∨ agg = NOT_HOME) ∧
    (agg = HOME ↔ ∃ dev, is_Some (devs tr' !! dev) ∧
                         device_state dev tr' = Some HOME) ∧
    (devs tr = ∅ → agg = NOT_HOME).
Proof.
  intros Hok. open_cycle found tr Hok.
  exists tr', agg, (cs1 ++ cs2).
  assert (agg = HOME ↔ ∃ dev, is_Some (devs tr' !! dev) ∧
                              device_state dev tr' = Some HOME) as Hiff.
  { unfold device_state, StateMachine_get_state. rewrite Hagg3', Hdevs3, Hst3.
    split.
    - intros (dev & d & Hd & Hs). exists dev. rewrite Hd. split; [eauto|].
      simpl. rewrite lookup_insert. case_decide; [|done].
      f_equal. apply Hagg3'. eauto.
    - intros (dev & [d Hd] & Hs). rewrite Hd in Hs. simpl in Hs.
      rewrite lookup_insert in Hs. case_decide; [|eauto].
      apply Hagg3'. congruence. }
  split_and!; [done| | |done|done|done|].
  - rewrite Hlog3, Hlog2, Hlog1. by rewrite <- !app_assoc.
  - rewrite Hst3. apply lookup_insert_eq.
  - intros Hempty. destruct Hagg3 as [Hh|]; [exfalso|done].
    apply Hiff in Hh as (dev & Hdev & _).
    apply elem_of_dom in Hdev.
    rewrite (ext_dom _ _ Hext3), (ext_dom _ _ Hext2), (ext_dom _ _ Hext1) in Hdev.
    rewrite Hempty, dom_empty_L in Hdev. by apply elem_of_empty in Hdev.
Qed.

(** C4. A cycle keeps the set of tracked devices with their names and
    categories; a scan gives the same result as the scan without the
    devices that are not tracked; and the record of a tracked device that
    is missing from the scan, its [last_seen] included, is what it was. *)
Theorem update_devices_frame found tr :
  tracker_ok tr →
  ∃ tr',
    update_devices found tr = Some tr' ∧
    dom (devs tr') = dom (devs tr) ∧
    (∀ dev d d', devs tr !! dev = Some d → devs tr' !! dev = Some d' →
                 name d' = name d ∧ category d' = category d) ∧
    update_devices (filter (λ dev, dev ∈ dom (devs tr)) found) tr = Some tr' ∧
    (∀ dev, dev ∉ found → devs tr' !! dev = devs tr !! dev).
Proof.
  intros Hok. open_cycle found tr Hok. exists tr'.
  assert (extends tr tr') as Hext.
  { eapply extends_trans; [|exact Hext3]. by eapply extends_trans. }
  split_and!; [done|apply (ext_dom _ _ Hext)|apply (ext_static _ _ Hext)| |].
  - rewrite <- Hrun. unfold update_devices.
    rewrite <- (mark_found_filter (dom (devs tr))); [done|].
    intros dev' [d' Hd']%dict_keys_elem. by apply elem_of_dom_2 in Hd'.
  - intros dev' Hnf. rewrite Hdevs3, Hdevs2. apply Hsame1. tauto.
Qed.







(** *** The rest of the class *)

(** [device_state_categories]: the generator's values, in the order of the
    dict. *)
Definition device_state_categories (tr : t) : list string :=
  omap (λ dev, category <$> devices_to_track tr !! dev)
       (dict_keys (devices_to_track tr)).

Lemma elem_of_device_state_categories tr c :
  c ∈ device_state_categories tr ↔
  ∃ dev d, devs tr !! dev = Some d ∧ category d = c.
Proof.
  unfold device_state_categories. rewrite list_elem_of_omap. split.
  - intros (dev & _ & Hc). destruct (devs tr !! dev) as [d|] eqn:Hd; [|done].
    injection Hc as <-. eauto.
  - intros (dev & d & Hd & <-). exists dev. split.
    + apply dict_keys_elem. eauto.
    + by rewrite Hd.
Qed.

Lemma init_untouched (devices : gmap string device) keys c : ∀ sm,
  (∀ dev d, dev ∈ keys → devices !! dev = Some d → category d ≠ c) →
  states (foldl (λ sm dev,
            match devices !! dev with
            | Some d => StateMachine_add_category (category d) STATE_DEVICE_DEFAULT sm
            | None => sm
            end) sm keys) !! c = states sm !! c.
Proof.
  induction keys as [|dev0 keys IH]; intros sm Hc; simpl; [done|].
  rewrite IH.
  - destruct (devices !! dev0) as [d0|] eqn:Hd0; [|done]. simpl.
    apply lookup_insert_ne. apply (Hc dev0 d0); [left|done].
  - intros dev d Hin. apply Hc. by right.
Qed.

Lemma init_calls (devices : gmap string device) keys : ∀ sm,
  calls (foldl (λ sm dev,
           match devices !! dev with
           | Some d => StateMachine_add_category (category d) STATE_DEVICE_DEFAULT sm
           | None => sm
           end) sm keys) = calls sm.
Proof.
  induction keys as [|dev0 keys IH]; intros sm; simpl; [done|].
  rewrite IH. by destruct (devices !! dev0).
Qed.

(** X9. Right after [__init__] every tracked device carries its name, the
    category device.<name> and the 1990 default as [last_seen]; the
    categories that [device_state_categories] yields, one per device, and
    device.alldevices all read not_home; no other entity of the state
    machine was touched and no [set_state] call was made. *)
Theorem init_registers_not_home sm n (names : gmap string string) :
  let tr := __init__ sm n names in
  (∀ dev, devs tr !! dev =
          (λ nm, {| name := nm; last_seen := default_last_seen;
                    category := STATE_CATEGORY_DEVICE_FORMAT nm |}) <$> names !! dev) ∧
  length (device_state_categories tr) = size names ∧
  (∀ c, c ∈ device_state_categories tr → store tr !! c = Some NOT_HOME) ∧
  store tr !! STATE_CATEGORY_ALL_DEVICES = Some NOT_HOME ∧
  all_devices_state tr = NOT_HOME ∧
  (∀ c, c ≠ STATE_CATEGORY_ALL_DEVICES → c ∉ device_state_categories tr →
        store tr !! c = states sm !! c) ∧
  log tr = calls sm ∧ ticks tr = n.
Proof.
  intros tr. destruct (init_spec sm n names) as (Hok & Hdevs & Hnh & Hall).
  fold tr in Hok, Hdevs, Hnh, Hall.
  split_and!; [done| |  |done|done| | |done].
  - unfold device_state_categories.
    rewrite <- (map_size_fmap (λ nm, {| name := nm; last_seen := default_last_seen;
                    category := STATE_CATEGORY_DEVICE_FORMAT nm |}) names).
    rewrite <- length_map_to_list, <- (length_fmap fst (map_to_list _)).
    rewrite <- (Permutation_length (dict_keys_perm _)).
    assert (∀ l, (∀ dev, dev ∈ l → is_Some (devs tr !! dev)) →
              length (omap (λ dev, category <$> devs tr !! dev) l) = length l) as Hlen.
    { induction l as [|dev l IH]; intros Hl; [done|].
      destruct (Hl dev) as [d Hd]; [left|].
      cbn [omap list_omap]. rewrite Hd. cbn [fmap option_fmap option_map length].
      f_equal. apply IH. intros dev' Hdev'. apply Hl. by right. }
    apply Hlen. intros dev. apply dict_keys_elem.
  - intros c (dev & d & Hd & <-)%elem_of_device_state_categories. by apply (Hnh dev).
  - intros c Hne Hnot. unfold tr, __init__. simpl.
    rewrite init_untouched.
    + simpl. by rewrite lookup_insert_ne.
    + intros dev d _ Hd <-. apply Hnot.
      apply elem_of_device_state_categories. by exists dev, d.
  - unfold tr, __init__. simpl. by rewrite init_calls.
Qed.

(** The devices of a scan, each once, in the order of their first
    occurrence. *)
Fixpoint first_seen (found : list string) : list string :=
  match found with
  | [] => []
  | dev :: found' => dev :: filter (λ dev', dev' ≠ dev) (first_seen found')
  end.

Lemma mark_found_skip dev found : ∀ temp tr,
  dev ∉ temp →
  mark_found found temp tr = mark_found (filter (λ dev', dev' ≠ dev) found) temp tr.
Proof.
  induction found as [|dev0 found IH]; intros temp tr Hnot; [done|].
  destruct (decide (dev0 = dev)) as [->|Hne].
  - rewrite filter_cons_False by auto. simpl.
    rewrite decide_False by done. auto.
  - rewrite filter_cons_True by done. simpl. case_decide; [|auto].
    destruct (set_state dev0 HOME tr) as [tr1|]; [|done]. simpl.
    apply IH. intros Hin%elem_of_list_remove_1. done.
Qed.

Lemma mark_found_first_seen found : ∀ temp tr,
  NoDup temp → mark_found found temp tr = mark_found (first_seen found) temp tr.
Proof.
  induction found as [|dev found IH]; intros temp tr Hnd; [done|]. simpl.
  case_decide as Hin.
  - destruct (set_state dev HOME tr) as [tr1|]; [|done]. simpl.
    rewrite IH by (by apply NoDup_list_remove).
    apply mark_found_skip. rewrite elem_of_list_remove by done. tauto.
  - rewrite IH by done. by apply mark_found_skip.
Qed.

(** X10. A device that the scan lists more than once counts once, at its
    first place in the scan: the cycle leaves the tracker and the state
    machine exactly as the scan without the repetitions does. *)
Theorem repeated_scan_entries_ignored found tr :
  update_devices found tr = update_devices (first_seen found) tr.
Proof.
  unfold update_devices.
  by rewrite <- (mark_found_first_seen found) by apply dict_keys_NoDup.
Qed.


(** What holds of a tracker between two cycles. *)
Record settled (tr : t) : Prop := {
  settled_states : ∀ dev d, devs tr !! dev = Some d →
    store tr !! category d = Some HOME ∨ store tr !! category d = Some NOT_HOME;
  settled_entity : store tr !! STATE_CATEGORY_ALL_DEVICES = Some (all_devices_state tr);
  settled_summary : all_devices_state tr = HOME ∨ all_devices_state tr = NOT_HOME;
  settled_any : all_devices_state tr = HOME ↔
    ∃ dev d, devs tr !! dev = Some d ∧ store tr !! category d = Some HOME;
  settled_seen : ∀ dev d, devs tr !! dev = Some d →
    last_seen d = default_last_seen ∨
    ∃ k, (k < ticks tr)%nat ∧ last_seen d = clock k
}.

Lemma settled_ok tr : settled tr → tracker_ok tr.
Proof.
  intros Hs dev d Hd. destruct (settled_states _ Hs dev d Hd) as [-> | ->]; eauto.
Qed.

Lemma init_settled sm n names : settled (__init__ sm n names).
Proof.
  destruct (init_spec sm n names) as (Hok & Hdevs & Hnh & Hall). split.
  - intros dev d Hd. right. by apply (Hnh dev).
  - done.
  - by right.
  - split; [done|]. intros (dev & d & Hd & Hst).
    rewrite (Hnh dev d Hd) in Hst. done.
  - intros dev d Hd. left. rewrite Hdevs in Hd.
    destruct (names !! dev); [|done]. by injection Hd as <-.
Qed.

Lemma update_devices_settled found tr :
  settled tr → ∃ tr', update_devices found tr = Some tr' ∧ settled tr'.
Proof.
  intros Hs. pose proof (settled_ok _ Hs) as Hok.
  open_cycle found tr Hok. exists tr'. split; [done|].
  assert (∀ dev d', devs tr' !! dev = Some d' →
            devs tr1 !! dev = Some d' ∧
            ∃ d, devs tr !! dev = Some d ∧ category d' = category d) as Hback.
  { intros dev d' Hd'. rewrite Hdevs3, Hdevs2 in Hd'. split; [done|].
    assert (is_Some (devs tr !! dev)) as [d Hd].
    { apply elem_of_dom. rewrite <- (ext_dom _ _ Hext1). apply elem_of_dom. eauto. }
    exists d. split; [done|]. by destruct (ext_static _ _ Hext1 _ _ _ Hd Hd'). }
  assert (∀ c, c ≠ STATE_CATEGORY_ALL_DEVICES →
            store tr' !! c = store tr !! c ∨ store tr' !! c = Some HOME ∨
            store tr' !! c = Some NOT_HOME) as Hc.
  { intros c Hne. rewrite Hst3, lookup_insert_ne by done.
    destruct (Hst2 c) as [-> | [-> _]]; [|auto].
    destruct (Hst1 c) as [-> | [-> _]]; auto. }
  assert (∀ dev d', devs tr' !! dev = Some d' →
            store tr' !! category d' = Some HOME ∨
            store tr' !! category d' = Some NOT_HOME) as Hstates.
  { intros dev d' Hd'.
    destruct (decide (category d' = STATE_CATEGORY_ALL_DEVICES)) as [->|Hne].
    - rewrite Hst3, lookup_insert_eq. destruct Hagg3 as [-> | ->]; auto.
    - destruct (Hc _ Hne) as [-> | H]; [|done].
      destruct (Hback _ _ Hd') as (_ & d & Hd & ->).
      by apply (settled_states _ Hs dev). }
  split.
  - done.
  - by rewrite Hst3, lookup_insert_eq, Hall3.
  - by rewrite Hall3.
  - rewrite Hall3, Hagg3'. rewrite Hdevs3. split.
    + intros (dev & d & Hd & Hst). exists dev, d. split; [done|].
      rewrite Hst3.
      destruct (decide (category d = STATE_CATEGORY_ALL_DEVICES)) as [->|Hne].
      * rewrite lookup_insert_eq. f_equal. apply Hagg3'. eauto.
      * by rewrite lookup_insert_ne.
    + intros (dev & d & Hd & Hst). rewrite Hst3 in Hst.
      destruct (decide (category d = STATE_CATEGORY_ALL_DEVICES)) as [Heq|Hne].
      * rewrite Heq, lookup_insert_eq in Hst. injection Hst as Hst.
        by apply Hagg3'.
      * rewrite lookup_insert_ne in Hst by done. eauto.
  - intros dev d' Hd'. destruct (Hback _ _ Hd') as (Hd1 & d & Hd & _).
    pose proof (ext_ticks _ _ Hext1). pose proof (ext_ticks _ _ Hext2).
    destruct (decide (dev ∈ found)) as [Hin|Hout].
    + destruct (Hfound1 dev d Hin) as (k & Hk & Hd1' & _); [|done|].
      { apply dict_keys_elem. eauto. }
      rewrite Hd1 in Hd1'. injection Hd1' as ->. right. exists k.
      split; [lia|done].
    + rewrite Hsame1 in Hd1 by tauto.
      destruct (settled_seen _ Hs dev d' Hd1) as [?|(k & Hk & ?)]; [by left|].
      right. exists k. split; [lia|done].
Qed.

(** X11. Whatever state machine the tracker is created on and whatever the
    scans report, no cycle raises, and between cycles: every tracked device
    reads home or not_home; device.alldevices holds the value of the attribute
    [all_devices_state], which is home exactly when some tracked device reads
    home; and [last_seen] of each device is the 1990 default or a reading of
    the clock taken by the tracker. *)
Theorem tracker_settled sm n names scans :
  ∃ tr, run scans (__init__ sm n names) = Some tr ∧
    (∀ dev d, devs tr !! dev = Some d →
       device_state dev tr = Some HOME ∨ device_state dev tr = Some NOT_HOME) ∧
    StateMachine_get_state STATE_CATEGORY_ALL_DEVICES (statemachine tr)
      = Some (all_devices_state tr) ∧
    (all_devices_state tr = HOME ∨ all_devices_state tr = NOT_HOME) ∧
    (all_devices_state tr = HOME ↔
       ∃ dev, is_Some (devs tr !! dev) ∧ device_state dev tr = Some HOME) ∧
    (∀ dev d, devs tr !! dev = Some d →
       last_seen d = default_last_seen ∨
       ∃ k, (n ≤ k < ticks tr)%nat ∧ last_seen d = clock k).
Proof.
  assert (∀ tr0, settled tr0 → (n ≤ ticks tr0)%nat →
            (∀ dev d, devs tr0 !! dev = Some d →
               last_seen d = default_last_seen ∨
               ∃ k, (n ≤ k < ticks tr0)%nat ∧ last_seen d = clock k) →
            ∃ tr, run scans tr0 = Some tr ∧ settled tr ∧
              ∀ dev d, devs tr !! dev = Some d →
               last_seen d = default_last_seen ∨
               ∃ k, (n ≤ k < ticks tr)%nat ∧ last_seen d = clock k) as Hrun.
  { induction scans as [|found scans IH]; intros tr0 Hs Hn Hseen; simpl.
    - by exists tr0.
    - pose proof (settled_ok _ Hs) as Hok. open_cycle found tr0 Hok.
      destruct (update_devices_settled found tr0 Hs) as (tr'' & Hrun' & Hs').
      rewrite Hrun in Hrun'. injection Hrun' as <-. rewrite Hrun. simpl.
      pose proof (ext_ticks _ _ Hext1). pose proof (ext_ticks _ _ Hext2).
      apply IH; [done|lia|].
      intros dev d' Hd'. rewrite Hdevs3, Hdevs2 in Hd'.
      assert (is_Some (devs tr0 !! dev)) as [d Hd].
      { apply elem_of_dom. rewrite <- (ext_dom _ _ Hext1). apply elem_of_dom. eauto. }
      destruct (decide (dev ∈ found)) as [Hin|Hout].
      + destruct (Hfound1 dev d Hin) as (k & Hk & Hd1' & _); [|done|].
        { apply dict_keys_elem. eauto. }
        rewrite Hd' in Hd1'. injection Hd1' as ->. right. exists k.
        split; [lia|done].
      + rewrite Hsame1 in Hd' by tauto.
        destruct (Hseen dev d' Hd') as [?|(k & Hk & ?)]; [by left|].
        right. exists k. split; [lia|done]. }
  destruct (Hrun (__init__ sm n names)) as (tr & Hr & Hs & Hseen).
  - apply init_settled.
  - done.
  - intros dev d Hd. left.
    destruct (init_spec sm n names) as (_ & Hdevs & _). rewrite Hdevs in Hd.
    destruct (names !! dev); [|done]. by injection Hd as <-.
  - exists tr. split; [done|]. unfold device_state, StateMachine_get_state.
    split_and!.
    + intros dev d Hd. rewrite Hd. simpl. by apply (settled_states _ Hs dev).
    + apply (settled_entity _ Hs).
    + apply (settled_summary _ Hs).
    + rewrite (settled_any _ Hs). split.
      * intros (dev & d & Hd & Hst). exists dev. rewrite Hd. eauto.
      * intros (dev & [d Hd] & Hst). rewrite Hd in Hst. eauto.
    + done.
Qed.

End DeviceTracker.

(** *** Concrete runs *)

(** Two enumeration orders for [dict.keys()]. *)
Definition keys_forward (m : gmap string device) : list string :=
  (map_to_list m).*1.

Lemma keys_forward_perm m : keys_forward m ≡ₚ (map_to_list m).*1.
Proof. done. Qed.


Definition empty_statemachine : StateMachine := {| states := ∅; calls := [] |}.

(** 2014-01-01 00:00:00, in seconds. *)
Definition T0 : Z := 1388534400.

(** A clock that shows T0 for the first two readings, T0 + 30 s for the
    next two and T0 + 75 s from then on. *)
Definition scenario_clock (k : nat) : Z :=
  seconds (T0 + match k with
                | 0%nat | 1%nat => 0
                | 2%nat | 3%nat => 30
                | _ => 75
                end).

(** Two devices the scanner reports under one name, and two under names
    of their own. *)
Definition shared_names : gmap string string :=
  {[ "aa" := "phone"; "bb" := "phone" ]}.
Definition own_names : gmap string string :=
  {[ "aa" := "phone"; "bb" := "tablet" ]}.





(** One tracked device, seen at T0; the scans at T0 + 30 s and T0 + 75 s
    find nothing.  The state machine is told: home, summary home; summary
    home; not_home, summary not_home. *)
Definition three_scans_clock (k : nat) : Z :=
  seconds (T0 + match k with 0%nat => 0 | 1%nat => 30 | _ => 75 end).

Example three_scans :
  (λ tr, (calls (statemachine tr), last_seen <$> devices_to_track tr !! "aa")) <$>
    run three_scans_clock keys_forward [["aa"]; []; []]
      (__init__ keys_forward empty_statemachine 0 {[ "aa" := "phone" ]}) =
  Some ([("device.phone", STATE_DEVICE_HOME);
         (STATE_CATEGORY_ALL_DEVICES, STATE_DEVICE_HOME);
         (STATE_CATEGORY_ALL_DEVICES, STATE_DEVICE_HOME);
         ("device.phone", STATE_DEVICE_NOT_HOME);
         (STATE_CATEGORY_ALL_DEVICES, STATE_DEVICE_NOT_HOME)],
        Some (seconds T0)).
Proof. vm_compute. reflexivity. Qed.

(** The tracker right after [__init__], for two devices with names of
    their own. *)
Definition own_start : t := __init__ keys_forward empty_statemachine 0 own_names.


Lemma own_start_ok : tracker_ok own_start.
Proof. apply (init_spec keys_forward keys_forward_perm). Qed.





(** The summary of the first cycle of [own_start]. *)
Lemma all_devices_summary_witness :
  ∃ tr' agg cs,
    update_devices scenario_clock keys_forward ["aa"] own_start = Some tr' ∧
    calls (statemachine tr') =
      calls (statemachine own_start) ++ cs ++ [(STATE_CATEGORY_ALL_DEVICES, agg)] ∧
    states (statemachine tr') !! STATE_CATEGORY_ALL_DEVICES = Some agg ∧
    all_devices_state tr' = agg ∧
    (agg = STATE_DEVICE_HOME ∨ agg = STATE_DEVICE_NOT_HOME) ∧
    (agg = STATE_DEVICE_HOME ↔
     ∃ dev, is_Some (devices_to_track tr' !! dev) ∧
            device_state dev tr' = Some STATE_DEVICE_HOME) ∧
    (devices_to_track own_start = ∅ → agg = STATE_DEVICE_NOT_HOME).
Proof.
  apply (all_devices_summary scenario_clock keys_forward keys_forward_perm
           ["aa"] own_start).
  exact own_start_ok.
Defined.

(** A scan with the untracked device "zz". *)
Lemma update_devices_frame_witness :
  ∃ tr',
    update_devices scenario_clock keys_forward ["aa"; "zz"] own_start = Some tr' ∧
    dom (devices_to_track tr') = dom (devices_to_track own_start) ∧
    (∀ dev d d', devices_to_track own_start !! dev = Some d →
                 devices_to_track tr' !! dev = Some d' →
                 name d' = name d ∧ category d' = category d) ∧
    update_devices scenario_clock keys_forward
      (filter (λ dev, dev ∈ dom (devices_to_track own_start)) ["aa"; "zz"])
      own_start = Some tr' ∧
    (∀ dev, dev ∉ ["aa"; "zz"] →
            devices_to_track tr' !! dev = devices_to_track own_start !! dev).
Proof.
  apply (update_devices_frame scenario_clock keys_forward keys_forward_perm
           ["aa"; "zz"] own_start).
  exact own_start_ok.
Defined.


(** The tracker of [own_names] right after its creation. *)
Lemma init_registers_not_home_witness :
  let tr := __init__ keys_forward empty_statemachine 0 own_names in
  (∀ dev, devices_to_track tr !! dev =
          (λ nm, {| name := nm; last_seen := default_last_seen;
                    category := STATE_CATEGORY_DEVICE_FORMAT nm |}) <$> own_names !! dev) ∧
  length (device_state_categories keys_forward tr) = size own_names ∧
  (∀ c, c ∈ device_state_categories keys_forward tr →
        states (statemachine tr) !! c = Some STATE_DEVICE_NOT_HOME) ∧
  states (statemachine tr) !! STATE_CATEGORY_ALL_DEVICES = Some STATE_DEVICE_NOT_HOME ∧
  all_devices_state tr = STATE_DEVICE_NOT_HOME ∧
  (∀ c, c ≠ STATE_CATEGORY_ALL_DEVICES → c ∉ device_state_categories keys_forward tr →
        states (statemachine tr) !! c = states empty_statemachine !! c) ∧
  calls (statemachine tr) = calls empty_statemachine ∧ ticks tr = 0%nat.
Proof.
  exact (init_registers_not_home keys_forward keys_forward_perm
           empty_statemachine 0 own_names).
Defined.

Example own_start_categories :
  device_state_categories keys_forward own_start = ["device.phone"; "device.tablet"].
Proof. vm_compute. reflexivity. Qed.

(** A scan that lists "aa" twice. *)
Lemma repeated_scan_entries_ignored_witness :
  update_devices scenario_clock keys_forward ["aa"; "bb"; "aa"] own_start =
  update_devices scenario_clock keys_forward (first_seen ["aa"; "bb"; "aa"]) own_start.
Proof.
  exact (repeated_scan_entries_ignored scenario_clock keys_forward keys_forward_perm
           ["aa"; "bb"; "aa"] own_start).
Defined.

Example first_seen_keeps_order :
  first_seen ["bb"; "aa"; "bb"; "cc"; "aa"] = ["bb"; "aa"; "cc"].
Proof. vm_compute. reflexivity. Qed.

(** Three scans of the tracker of [shared_names], whose two devices share
    one category. *)
Lemma tracker_settled_witness :
  ∃ tr, run scenario_clock keys_forward [["aa"; "bb"]; ["bb"]; []]
          (__init__ keys_forward empty_statemachine 0 shared_names) = Some tr ∧
    (∀ dev d, devices_to_track tr !! dev = Some d →
       device_state dev tr = Some STATE_DEVICE_HOME ∨
       device_state dev tr = Some STATE_DEVICE_NOT_HOME) ∧
    StateMachine_get_state STATE_CATEGORY_ALL_DEVICES (statemachine tr)
      = Some (all_devices_state tr) ∧
    (all_devices_state tr = STATE_DEVICE_HOME ∨
     all_devices_state tr = STATE_DEVICE_NOT_HOME) ∧
    (all_devices_state tr = STATE_DEVICE_HOME ↔
       ∃ dev, is_Some (devices_to_track tr !! dev) ∧
              device_state dev tr = Some STATE_DEVICE_HOME) ∧
    (∀ dev d, devices_to_track tr !! dev = Some d →
       last_seen d = default_last_seen ∨
       ∃ k, (0 ≤ k < ticks tr)%nat ∧ last_seen d = scenario_clock k).
Proof.
  exact (tracker_settled scenario_clock keys_forward keys_forward_perm
           empty_statemachine 0 shared_names [["aa"; "bb"]; ["bb"]; []]).
Defined.

End DeviceTracker.

(* ===================================================================== *)
(** ** homeassistant/util.py : ThreadPool                                 *)
(* ===================================================================== *)
Module ThreadPool.

(** A job is an object the client hands in, or the pool's private
    [_quit_task] sentinel. *)
Inductive job : Type :=
| Job (n : nat)
| QuitTask.

Global Instance job_eq_dec : EqDecision job.
Proof. solve_decision. Defined.

(** [PriorityQueueItem]: priority and item; [__lt__] looks at the priority
    alone. *)
Abbreviation item := (Z * job)%type.

(** The tuple [(datetime.now(), job)] a worker appends to [current_jobs]. *)
Abbreviation job_log := (Z * job)%type.

Inductive result (A : Type) : Type :=
| Ok (a : A)
| RuntimeError (msg : string).
Arguments Ok {A} a.
Arguments RuntimeError {A} msg.

(** The pool with its queue and workers.  [unfinished_tasks] is the counter
    [Queue.join] waits on; [workers] counts the threads that have not
    returned.  Three fields only record what happened: [handled] the jobs
    whose [job_handler] call returned, [discarded] the items [stop] took
    off the queue itself, [busy_calls] the arguments [busy_callback] was
    invoked with. *)
Record pool : Type := {
  work_queue : list item;
  unfinished_tasks : nat;
  current_jobs : list job_log;
  worker_count : Z;
  workers : nat;
  has_busy_callback : bool;
  busy_warning_limit : Z;
  running : bool;
  handled : list job;
  discarded : list job;
  busy_calls : list (list job_log * Z)
}.

Definition set_queue (q : list item) (u : nat) (p : pool) : pool :=
  {| work_queue := q; unfinished_tasks := u;
     current_jobs := current_jobs p; worker_count := worker_count p;
     workers := workers p; has_busy_callback := has_busy_callback p;
     busy_warning_limit := busy_warning_limit p; running := running p;
     handled := handled p; discarded := discarded p;
     busy_calls := busy_calls p |}.

(** [__init__]: [range(worker_count)] threads are started. *)
Definition __init__ (worker_count : Z) (busy_callback : bool) : pool :=
  {| work_queue := []; unfinished_tasks := 0;
     current_jobs := []; worker_count := worker_count;
     workers := Z.to_nat worker_count; has_busy_callback := busy_callback;
     busy_warning_limit := worker_count ^ 2; running := true;
     handled := []; discarded := []; busy_calls := [] |}.

Definition qsize (p : pool) : Z := Z.of_nat (length (work_queue p)).

(** [PriorityQueue.get] on a non-empty queue: an item of least priority
    (the first such one here) and the queue without it. *)
Fixpoint queue_get (q : list item) : option (item * list item) :=
  match q with
  | [] => None
  | x :: q' =>
      match queue_get q' with
      | None => Some (x, [])
      | Some (y, r) => if x.1 <=? y.1 then Some (x, q') else Some (y, x :: r)
      end
  end.

(** [PriorityQueue.put] *)
Definition put (x : item) (p : pool) : pool :=
  set_queue (work_queue p ++ [x]) (S (unfinished_tasks p)) p.

(** [Queue.task_done] *)
Definition task_done (p : pool) : pool :=
  set_queue (work_queue p) (pred (unfinished_tasks p)) p.

(** [list.remove]: the first equal element goes. *)
Fixpoint list_remove (x : job_log) (l : list job_log) : list job_log :=
  match l with
  | [] => []
  | y :: l' => if decide (y = x) then l' else y :: list_remove x l'
  end.

(** What the worker threads do between two steps of the calling thread:
    a worker that waits in [work_queue.get()] receives an item at clock
    reading [now], or the [job_handler] call for a logged job returns. *)
Inductive worker_act : Type :=
| Take (now : Z)
| Finish (jl : job_log).

(** A worker received a job: it is logged in [current_jobs] and handed to
    [job_handler]. *)
Definition start_job (now : Z) (j : job) (q' : list item) (p : pool) : pool :=
  {| work_queue := q'; unfinished_tasks := unfinished_tasks p;
     current_jobs := current_jobs p ++ [(now, j)];
     worker_count := worker_count p; workers := workers p;
     has_busy_callback := has_busy_callback p;
     busy_warning_limit := busy_warning_limit p; running := running p;
     handled := handled p; discarded := discarded p;
     busy_calls := busy_calls p |}.

(** A worker received the quit task: [task_done()] and the thread
    returns. *)
Definition worker_quit (q' : list item) (p : pool) : pool :=
  {| work_queue := q'; unfinished_tasks := pred (unfinished_tasks p);
     current_jobs := current_jobs p; worker_count := worker_count p;
     workers := pred (workers p);
     has_busy_callback := has_busy_callback p;
     busy_warning_limit := busy_warning_limit p; running := running p;
     handled := handled p; discarded := discarded p;
     busy_calls := busy_calls p |}.

(** [job_handler] returned: the log entry is removed and [task_done()]
    called. *)
Definition finish_job (jl : job_log) (p : pool) : pool :=
  {| work_queue := work_queue p;
     unfinished_tasks := pred (unfinished_tasks p);
     current_jobs := list_remove jl (current_jobs p);
     worker_count := worker_count p; workers := workers p;
     has_busy_callback := has_busy_callback p;
     busy_warning_limit := busy_warning_limit p; running := running p;
     handled := handled p ++ [jl.2]; discarded := discarded p;
     busy_calls := busy_calls p |}.

(** One step of [_threadpool_worker].  A step that cannot happen (no idle
    worker or nothing queued; no such job being handled) leaves the pool
    as it is. *)
Definition worker_step (a : worker_act) (p : pool) : pool :=
  match a with
  | Take now =>
      if decide (length (current_jobs p) < workers p)%nat then
        match queue_get (work_queue p) with
        | None => p
        | Some ((_, QuitTask), q') => worker_quit q' p
        | Some ((_, j), q') => start_job now j q' p
        end
      else p
  | Finish jl =>
      if decide (jl ∈ current_jobs p) then finish_job jl p else p
  end.

Definition run_workers (acts : list worker_act) (p : pool) : pool :=
  foldl (λ p a, worker_step a p) p acts.

(** [add_job].  The workers do not take [self._lock]: [i1] is what they
    do between [put] and the size check, [i2] between the check and the
    evaluation of the callback's arguments. *)
Definition add_job (priority : Z) (j : job) (i1 i2 : list worker_act)
  (p : pool) : result pool :=
  if negb (running p) then RuntimeError "ThreadPool not running"
  else
    let p1 := put (priority, j) p in
    let p2 := run_workers i1 p1 in
    if (busy_warning_limit p2 <? qsize p2) && has_busy_callback p2 then
      let p3 :=
        {| work_queue := work_queue p2; unfinished_tasks := unfinished_tasks p2;
           current_jobs := current_jobs p2; worker_count := worker_count p2;
           workers := workers p2; has_busy_callback := has_busy_callback p2;
           busy_warning_limit := busy_warning_limit p2 * 2;
           running := running p2;
           handled := handled p2; discarded := discarded p2;
           busy_calls := busy_calls p2 |} in
      let p4 := run_workers i2 p3 in
      Ok {| work_queue := work_queue p4; unfinished_tasks := unfinished_tasks p4;
            current_jobs := current_jobs p4; worker_count := worker_count p4;
            workers := workers p4; has_busy_callback := has_busy_callback p4;
            busy_warning_limit := busy_warning_limit p4;
            running := running p4;
            handled := handled p4; discarded := discarded p4;
            busy_calls := busy_calls p4 ++ [(current_jobs p4, qsize p4)] |}
    else Ok p2.

(** [block_till_done]: [work_queue.join()] returns once no task is
    unfinished; [None] when the workers' steps given do not get there. *)
Fixpoint block_till_done (acts : list worker_act) (p : pool) : option pool :=
  if decide (unfinished_tasks p = 0%nat) then Some p
  else
    match acts with
    | [] => None
    | a :: acts' => block_till_done acts' (worker_step a p)
    end.

(** [stop] itself took item [x] off the queue and called [task_done()]:
    the job is dropped. *)
Definition discard_item (x : item) (q' : list item) (p : pool) : pool :=
  {| work_queue := q'; unfinished_tasks := pred (unfinished_tasks p);
     current_jobs := current_jobs p; worker_count := worker_count p;
     workers := workers p; has_busy_callback := has_busy_callback p;
     busy_warning_limit := busy_warning_limit p; running := running p;
     handled := handled p; discarded := discarded p ++ [x.2];
     busy_calls := busy_calls p |}.

(** The loop [while qsize() > 0: get(); task_done()] of [stop].  Each turn
    uses two entries of [sched]: the workers' steps before the size check
    and those between the check and [get].  [None]: [get] found the queue
    empty and blocks, with the lock held. *)
Fixpoint clear_queue (fuel : nat) (sched : list (list worker_act * list worker_act))
  (p : pool) : option pool :=
  match fuel with
  | O => None
  | S fuel' =>
      let '(i1, i2) := hd ([], []) sched in
      let p1 := run_workers i1 p in
      if decide (0 < qsize p1) then
        let p2 := run_workers i2 p1 in
        match queue_get (work_queue p2) with
        | None => None
        | Some (x, q') =>
            let p3 := discard_item x q' p2 in
            clear_queue fuel' (tl sched) p3
        end
      else Some p1
  end.

(** The loop [for _ in range(worker_count): add_job(1000, quit_task)]. *)
Fixpoint add_quit_tasks (n : nat) (sched : list (list worker_act * list worker_act))
  (p : pool) : result pool :=
  match n with
  | O => Ok p
  | S n' =>
      let '(i1, i2) := hd ([], []) sched in
      match add_job 1000 QuitTask i1 i2 p with
      | Ok p' => add_quit_tasks n' (tl sched) p'
      | RuntimeError msg => RuntimeError msg
      end
  end.

Definition set_running (b : bool) (p : pool) : pool :=
  {| work_queue := work_queue p; unfinished_tasks := unfinished_tasks p;
     current_jobs := current_jobs p; worker_count := worker_count p;
     workers := workers p; has_busy_callback := has_busy_callback p;
     busy_warning_limit := busy_warning_limit p; running := b;
     handled := handled p; discarded := discarded p;
     busy_calls := busy_calls p |}.

(** [stop].  The clearing loop cannot run more often than the queue is
    long, plus the turn that sees it empty.  [None]: the call does not
    return under the workers' steps given. *)
Definition stop (sched_clear sched_quit : list (list worker_act * list worker_act))
  (acts_join : list worker_act) (p : pool) : option pool :=
  if negb (running p) then Some p
  else
    p1 ← clear_queue (S (length (work_queue p))) sched_clear p;
    match add_quit_tasks (Z.to_nat (worker_count p1)) sched_quit p1 with
    | RuntimeError _ => None
    | Ok p2 => block_till_done acts_join (set_running false p2)
    end.

(** What happens to a pool over time: calls of the client, and steps of
    the workers in between. *)
Inductive event : Type :=
| AddJob (priority : Z) (n : nat) (i1 i2 : list worker_act)
| Work (acts : list worker_act)
| Stop (sched_clear sched_quit : list (list worker_act * list worker_act))
       (acts_join : list worker_act).

(** A RuntimeError goes to the caller and the pool stays as it is; a
    [stop] that does not return ends the history. *)
Definition run_event (e : event) (p : pool) : option pool :=
  match e with
  | AddJob priority n i1 i2 =>
      match add_job priority (Job n) i1 i2 p with
      | Ok p' => Some p'
      | RuntimeError _ => Some p
      end
  | Work acts => Some (run_workers acts p)
  | Stop sched_clear sched_quit acts_join => stop sched_clear sched_quit acts_join p
  end.

Fixpoint run_history (h : list event) (p : pool) : option pool :=
  match h with
  | [] => Some p
  | e :: h' => p' ← run_event e p; run_history h' p'
  end.


(** *** The busy callback *)

(** The fields no worker writes. *)
Definition same_settings (p p' : pool) : Prop :=
  worker_count p' = worker_count p ∧
  has_busy_callback p' = has_busy_callback p ∧
  busy_warning_limit p' = busy_warning_limit p ∧
  running p' = running p ∧
  discarded p' = discarded p ∧
  busy_calls p' = busy_calls p.

Lemma same_settings_refl p : same_settings p p.
Proof. by repeat split. Qed.

Lemma same_settings_trans p1 p2 p3 :
  same_settings p1 p2 → same_settings p2 p3 → same_settings p1 p3.
Proof.
  unfold same_settings. intros (-> & -> & -> & -> & -> & ->). done.
Qed.

Lemma worker_step_settings a p : same_settings p (worker_step a p).
Proof.
  destruct a as [now|jl]; simpl.
  - case_decide; [|apply same_settings_refl].
    destruct (queue_get (work_queue p)) as [[[pr [n|]] q']|];
      by repeat split.
  - case_decide; by repeat split.
Qed.

Lemma run_workers_settings acts : ∀ p, same_settings p (run_workers acts p).
Proof.
  unfold run_workers.
  induction acts as [|a acts IH]; intros p; simpl.
  - apply same_settings_refl.
  - eapply same_settings_trans; [apply worker_step_settings|apply IH].
Qed.

(** The limit is the initial one, doubled once per invocation. *)
Definition watermark (wc : Z) (p : pool) : Prop :=
  busy_warning_limit p = wc ^ 2 * 2 ^ Z.of_nat (length (busy_calls p)).

Lemma watermark_settings wc p p' :
  same_settings p p' → watermark wc p → watermark wc p'.
Proof.
  unfold watermark. intros (_ & _ & -> & _ & _ & ->). done.
Qed.

(** One call of [add_job] on a running pool: [seen] is the queue size the
    check reads. *)
Lemma add_job_running priority j i1 i2 p :
  running p = true →
  let seen := qsize (run_workers i1 (put (priority, j) p)) in
  ∃ p', add_job priority j i1 i2 p = Ok p' ∧
    running p' = true ∧ worker_count p' = worker_count p ∧
    discarded p' = discarded p ∧
    ((busy_warning_limit p < seen ∧ has_busy_callback p = true ∧
      busy_warning_limit p' = busy_warning_limit p * 2 ∧
      ∃ c, busy_calls p' = busy_calls p ++ [c]) ∨
     (¬ (busy_warning_limit p < seen ∧ has_busy_callback p = true) ∧
      busy_warning_limit p' = busy_warning_limit p ∧
      busy_calls p' = busy_calls p)).
Proof.
  intros Hrun seen. subst seen. unfold add_job. rewrite Hrun. simpl.
  set (p2 := run_workers i1 (put (priority, j) p)).
  destruct (run_workers_settings i1 (put (priority, j) p))
    as (Hwc & Hcb & Hlim & Hr & Hd & Hcalls).
  fold p2 in Hwc, Hcb, Hlim, Hr, Hd, Hcalls. simpl in *.
  rewrite Hlim, Hcb.
  destruct (Z.ltb_spec (busy_warning_limit p) (qsize p2)) as [Hlt|Hge];
    [destruct (has_busy_callback p) eqn:Hhas|]; simpl.
  - set (p3 := {| work_queue := work_queue p2 |}).
    destruct (run_workers_settings i2 p3)
      as (Hwc4 & Hcb4 & Hlim4 & Hr4 & Hd4 & Hcalls4). simpl in *.
    eexists. split; [reflexivity|]. simpl.
    split_and!; [congruence|congruence|congruence|].
    left. split_and!; [done|done|congruence|].
    eexists. rewrite Hcalls4, Hcalls. reflexivity.
  - exists p2. split_and!; [done|congruence|done|done|].
    right. split_and!; [|done|done]. intros [_ ?]. done.
  - exists p2. split_and!; [done|congruence|done|done|].
    right. split_and!; [|done|done]. intros [? _]. lia.
Qed.

Lemma add_job_watermark wc priority j i1 i2 p p' :
  add_job priority j i1 i2 p = Ok p' → watermark wc p → watermark wc p'.
Proof.
  intros Hadd Hw. destruct (running p) eqn:Hrun.
  - destruct (add_job_running priority j i1 i2 p Hrun)
      as (p'' & Hadd' & _ & _ & _ & Hcase).
    rewrite Hadd in Hadd'. injection Hadd' as <-.
    unfold watermark in *.
    destruct Hcase as [(_ & _ & -> & c & ->)|(_ & -> & ->)]; [|done].
    rewrite length_app. simpl. rewrite Nat.add_1_r, Nat2Z.inj_succ.
    rewrite Z.pow_succ_r by lia. lia.
  - unfold add_job in Hadd. by rewrite Hrun in Hadd.
Qed.

Lemma clear_queue_settings fuel : ∀ sched p p',
  clear_queue fuel sched p = Some p' →
  worker_count p' = worker_count p ∧ has_busy_callback p' = has_busy_callback p ∧
  busy_warning_limit p' = busy_warning_limit p ∧ running p' = running p ∧
  busy_calls p' = busy_calls p.
Proof.
  induction fuel as [|fuel IH]; intros sched p p'; simpl; [done|].
  destruct (hd ([], []) sched) as [i1 i2].
  destruct (run_workers_settings i1 p) as (Hwc & Hcb & Hlim & Hr & Hd & Hcalls).
  case_decide.
  - destruct (run_workers_settings i2 (run_workers i1 p))
      as (Hwc2 & Hcb2 & Hlim2 & Hr2 & Hd2 & Hcalls2).
    destruct (queue_get _) as [[x q']|]; [|done].
    intros (H1 & H2 & H3 & H4 & H5)%IH. simpl in *.
    split_and!; congruence.
  - intros [= <-]. done.
Qed.

Lemma add_quit_tasks_watermark wc n : ∀ sched p p',
  add_quit_tasks n sched p = Ok p' → watermark wc p → watermark wc p'.
Proof.
  induction n as [|n IH]; intros sched p p'; simpl.
  - by intros [= <-].
  - destruct (hd ([], []) sched) as [i1 i2].
    destruct (add_job 1000 QuitTask i1 i2 p) as [p1|] eqn:Hadd; [|done].
    intros Hrest Hw. eapply IH; [exact Hrest|].
    by eapply add_job_watermark.
Qed.

Lemma block_till_done_settings acts : ∀ p p',
  block_till_done acts p = Some p' → same_settings p p'.
Proof.
  induction acts as [|a acts IH]; intros p p'; simpl.
  - case_decide; [|done]. intros [= <-]. apply same_settings_refl.
  - case_decide; [intros [= <-]; apply same_settings_refl|].
    intros Hrest%IH.
    eapply same_settings_trans; [apply worker_step_settings|done].
Qed.

(** The three parts of a [stop] call that does its work and returns. *)
Lemma stop_running sc sq aj p p' :
  running p = true → stop sc sq aj p = Some p' →
  ∃ p1 p2,
    clear_queue (S (length (work_queue p))) sc p = Some p1 ∧
    add_quit_tasks (Z.to_nat (worker_count p1)) sq p1 = Ok p2 ∧
    block_till_done aj (set_running false p2) = Some p'.
Proof.
  intros Hrun. unfold stop. rewrite Hrun. cbn [negb].
  destruct (clear_queue (S (length (work_queue p))) sc p) as [p1|]; [|done].
  cbn [mbind option_bind].
  destruct (add_quit_tasks (Z.to_nat (worker_count p1)) sq p1) as [p2|] eqn:Hquit;
    [|done].
  intros Hjoin. by exists p1, p2.
Qed.

Lemma stop_not_running sc sq aj p : running p = false → stop sc sq aj p = Some p.
Proof. intros Hrun. unfold stop. by rewrite Hrun. Qed.

Lemma stop_watermark wc sc sq aj p p' :
  stop sc sq aj p = Some p' → watermark wc p → watermark wc p'.
Proof.
  destruct (running p) eqn:Hrun;
    [|rewrite stop_not_running by done; by intros [= <-]].
  intros (p1 & p2 & Hclear & Hquit & Hjoin)%stop_running; [|done].
  apply block_till_done_settings in Hjoin. intros Hw.
  apply clear_queue_settings in Hclear as (_ & _ & Hlim & _ & Hcalls).
  assert (watermark wc p1) as Hw1.
  { unfold watermark in *. by rewrite Hlim, Hcalls. }
  apply (add_quit_tasks_watermark wc) in Hquit; [|done].
  eapply watermark_settings; [exact Hjoin|]. exact Hquit.
Qed.

Lemma run_history_watermark wc h : ∀ p p',
  run_history h p = Some p' → watermark wc p → watermark wc p'.
Proof.
  induction h as [|e h IH]; intros p p'; simpl.
  - by intros [= <-].
  - destruct (run_event e p) as [p1|] eqn:Hev; [|done]. simpl.
    intros Hrest Hw. eapply IH; [exact Hrest|].
    destruct e as [priority n i1 i2|acts|sc sq aj]; simpl in Hev.
    + destruct (add_job priority (Job n) i1 i2 p) as [p2|] eqn:Hadd;
        injection Hev as <-; [|done].
      by eapply add_job_watermark.
    + injection Hev as <-.
      eapply watermark_settings; [apply run_workers_settings|done].
    + by eapply stop_watermark.
Qed.

(** C5. The limit starts at [worker_count] squared.  A call of [add_job]
    invokes [busy_callback], once, exactly when there is a callback and
    the queue size read after the enqueue exceeds the limit, and then the
    limit has been doubled first; otherwise limit and invocations stay.
    Over any history of calls and worker steps the limit therefore is the
    initial one times two to the number of invocations. *)
Theorem busy_callback_watermark :
  (∀ wc cb, busy_warning_limit (__init__ wc cb) = wc ^ 2 ∧
            busy_calls (__init__ wc cb) = []) ∧
  (∀ priority j i1 i2 p,
     running p = true →
     let seen := qsize (run_workers i1 (put (priority, j) p)) in
     ∃ p', add_job priority j i1 i2 p = Ok p' ∧
       ((busy_warning_limit p < seen ∧ has_busy_callback p = true ∧
         busy_warning_limit p' = busy_warning_limit p * 2 ∧
         ∃ c, busy_calls p' = busy_calls p ++ [c]) ∨
        (¬ (busy_warning_limit p < seen ∧ has_busy_callback p = true) ∧
         busy_warning_limit p' = busy_warning_limit p ∧
         busy_calls p' = busy_calls p))) ∧
  (∀ wc cb h p,
     run_history h (__init__ wc cb) = Some p →
     busy_warning_limit p = wc ^ 2 * 2 ^ Z.of_nat (length (busy_calls p))).
Proof.
  split_and!.
  - done.
  - intros priority j i1 i2 p Hrun seen.
    destruct (add_job_running priority j i1 i2 p Hrun)
      as (p' & Hadd & _ & _ & _ & Hcase).
    by exists p'.
  - intros wc cb h p Hrun.
    apply (run_history_watermark wc h _ _ Hrun).
    unfold watermark. simpl. lia.
Qed.


(** *** Invariants of the queue accounting *)

Definition is_job (j : job) : Prop := j ≠ QuitTask.

Definition no_quit (q : list item) : Prop := Forall (λ x, x.2 ≠ QuitTask) q.
Definition all_quit (q : list item) : Prop := Forall (λ x, x.2 = QuitTask) q.

(** [unfinished_tasks] counts what is queued or being handled, no more
    jobs are being handled than there are workers, and no worker handles
    the quit task. *)
Record pool_inv (p : pool) : Prop := {
  inv_unfinished :
    unfinished_tasks p = (length (work_queue p) + length (current_jobs p))%nat;
  inv_busy : (length (current_jobs p) ≤ workers p)%nat;
  inv_current : Forall (λ jl : job_log, jl.2 ≠ QuitTask) (current_jobs p)
}.

(** A pool as it is while it runs: all workers alive, no quit task
    queued. *)
Definition pool_ok (p : pool) : Prop :=
  pool_inv p ∧ workers p = Z.to_nat (worker_count p) ∧ no_quit (work_queue p).

(** Every job the pool was given, wherever it is now. *)
Definition accounted (p : pool) : list job :=
  filter is_job
    ((work_queue p).*2 ++ (current_jobs p).*2 ++ handled p ++ discarded p).

(** The jobs that a worker has taken. *)
Definition taken (p : pool) : list job := handled p ++ (current_jobs p).*2.

Lemma queue_get_None q : queue_get q = None → q = [].
Proof.
  destruct q as [|x q]; [done|]. simpl.
  destruct (queue_get q) as [[y r]|]; [|done]. by case_match.
Qed.

Lemma queue_get_perm q : ∀ x r, queue_get q = Some (x, r) → q ≡ₚ x :: r.
Proof.
  induction q as [|y q IH]; intros x r; simpl; [done|].
  destruct (queue_get q) as [[z r']|] eqn:Hq.
  - case_match; intros [= <- <-]; [done|].
    rewrite (IH z r' eq_refl). apply Permutation_swap.
  - intros [= <- <-]. by rewrite (queue_get_None _ Hq).
Qed.

Lemma queue_get_length q x r :
  queue_get q = Some (x, r) → length q = S (length r).
Proof. intros Hq%queue_get_perm. by rewrite Hq. Qed.

Lemma list_remove_perm jl l : jl ∈ l → l ≡ₚ jl :: list_remove jl l.
Proof.
  induction l as [|y l IH]; simpl; [by intros ?%elem_of_nil|].
  case_decide as Hy; [by subst|].
  intros [->|Hin]%elem_of_cons; [done|].
  rewrite (IH Hin) at 1. apply Permutation_swap.
Qed.

Lemma perm_move {A} (x : A) (l1 l2 l3 : list A) :
  l1 ++ l2 ++ x :: l3 ≡ₚ x :: l1 ++ l2 ++ l3.
Proof. by rewrite app_assoc, <- Permutation_middle, <- app_assoc. Qed.

Lemma filter_is_job_quit (l : list job) :
  filter is_job (QuitTask :: l) = filter is_job l.
Proof. apply filter_cons_False. unfold is_job. tauto. Qed.

Section steps.

Variable p : pool.
Hypothesis Hinv : pool_inv p.

(** A worker takes a job. *)
Lemma start_job_spec now pr n q' :
  (length (current_jobs p) < workers p)%nat →
  queue_get (work_queue p) = Some ((pr, Job n), q') →
  let p' := start_job now (Job n) q' p in
  pool_inv p' ∧ accounted p' ≡ₚ accounted p ∧
  workers p' = workers p ∧
  (no_quit (work_queue p) → no_quit (work_queue p')) ∧
  (all_quit (work_queue p) → False).
Proof.
  intros Hidle Hget. pose proof (queue_get_perm _ _ _ Hget) as Hperm.
  destruct Hinv as [Hu Hb Hc]. simpl. split_and!.
  - split; simpl.
    + rewrite Hu, Hperm, length_app. simpl. lia.
    + rewrite length_app. simpl. lia.
    + apply Forall_app. split; [done|]. by apply Forall_singleton.
  - unfold accounted, start_job. cbn [work_queue current_jobs handled discarded].
    apply filter_Permutation.
    rewrite Hperm, fmap_app, fmap_cons, <- app_assoc. cbn [snd fmap list_fmap app].
    apply perm_move.
  - done.
  - unfold no_quit. rewrite Hperm. by intros [_ ?]%Forall_cons.
  - unfold all_quit. rewrite Hperm. by intros [? _]%Forall_cons.
Qed.

(** A worker takes the quit task. *)
Lemma worker_quit_spec pr q' :
  (length (current_jobs p) < workers p)%nat →
  queue_get (work_queue p) = Some ((pr, QuitTask), q') →
  let p' := worker_quit q' p in
  pool_inv p' ∧ accounted p' ≡ₚ accounted p ∧
  (no_quit (work_queue p) → False) ∧
  (all_quit (work_queue p) → all_quit (work_queue p')) ∧
  (workers p' + length (work_queue p) = workers p + length (work_queue p'))%nat ∧
  taken p' = taken p.
Proof.
  intros Hidle Hget. pose proof (queue_get_perm _ _ _ Hget) as Hperm.
  destruct Hinv as [Hu Hb Hc]. simpl. split_and!.
  - split; simpl; [|lia|done]. rewrite Hu, Hperm. simpl. lia.
  - unfold accounted. simpl. rewrite Hperm. simpl.
    by rewrite filter_is_job_quit.
  - unfold no_quit. rewrite Hperm. by intros [? _]%Forall_cons.
  - unfold all_quit. rewrite Hperm. by intros [_ ?]%Forall_cons.
  - rewrite Hperm. simpl. lia.
  - done.
Qed.

(** A handler returns. *)
Lemma finish_job_spec jl :
  jl ∈ current_jobs p →
  let p' := finish_job jl p in
  pool_inv p' ∧ accounted p' ≡ₚ accounted p ∧
  work_queue p' = work_queue p ∧ workers p' = workers p ∧
  taken p' ≡ₚ taken p.
Proof.
  intros Hin. pose proof (list_remove_perm _ _ Hin) as Hperm.
  destruct Hinv as [Hu Hb Hc]. simpl.
  assert (length (current_jobs p) = S (length (list_remove jl (current_jobs p))))
    as Hlen by (by rewrite Hperm at 1).
  split_and!; try done.
  - split; simpl; [lia|lia|].
    rewrite Hperm in Hc. by apply Forall_cons in Hc as [_ ?].
  - unfold accounted, finish_job. cbn [work_queue current_jobs handled discarded].
    apply filter_Permutation, Permutation_app_head.
    rewrite Hperm at 2. rewrite fmap_cons, <- app_assoc.
    cbn [snd fmap list_fmap app].
    by rewrite (perm_move jl.2 _ (handled p) (discarded p)).
  - unfold taken, finish_job. cbn [current_jobs handled].
    rewrite Hperm at 2. rewrite fmap_cons, <- app_assoc.
    cbn [snd fmap list_fmap app]. done.
Qed.

End steps.


(** While [stop] clears the queue: no quit task is queued and [W] workers
    are alive. *)
Definition clearing (W : nat) (p : pool) : Prop :=
  pool_inv p ∧ no_quit (work_queue p) ∧ workers p = W.

(** While [stop] hands out quit tasks and waits: only quit tasks are
    queued, and [e] of them are still to be added. *)
Definition quitting (e : nat) (p : pool) : Prop :=
  pool_inv p ∧ all_quit (work_queue p) ∧
  workers p = (length (work_queue p) + e)%nat.

Lemma worker_step_clearing W a p :
  clearing W p →
  clearing W (worker_step a p) ∧ accounted (worker_step a p) ≡ₚ accounted p.
Proof.
  intros (Hinv & Hnq & Hw). destruct a as [now|jl]; simpl.
  - case_decide as Hidle; [|unfold clearing, quitting; by split_and!].
    destruct (queue_get (work_queue p)) as [[[pr [n|]] q']|] eqn:Hget;
      [| |unfold clearing, quitting; by split_and!].
    + destruct (start_job_spec p Hinv now pr n q' Hidle Hget)
        as (Hinv' & Hacc & Hw' & Hnq' & _).
      unfold clearing. split_and!; auto; congruence.
    + destruct (worker_quit_spec p Hinv pr q' Hidle Hget) as (_ & _ & Hno & _).
      by destruct Hno.
  - case_decide as Hin; [|unfold clearing, quitting; by split_and!].
    destruct (finish_job_spec p Hinv jl Hin) as (Hinv' & Hacc & Hq & Hw' & _).
    unfold clearing. split_and!; auto; congruence.
Qed.

Lemma run_workers_clearing W acts : ∀ p,
  clearing W p →
  clearing W (run_workers acts p) ∧ accounted (run_workers acts p) ≡ₚ accounted p.
Proof.
  unfold run_workers. induction acts as [|a acts IH]; intros p Hc; simpl; [done|].
  destruct (worker_step_clearing W a p Hc) as [Hc1 Hacc1].
  destruct (IH _ Hc1) as [Hc2 Hacc2]. split; [done|]. by rewrite Hacc2.
Qed.

Lemma worker_step_quitting e a p :
  quitting e p →
  quitting e (worker_step a p) ∧ accounted (worker_step a p) ≡ₚ accounted p ∧
  taken (worker_step a p) ≡ₚ taken p.
Proof.
  intros (Hinv & Haq & Hw). destruct a as [now|jl]; simpl.
  - case_decide as Hidle; [|unfold clearing, quitting; by split_and!].
    destruct (queue_get (work_queue p)) as [[[pr [n|]] q']|] eqn:Hget;
      [| |unfold clearing, quitting; by split_and!].
    + destruct (start_job_spec p Hinv now pr n q' Hidle Hget) as (_ & _ & _ & _ & Hno).
      by destruct Hno.
    + destruct (worker_quit_spec p Hinv pr q' Hidle Hget)
        as (Hinv' & Hacc & _ & Haq' & Hw' & Htaken).
      split_and!; [split_and!; auto; lia|done|by rewrite Htaken].
  - case_decide as Hin; [|unfold clearing, quitting; by split_and!].
    destruct (finish_job_spec p Hinv jl Hin) as (Hinv' & Hacc & Hq & Hw' & Htaken).
    split_and!; [split_and!; [done|by rewrite Hq|by rewrite Hq, Hw']|done|done].
Qed.

Lemma run_workers_quitting e acts : ∀ p,
  quitting e p →
  quitting e (run_workers acts p) ∧ accounted (run_workers acts p) ≡ₚ accounted p ∧
  taken (run_workers acts p) ≡ₚ taken p.
Proof.
  unfold run_workers. induction acts as [|a acts IH]; intros p Hq; simpl; [done|].
  destruct (worker_step_quitting e a p Hq) as (Hq1 & Hacc1 & Ht1).
  destruct (IH _ Hq1) as (Hq2 & Hacc2 & Ht2).
  split_and!; [done|by rewrite Hacc2|by rewrite Ht2].
Qed.

(** *** The clearing loop *)

Lemma clear_queue_spec W fuel : ∀ sched p p1,
  clearing W p → clear_queue fuel sched p = Some p1 →
  clearing W p1 ∧ work_queue p1 = [] ∧ accounted p1 ≡ₚ accounted p.
Proof.
  induction fuel as [|fuel IH]; intros sched p p1 Hc; simpl; [done|].
  destruct (hd ([], []) sched) as [i1 i2].
  destruct (run_workers_clearing W i1 p Hc) as [Hc1 Hacc1].
  case_decide as Hsize.
  - destruct (run_workers_clearing W i2 _ Hc1) as [Hc2 Hacc2].
    set (p2 := run_workers i2 (run_workers i1 p)) in *.
    destruct (queue_get (work_queue p2)) as [[x q']|] eqn:Hget; [|done].
    pose proof (queue_get_perm _ _ _ Hget) as Hperm.
    destruct Hc2 as ([Hu Hb Hcur] & Hnq & Hw).
    intros Hrest. apply IH in Hrest as (Hc3 & Hempty & Hacc3).
    + split_and!; [done|done|]. rewrite Hacc3, <- Hacc1, <- Hacc2.
      unfold accounted, discard_item. cbn [work_queue current_jobs handled discarded].
      apply filter_Permutation. rewrite Hperm, fmap_cons.
      cbn [app]. rewrite !app_assoc. symmetry. apply Permutation_cons_append.
    + split_and!; [split; simpl| |done].
      * rewrite Hu, Hperm. simpl. lia.
      * done.
      * done.
      * simpl. unfold no_quit in *. rewrite Hperm in Hnq.
        by apply Forall_cons in Hnq as [_ ?].
  - intros [= <-]. split_and!; [done| |done].
    unfold qsize in Hsize. destruct (work_queue (run_workers i1 p)); [done|].
    simpl in Hsize. lia.
Qed.

(** With no worker interfering, every queued item is discarded and
    nothing else changes hands. *)
Lemma clear_queue_quiet fuel : ∀ p,
  (length (work_queue p) < fuel)%nat →
  ∃ p1, clear_queue fuel [] p = Some p1 ∧
        discarded p1 ≡ₚ discarded p ++ (work_queue p).*2 ∧
        handled p1 = handled p ∧ current_jobs p1 = current_jobs p.
Proof.
  induction fuel as [|fuel IH]; intros p Hlen; [lia|]. simpl.
  case_decide as Hsize.
  - destruct (queue_get (work_queue p)) as [[x q']|] eqn:Hget.
    + pose proof (queue_get_perm _ _ _ Hget) as Hperm.
      destruct (IH (discard_item x q' p)) as (p1 & Hrun & Hd & Hh & Hc).
      { simpl. rewrite Hperm in Hlen. simpl in Hlen. lia. }
      exists p1. split_and!; [done| |done|done].
      rewrite Hd. simpl. rewrite Hperm, fmap_cons, <- app_assoc. done.
    + apply queue_get_None in Hget. unfold qsize in Hsize.
      rewrite Hget in Hsize. simpl in Hsize. lia.
  - exists p. split_and!; [done| |done|done].
    unfold qsize in Hsize. destruct (work_queue p); [|simpl in Hsize; lia].
    by rewrite app_nil_r.
Qed.


(** *** Handing out the quit tasks and waiting *)

Lemma put_quit_quitting e p :
  quitting (S e) p →
  quitting e (put (1000, QuitTask) p) ∧
  accounted (put (1000, QuitTask) p) ≡ₚ accounted p ∧
  taken (put (1000, QuitTask) p) = taken p.
Proof.
  intros ([Hu Hb Hc] & Haq & Hw). split_and!; [split_and!; [split|..]|..]; simpl.
  - rewrite Hu, length_app. simpl. lia.
  - done.
  - done.
  - apply Forall_app. split; [done|]. by apply Forall_singleton.
  - rewrite Hw, length_app. simpl. lia.
  - unfold accounted, put. cbn [work_queue current_jobs handled discarded set_queue].
    rewrite fmap_app, <- app_assoc.
    rewrite !(filter_app _ (work_queue p).*2). f_equiv.
    cbn [snd fmap list_fmap app]. by rewrite filter_is_job_quit.
  - done.
Qed.

Lemma quitting_same_work e p p' :
  work_queue p' = work_queue p → unfinished_tasks p' = unfinished_tasks p →
  current_jobs p' = current_jobs p → workers p' = workers p →
  quitting e p → quitting e p'.
Proof.
  intros Hq Hu Hc Hw ([Hu' Hb Hcur] & Haq & Hw').
  split_and!; [split|..]; rewrite ?Hq, ?Hu, ?Hc, ?Hw; done.
Qed.

Lemma add_quit_task_spec e i1 i2 p :
  running p = true → quitting (S e) p →
  ∃ p', add_job 1000 QuitTask i1 i2 p = Ok p' ∧ running p' = true ∧
        quitting e p' ∧ accounted p' ≡ₚ accounted p ∧ taken p' ≡ₚ taken p ∧
        discarded p' = discarded p.
Proof.
  intros Hrun Hq. unfold add_job. rewrite Hrun. cbn [negb].
  destruct (put_quit_quitting e p Hq) as (Hq1 & Hacc1 & Ht1).
  set (p1 := put (1000, QuitTask) p) in *.
  destruct (run_workers_quitting e i1 p1 Hq1) as (Hq2 & Hacc2 & Ht2).
  destruct (run_workers_settings i1 p1) as (_ & _ & _ & Hr2 & Hd2 & _).
  set (p2 := run_workers i1 p1) in *.
  destruct ((busy_warning_limit p2 <? qsize p2) && has_busy_callback p2).
  - set (p3 := {| work_queue := work_queue p2 |}).
    assert (quitting e p3) as Hq3 by (by apply (quitting_same_work e p2)).
    destruct (run_workers_quitting e i2 p3 Hq3) as (Hq4 & Hacc4 & Ht4).
    destruct (run_workers_settings i2 p3) as (_ & _ & _ & Hr4 & Hd4 & _).
    eexists. split; [reflexivity|]. simpl in *.
    split_and!.
    + congruence.
    + by apply (quitting_same_work e (run_workers i2 p3)).
    + etransitivity; [|etransitivity; [exact Hacc2|exact Hacc1]].
      etransitivity; [|exact Hacc4]. done.
    + etransitivity; [|etransitivity; [exact Ht2|by rewrite Ht1]].
      etransitivity; [|exact Ht4]. done.
    + congruence.
  - exists p2. split_and!; [done|simpl in *; congruence|done| | |simpl in *; congruence].
    + by rewrite Hacc2.
    + by rewrite Ht2, Ht1.
Qed.

Lemma add_quit_tasks_spec n : ∀ sched p,
  running p = true → quitting n p →
  ∃ p', add_quit_tasks n sched p = Ok p' ∧ running p' = true ∧
        quitting 0 p' ∧ accounted p' ≡ₚ accounted p ∧ taken p' ≡ₚ taken p ∧
        discarded p' = discarded p.
Proof.
  induction n as [|n IH]; intros sched p Hrun Hq; simpl.
  - by exists p.
  - destruct (hd ([], []) sched) as [i1 i2].
    destruct (add_quit_task_spec n i1 i2 p Hrun Hq)
      as (p1 & -> & Hrun1 & Hq1 & Hacc1 & Ht1 & Hd1).
    destruct (IH (tl sched) p1 Hrun1 Hq1)
      as (p' & Hadd & Hrun' & Hq' & Hacc' & Ht' & Hd').
    exists p'. split_and!; [done|done|done| | |congruence].
    + by rewrite Hacc'.
    + by rewrite Ht'.
Qed.

Lemma block_till_done_spec e acts : ∀ p p',
  quitting e p → block_till_done acts p = Some p' →
  quitting e p' ∧ unfinished_tasks p' = 0%nat ∧
  accounted p' ≡ₚ accounted p ∧ taken p' ≡ₚ taken p.
Proof.
  induction acts as [|a acts IH]; intros p p' Hq; simpl.
  - case_decide; [|done]. by intros [= <-].
  - case_decide; [by intros [= <-]|].
    destruct (worker_step_quitting e a p Hq) as (Hq1 & Hacc1 & Ht1).
    intros (Hq' & Hu & Hacc' & Ht')%IH; [|done].
    split_and!; [done|done|by rewrite Hacc'|by rewrite Ht'].
Qed.

(** What a returning [stop] leaves behind, from a pool that runs. *)
Lemma stop_spec sc sq aj p p' :
  pool_ok p → running p = true → stop sc sq aj p = Some p' →
  running p' = false ∧
  work_queue p' = [] ∧ current_jobs p' = [] ∧ workers p' = 0%nat ∧
  accounted p' ≡ₚ accounted p ∧
  (sc = [] → discarded p' ≡ₚ discarded p ++ (work_queue p).*2 ∧
             handled p' ≡ₚ handled p ++ (current_jobs p).*2).
Proof.
  intros (Hinv & Hw & Hnq) Hrun Hstop.
  destruct (stop_running _ _ _ _ _ Hrun Hstop) as (p1 & p2 & Hclear & Hquit & Hjoin).
  destruct (clear_queue_settings _ _ _ _ Hclear) as (Hwc1 & _ & _ & Hrun1 & _).
  destruct (clear_queue_spec (workers p) _ _ _ _ ltac:(by split_and!) Hclear)
    as ((Hinv1 & Hnq1 & Hw1) & Hempty1 & Hacc1).
  assert (quitting (Z.to_nat (worker_count p1)) p1) as Hq1.
  { split_and!; [done|by rewrite Hempty1; apply Forall_nil_2|].
    rewrite Hempty1, Hw1, Hwc1. simpl. lia. }
  destruct (add_quit_tasks_spec _ sq p1 ltac:(congruence) Hq1)
    as (p2' & Hquit' & Hrun2 & Hq2 & Hacc2 & Ht2 & Hd2).
  rewrite Hquit in Hquit'. injection Hquit' as <-.
  assert (quitting 0 (set_running false p2)) as Hq3
    by (by apply (quitting_same_work 0 p2)).
  destruct (block_till_done_spec 0 aj _ _ Hq3 Hjoin) as (Hq' & Hu' & Hacc' & Ht').
  destruct (block_till_done_settings _ _ _ Hjoin) as (_ & _ & _ & Hrun' & Hd' & _).
  destruct Hq' as ([Hu Hb Hc] & Haq & Hw').
  assert (work_queue p' = []) as Hempty'.
  { apply length_zero_iff_nil. lia. }
  assert (current_jobs p' = []) as Hidle'.
  { apply length_zero_iff_nil. lia. }
  split_and!; [done|done|done| | |].
  - rewrite Hw', Hempty'. done.
  - rewrite Hacc'. etransitivity; [|exact Hacc1].
    etransitivity; [|exact Hacc2]. done.
  - intros ->.
    destruct (clear_queue_quiet (S (length (work_queue p))) p ltac:(lia))
      as (p1' & Hclear' & Hd1 & Hh1 & Hc1).
    rewrite Hclear in Hclear'. injection Hclear' as <-.
    split.
    + rewrite Hd'. simpl. by rewrite Hd2.
    + assert (taken p' ≡ₚ taken p1) as Htaken.
      { rewrite Ht'. etransitivity; [|exact Ht2]. done. }
      unfold taken in Htaken. rewrite Hidle', Hh1, Hc1 in Htaken.
      simpl in Htaken. by rewrite app_nil_r in Htaken.
Qed.

Lemma add_job_stopped priority j i1 i2 p :
  running p = false →
  add_job priority j i1 i2 p = RuntimeError "ThreadPool not running".
Proof. intros Hrun. unfold add_job. by rewrite Hrun. Qed.

(** *** [stop] returns when the workers do their part *)

Lemma worker_step_queue_length a p :
  (length (work_queue (worker_step a p)) ≤ length (work_queue p))%nat.
Proof.
  destruct a as [now|jl]; simpl.
  - case_decide; [|done].
    destruct (queue_get (work_queue p)) as [[[pr [n|]] q']|] eqn:Hget; [| |done];
      apply queue_get_length in Hget; simpl; lia.
  - case_decide; done.
Qed.

Lemma run_workers_queue_length acts : ∀ p,
  (length (work_queue (run_workers acts p)) ≤ length (work_queue p))%nat.
Proof.
  unfold run_workers. induction acts as [|a acts IH]; intros p; simpl; [done|].
  etransitivity; [apply IH|apply worker_step_queue_length].
Qed.

(** The fuel [stop] gives the clearing loop is never used up: more fuel
    gives the same answer, so [None] stands for the blocked [get]
    alone. *)
Lemma clear_queue_fuel fuel : ∀ sched p,
  (length (work_queue p) < fuel)%nat →
  clear_queue (S fuel) sched p = clear_queue fuel sched p.
Proof.
  induction fuel as [|fuel IH]; intros sched p Hlen; [lia|].
  change (clear_queue (S (S fuel)) sched p) with
    (let '(i1, i2) := hd ([], []) sched in
     let p1 := run_workers i1 p in
     if decide (0 < qsize p1) then
       let p2 := run_workers i2 p1 in
       match queue_get (work_queue p2) with
       | None => None
       | Some (x, q') => clear_queue (S fuel) (tl sched) (discard_item x q' p2)
       end
     else Some p1).
  change (clear_queue (S fuel) sched p) with
    (let '(i1, i2) := hd ([], []) sched in
     let p1 := run_workers i1 p in
     if decide (0 < qsize p1) then
       let p2 := run_workers i2 p1 in
       match queue_get (work_queue p2) with
       | None => None
       | Some (x, q') => clear_queue fuel (tl sched) (discard_item x q' p2)
       end
     else Some p1).
  destruct (hd ([], []) sched) as [i1 i2]. cbn zeta.
  case_decide; [|done].
  destruct (queue_get (work_queue (run_workers i2 (run_workers i1 p))))
    as [[x q']|] eqn:Hget; [|done].
  apply IH. simpl. apply queue_get_length in Hget.
  pose proof (run_workers_queue_length i2 (run_workers i1 p)).
  pose proof (run_workers_queue_length i1 p). lia.
Qed.

Lemma block_till_done_reaches acts : ∀ p,
  unfinished_tasks (run_workers acts p) = 0%nat →
  is_Some (block_till_done acts p).
Proof.
  induction acts as [|a acts IH]; intros p; simpl.
  - intros ->. rewrite decide_True by done. eauto.
  - intros Hend. case_decide; [eauto|]. by apply IH.
Qed.

(** All handlers return. *)
Lemma run_finish_all : ∀ p,
  pool_inv p →
  let p' := run_workers (Finish <$> current_jobs p) p in
  pool_inv p' ∧ current_jobs p' = [] ∧ work_queue p' = work_queue p ∧
  workers p' = workers p.
Proof.
  intros p. remember (current_jobs p) as cur eqn:Hcur.
  revert p Hcur. induction cur as [|jl cur IH]; intros p Hcur Hinv; simpl.
  - by split_and!.
  - assert (jl ∈ current_jobs p) as Hin by (rewrite <- Hcur; left).
    rewrite decide_True by done.
    destruct (finish_job_spec p Hinv jl Hin) as (Hinv' & _ & Hq & Hw & _).
    destruct (IH (finish_job jl p)) as (Hinv'' & Hc'' & Hq'' & Hw''); [|done|].
    { simpl. rewrite <- Hcur. simpl. by rewrite decide_True. }
    split_and!;
      [exact Hinv''|exact Hc''|exact (eq_trans Hq'' Hq)|exact (eq_trans Hw'' Hw)].
Qed.

(** As many idle workers as quit tasks: each takes one and exits. *)
Lemma run_take_quits n : ∀ p,
  pool_inv p → all_quit (work_queue p) → length (work_queue p) = n →
  current_jobs p = [] → workers p = n →
  unfinished_tasks (run_workers (replicate n (Take 0)) p) = 0%nat.
Proof.
  induction n as [|n IH]; intros p Hinv Haq Hlen Hcur Hw; simpl.
  - rewrite (inv_unfinished _ Hinv), Hlen, Hcur. done.
  - rewrite decide_True by (rewrite Hcur, Hw; simpl; lia).
    destruct (queue_get (work_queue p)) as [[[pr [m|]] q']|] eqn:Hget.
    + exfalso. apply queue_get_perm in Hget. unfold all_quit in Haq.
      rewrite Hget in Haq. by apply Forall_cons in Haq as [? _].
    + assert (length (current_jobs p) < workers p)%nat as Hidle
        by (rewrite Hcur, Hw; simpl; lia).
      destruct (worker_quit_spec p Hinv pr q' Hidle Hget)
        as (Hinv' & _ & _ & Haq' & _ & _).
      apply IH; simpl; auto.
      * apply queue_get_length in Hget. lia.
      * lia.
    + apply queue_get_None in Hget. rewrite Hget in Hlen. done.
Qed.

(** On a running pool [stop] returns, for one, when no worker interferes
    before the quit tasks are queued, and then the handlers return and
    every worker picks up its quit task. *)
Lemma stop_returns p :
  pool_ok p → running p = true → ∃ aj p', stop [] [] aj p = Some p'.
Proof.
  intros Hok Hrun. pose proof Hok as (Hinv & Hw & Hnq).
  destruct (clear_queue_quiet (S (length (work_queue p))) p ltac:(lia))
    as (p1 & Hclear & _ & _ & Hc1).
  destruct (clear_queue_settings _ _ _ _ Hclear) as (Hwc1 & _ & _ & Hrun1 & _).
  destruct (clear_queue_spec (workers p) _ _ _ _ ltac:(by split_and!) Hclear)
    as ((Hinv1 & Hnq1 & Hw1) & Hempty1 & _).
  assert (quitting (Z.to_nat (worker_count p1)) p1) as Hq1.
  { split_and!; [done|by rewrite Hempty1; apply Forall_nil_2|].
    rewrite Hempty1, Hw1, Hwc1. simpl. lia. }
  destruct (add_quit_tasks_spec _ [] p1 ltac:(congruence) Hq1)
    as (p2 & Hquit & Hrun2 & (Hinv2 & Haq2 & Hw2) & _).
  set (p3 := set_running false p2).
  assert (pool_inv p3) as Hinv3 by (destruct Hinv2; by split).
  destruct (run_finish_all p3 Hinv3) as (Hinv4 & Hc4 & Hq4 & Hw4).
  set (p4 := run_workers (Finish <$> current_jobs p3) p3) in *.
  set (n := length (work_queue p2)).
  assert (is_Some (block_till_done
            ((Finish <$> current_jobs p3) ++ replicate n (Take 0)) p3))
    as [p' Hjoin].
  { apply block_till_done_reaches. unfold run_workers. rewrite foldl_app.
    fold (run_workers (Finish <$> current_jobs p3) p3). fold p4.
    apply (run_take_quits n p4); auto.
    - by rewrite Hq4.
    - by rewrite Hq4.
    - rewrite Hw4. simpl. rewrite Hw2. fold n. lia. }
  exists ((Finish <$> current_jobs p3) ++ replicate n (Take 0)), p'.
  unfold stop. rewrite Hrun. cbn [negb]. rewrite Hclear. cbn [mbind option_bind].
  rewrite Hquit. exact Hjoin.
Qed.

(** C6, as the code has it.  On a running pool [stop] returns once the
    handlers have returned and the workers have picked up their quit
    tasks.  When it returns the queue is empty, every job is accounted for
    as handled or discarded, the jobs being handled have returned, all
    workers have exited, and every later [add_job] raises RuntimeError and
    leaves the pool alone.  The jobs still waiting in the queue are not
    run: with no idle worker stepping in while the queue is cleared, all
    of them are discarded and exactly the jobs that were already being
    handled are completed. *)
Theorem stop_discards_queue p :
  pool_ok p → running p = true →
  (∃ aj p', stop [] [] aj p = Some p') ∧
  (∀ sc sq aj p',
     stop sc sq aj p = Some p' →
     running p' = false ∧
     work_queue p' = [] ∧ current_jobs p' = [] ∧ workers p' = 0%nat ∧
     accounted p' ≡ₚ accounted p ∧
     (sc = [] → discarded p' ≡ₚ discarded p ++ (work_queue p).*2 ∧
                handled p' ≡ₚ handled p ++ (current_jobs p).*2) ∧
     (∀ priority j i1 i2,
        add_job priority j i1 i2 p' = RuntimeError "ThreadPool not running") ∧
     (∀ priority n i1 i2, run_event (AddJob priority n i1 i2) p' = Some p')).
Proof.
  intros Hok Hrun. split; [by apply stop_returns|].
  intros sc sq aj p' Hstop.
  destruct (stop_spec sc sq aj p p' Hok Hrun Hstop)
    as (Hrun' & Hq & Hc & Hw & Hacc & Hquiet).
  split_and!; try done.
  - intros priority j i1 i2. by apply add_job_stopped.
  - intros priority n i1 i2. simpl. by rewrite add_job_stopped.
Qed.

(** *** Pools that a history can reach *)

Lemma pool_ok_clearing p : pool_ok p ↔ clearing (Z.to_nat (worker_count p)) p.
Proof. unfold pool_ok, clearing. tauto. Qed.

Lemma pool_ok_init wc cb : pool_ok (__init__ wc cb).
Proof.
  split_and!; [split; simpl| |]; simpl; auto using Forall_nil_2 with lia.
  apply Forall_nil_2.
Qed.

Lemma add_job_ok priority n i1 i2 p p' :
  pool_ok p → add_job priority (Job n) i1 i2 p = Ok p' → pool_ok p'.
Proof.
  intros Hok. unfold add_job. destruct (running p); cbn [negb]; [|done].
  set (p1 := put (priority, Job n) p).
  assert (clearing (Z.to_nat (worker_count p)) p1) as Hc1.
  { destruct Hok as ([Hu Hb Hc] & Hw & Hnq). split_and!; [split|..]; simpl.
    - rewrite Hu, length_app. simpl. lia.
    - done.
    - done.
    - apply Forall_app. split; [done|]. by apply Forall_singleton.
    - done. }
  destruct (run_workers_clearing _ i1 p1 Hc1) as [Hc2 _].
  destruct (run_workers_settings i1 p1) as (Hwc2 & _).
  set (p2 := run_workers i1 p1) in *.
  destruct ((busy_warning_limit p2 <? qsize p2) && has_busy_callback p2).
  - set (p3 := {| work_queue := work_queue p2 |}).
    assert (clearing (Z.to_nat (worker_count p)) p3) as Hc3.
    { destruct Hc2 as ([Hu Hb Hc] & Hnq & Hw). by split_and!; [split|..]. }
    destruct (run_workers_clearing _ i2 p3 Hc3) as [([Hu Hb Hc] & Hnq & Hw) _].
    destruct (run_workers_settings i2 p3) as (Hwc4 & _).
    intros [= <-]. split_and!; [split|..]; simpl; try done.
    rewrite Hw, Hwc4. simpl. by rewrite Hwc2.
  - intros [= <-]. apply pool_ok_clearing. by rewrite Hwc2.
Qed.

Lemma run_event_ok e p p' :
  run_event e p = Some p' →
  (running p = true → pool_ok p) → (running p' = true → pool_ok p').
Proof.
  destruct e as [priority n i1 i2|acts|sc sq aj]; simpl.
  - destruct (add_job priority (Job n) i1 i2 p) as [p1|] eqn:Hadd;
      intros [= <-]; [|done].
    intros Hok _. destruct (running p) eqn:Hrun.
    + eapply add_job_ok; [by apply Hok|exact Hadd].
    + by rewrite add_job_stopped in Hadd.
  - intros [= <-] Hok Hrun'.
    destruct (run_workers_settings acts p) as (Hwc & _ & _ & Hrun & _).
    apply pool_ok_clearing. rewrite Hwc.
    apply run_workers_clearing, pool_ok_clearing, Hok. congruence.
  - intros Hstop Hok Hrun'. destruct (running p) eqn:Hrun.
    + destruct (stop_spec _ _ _ _ _ (Hok eq_refl) Hrun Hstop) as (Hoff & _).
      congruence.
    + rewrite stop_not_running in Hstop by done. injection Hstop as <-.
      congruence.
Qed.

(** Every pool a history leads to accounts for its queue as [stop]
    expects, as long as it runs. *)
Lemma run_history_ok h : ∀ p p',
  run_history h p = Some p' →
  (running p = true → pool_ok p) → (running p' = true → pool_ok p').
Proof.
  induction h as [|e h IH]; intros p p'; simpl.
  - by intros [= <-].
  - destruct (run_event e p) as [p1|] eqn:Hev; [|done]. simpl.
    intros Hrest Hok. eapply IH; [exact Hrest|].
    by eapply run_event_ok.
Qed.

(** *** A concrete history *)

(** One worker.  It takes job 0 at once; jobs 1 and 2 are queued behind
    it. *)
Definition busy_history : list event :=
  [AddJob 1 0 [Take 5] []; AddJob 1 1 [] []; AddJob 1 2 [] []].

Definition busy_pool : pool :=
  {| work_queue := [(1, Job 1); (1, Job 2)]; unfinished_tasks := 3;
     current_jobs := [(5, Job 0)]; worker_count := 1; workers := 1;
     has_busy_callback := false; busy_warning_limit := 1; running := true;
     handled := []; discarded := []; busy_calls := [] |}.

Definition stopped_pool : pool :=
  {| work_queue := []; unfinished_tasks := 0;
     current_jobs := []; worker_count := 1; workers := 0;
     has_busy_callback := false; busy_warning_limit := 1; running := false;
     handled := [Job 0]; discarded := [Job 1; Job 2]; busy_calls := [] |}.

Lemma busy_pool_reached : run_history busy_history (__init__ 1 false) = Some busy_pool.
Proof. vm_compute. reflexivity. Qed.

Lemma busy_pool_ok : pool_ok busy_pool.
Proof.
  apply (run_history_ok busy_history _ _ busy_pool_reached); [|done].
  intros _. apply pool_ok_init.
Qed.

Lemma busy_pool_stop :
  stop [] [] [Finish (5, Job 0); Take 9] busy_pool = Some stopped_pool.
Proof. vm_compute. reflexivity. Qed.

(** C6 as stated fails: jobs 1 and 2 are in the queue when [stop] is
    called; when it returns the only job that was handled is job 0, the
    queue is empty and no worker is left. *)
Lemma stop_drops_queued_jobs :
  ∃ p p',
    run_history busy_history (__init__ 1 false) = Some p ∧
    running p = true ∧
    ((1, Job 1) ∈ work_queue p) ∧
    stop [] [] [Finish (5, Job 0); Take 9] p = Some p' ∧
    (Job 1 ∉ handled p') ∧
    work_queue p' = [] ∧ current_jobs p' = [] ∧ workers p' = 0%nat.
Proof.
  exists busy_pool, stopped_pool.
  split_and!; [apply busy_pool_reached|done| |apply busy_pool_stop| |done..].
  - simpl. left.
  - simpl. by intros [=]%list_elem_of_singleton.
Qed.

(** [stop] on the busy pool. *)
Lemma stop_discards_queue_witness :
  (∃ aj p', stop [] [] aj busy_pool = Some p') ∧
  running stopped_pool = false ∧
  work_queue stopped_pool = [] ∧ current_jobs stopped_pool = [] ∧
  workers stopped_pool = 0%nat ∧
  accounted stopped_pool ≡ₚ accounted busy_pool ∧
  discarded stopped_pool ≡ₚ discarded busy_pool ++ (work_queue busy_pool).*2 ∧
  handled stopped_pool ≡ₚ handled busy_pool ++ (current_jobs busy_pool).*2 ∧
  add_job 1 (Job 7) [] [] stopped_pool = RuntimeError "ThreadPool not running".
Proof.
  destruct (stop_discards_queue busy_pool busy_pool_ok eq_refl) as [Hret Hafter].
  destruct (Hafter [] [] [Finish (5, Job 0); Take 9] stopped_pool busy_pool_stop)
    as (Hrun & Hq & Hc & Hw & Hacc & Hquiet & Hadd & _).
  destruct (Hquiet eq_refl) as [Hd Hh].
  split_and!; done.
Defined.

(** A queue of two behind a limit of one makes the callback fire. *)
Lemma busy_callback_watermark_witness :
  ∃ p', add_job 1 (Job 3) [] []
          (set_queue [(1, Job 1)] 2%nat (__init__ 1 true)) = Ok p' ∧
        busy_warning_limit p' = 2 ∧ length (busy_calls p') = 1%nat.
Proof.
  destruct (proj1 (proj2 busy_callback_watermark) 1 (Job 3) [] []
              (set_queue [(1, Job 1)] 2%nat (__init__ 1 true)) eq_refl)
    as (p' & Hadd & [(_ & _ & Hlim & c & Hcalls)|(Hno & _)]).
  - exists p'. split_and!; [done|done|]. by rewrite Hcalls.
  - exfalso. apply Hno. split; [|done]. vm_compute. reflexivity.
Defined.

(** *** Accounting over whole histories *)

Lemma clearing_same_work W p p' :
  work_queue p' = work_queue p → unfinished_tasks p' = unfinished_tasks p →
  current_jobs p' = current_jobs p → workers p' = workers p →
  clearing W p → clearing W p'.
Proof.
  intros Hq Hu Hc Hw ([Hu' Hb Hcur] & Hnq & Hw').
  split_and!; [split|..]; rewrite ?Hq, ?Hu, ?Hc, ?Hw; done.
Qed.

Lemma accounted_same_work p p' :
  work_queue p' = work_queue p → current_jobs p' = current_jobs p →
  handled p' = handled p → discarded p' = discarded p →
  accounted p' = accounted p.
Proof. unfold accounted. by intros -> -> -> ->. Qed.

(** A job the client hands to a running pool is taken in, once. *)
Lemma add_job_accounted W priority n i1 i2 p :
  clearing W p → running p = true →
  ∃ p', add_job priority (Job n) i1 i2 p = Ok p' ∧
        clearing W p' ∧ running p' = true ∧
        worker_count p' = worker_count p ∧
        accounted p' ≡ₚ Job n :: accounted p.
Proof.
  intros Hc Hrun.
  destruct (add_job_running priority (Job n) i1 i2 p Hrun)
    as (p' & Hadd & Hrun' & Hwc' & _).
  exists p'. split_and!; [done| |done|done|]; revert Hadd;
    unfold add_job; rewrite Hrun; cbn [negb];
    set (p1 := put (priority, Job n) p).
  all: assert (clearing W p1) as Hc1
      by (destruct Hc as ([Hu Hb Hcur] & Hnq & Hw);
          split_and!; [split|..]; simpl; try done;
          [rewrite Hu, length_app; simpl; lia
          |apply Forall_app; split; [done|by apply Forall_singleton]]).
  all: assert (accounted p1 ≡ₚ Job n :: accounted p) as Hacc1
      by (unfold accounted, p1, put;
          cbn [work_queue current_jobs handled discarded set_queue];
          rewrite fmap_app, <- app_assoc;
          rewrite !(filter_app _ (work_queue p).*2);
          cbn [snd fmap list_fmap app];
          rewrite (filter_cons_True is_job (Job n)) by done;
          symmetry; apply Permutation_middle).
  all: destruct (run_workers_clearing W i1 p1 Hc1) as [Hc2 Hacc2];
    set (p2 := run_workers i1 p1) in *;
    destruct ((busy_warning_limit p2 <? qsize p2) && has_busy_callback p2).
  - set (p3 := {| work_queue := work_queue p2 |}).
    assert (clearing W p3) as Hc3 by (by apply (clearing_same_work W p2)).
    destruct (run_workers_clearing W i2 p3 Hc3) as [Hc4 _].
    intros [= <-]. by apply (clearing_same_work W (run_workers i2 p3)).
  - by intros [= <-].
  - set (p3 := {| work_queue := work_queue p2 |}).
    assert (clearing W p3) as Hc3 by (by apply (clearing_same_work W p2)).
    destruct (run_workers_clearing W i2 p3 Hc3) as [_ Hacc4].
    intros [= <-].
    rewrite (accounted_same_work (run_workers i2 p3)) by done.
    rewrite Hacc4. rewrite (accounted_same_work p2 p3) by done.
    by rewrite Hacc2.
  - intros [= <-]. by rewrite Hacc2.
Qed.

(** A stopped pool whose workers are gone does not change any more. *)
Definition at_rest (p : pool) : Prop :=
  running p = false ∧ work_queue p = [] ∧ current_jobs p = [] ∧
  unfinished_tasks p = 0%nat ∧ workers p = 0%nat.

Lemma at_rest_event e p : at_rest p → run_event e p = Some p.
Proof.
  intros (Hrun & Hq & Hc & Hu & Hw).
  destruct e as [priority n i1 i2|acts|sc sq aj]; simpl.
  - by rewrite add_job_stopped.
  - f_equal. unfold run_workers. induction acts as [|a acts IH]; [done|].
    simpl. replace (worker_step a p) with p; [done|].
    destruct a as [now|jl]; simpl.
    + rewrite Hc, Hw. done.
    + rewrite Hc. rewrite decide_False; [done|apply not_elem_of_nil].
  - by apply stop_not_running.
Qed.

(** The jobs the pool accepted during a history: those handed to
    [add_job] while it was running. *)
Fixpoint accepted (h : list event) (p : pool) : list job :=
  match h with
  | [] => []
  | e :: h' =>
      match run_event e p with
      | Some p' =>
          match e with
          | AddJob _ n _ _ => if running p then [Job n] else []
          | _ => []
          end ++ accepted h' p'
      | None => []
      end
  end.

Lemma add_quit_tasks_worker_count n : ∀ sched p p',
  running p = true → add_quit_tasks n sched p = Ok p' →
  worker_count p' = worker_count p.
Proof.
  induction n as [|n IH]; intros sched p p' Hrun; simpl.
  - by intros [= <-].
  - destruct (hd ([], []) sched) as [i1 i2].
    destruct (add_job_running 1000 QuitTask i1 i2 p Hrun)
      as (p1 & -> & Hrun1 & Hwc1 & _).
    intros Hrest%IH; congruence.
Qed.

(** What every history keeps, from a pool that runs or rests. *)
Definition history_inv (wc : Z) (p : pool) : Prop :=
  worker_count p = wc ∧
  (running p = true → clearing (Z.to_nat wc) p) ∧
  (running p = false → at_rest p).

Lemma run_event_history_inv wc e p p' :
  history_inv wc p → run_event e p = Some p' →
  history_inv wc p' ∧
  accounted p' ≡ₚ
    match e with
    | AddJob _ n _ _ => if running p then [Job n] else []
    | _ => []
    end ++ accounted p.
Proof.
  intros (Hwc & Hon & Hoff) Hev. destruct (running p) eqn:Hrun.
  - specialize (Hon eq_refl).
    destruct e as [priority n i1 i2|acts|sc sq aj]; simpl in Hev.
    + destruct (add_job_accounted _ priority n i1 i2 p Hon Hrun)
        as (p1 & Hadd & Hc1 & Hrun1 & Hwc1 & Hacc1).
      rewrite Hadd in Hev. injection Hev as <-.
      split; [|done]. split_and!; [congruence|done|congruence].
    + injection Hev as <-.
      destruct (run_workers_clearing _ acts p Hon) as [Hc1 Hacc1].
      destruct (run_workers_settings acts p) as (Hwc1 & _ & _ & Hrun1 & _).
      split; [|done]. split_and!; [congruence|done|congruence].
    + assert (pool_ok p) as Hok by (apply pool_ok_clearing; by rewrite Hwc).
      destruct (stop_spec _ _ _ _ _ Hok Hrun Hev) as (Hoff' & Hq & Hc & Hw & Hacc & _).
      destruct (stop_running _ _ _ _ _ Hrun Hev) as (p1 & p2 & Hclear & Hquit & Hjoin).
      destruct (clear_queue_settings _ _ _ _ Hclear) as (Hwc1 & _ & _ & Hrun1 & _).
      destruct Hok as (Hinv & Hwk & Hnq).
      destruct (clear_queue_spec (workers p) _ _ _ _ ltac:(by split_and!) Hclear)
        as ((Hinv1 & Hnq1 & Hw1) & Hempty1 & _).
      assert (quitting (Z.to_nat (worker_count p1)) p1) as Hq1.
      { split_and!; [done|by rewrite Hempty1; apply Forall_nil_2|].
        rewrite Hempty1, Hw1, Hwc1. simpl. lia. }
      destruct (add_quit_tasks_spec _ sq p1 ltac:(congruence) Hq1)
        as (p2' & Hquit' & _ & Hq2 & _).
      rewrite Hquit in Hquit'. injection Hquit' as <-.
      assert (worker_count p2 = worker_count p1) as Hwc2
        by (eapply add_quit_tasks_worker_count; [|exact Hquit]; congruence).
      assert (quitting 0 (set_running false p2)) as Hq3
        by (by apply (quitting_same_work 0 p2)).
      destruct (block_till_done_spec 0 aj _ _ Hq3 Hjoin) as (([Hu' _ _] & _) & Hu0 & _).
      destruct (block_till_done_settings _ _ _ Hjoin) as (Hwc' & _).
      split; [|done]. split_and!.
      * simpl in Hwc'. congruence.
      * congruence.
      * intros _. by split_and!.
  - specialize (Hoff eq_refl). rewrite (at_rest_event e p Hoff) in Hev.
    injection Hev as <-. split; [|by destruct e].
    unfold history_inv. split_and!; [done|intros ?; congruence|done].
Qed.

Lemma run_history_inv wc h : ∀ p p',
  history_inv wc p → run_history h p = Some p' →
  history_inv wc p' ∧ accounted p' ≡ₚ accepted h p ++ accounted p.
Proof.
  induction h as [|e h IH]; intros p p' Hinv; simpl.
  - intros [= <-]. done.
  - destruct (run_event e p) as [p1|] eqn:Hev; [|done]. simpl.
    destruct (run_event_history_inv wc e p p1 Hinv Hev) as [Hinv1 Hacc1].
    intros Hrest. destruct (IH p1 p' Hinv1 Hrest) as [Hinv' Hacc'].
    split; [done|]. rewrite Hacc', Hacc1.
    rewrite !app_assoc. apply Permutation_app_tail, Permutation_app_comm.
Qed.

Lemma history_inv_init wc cb : history_inv wc (__init__ wc cb).
Proof.
  split_and!; [done| |done]. intros _.
  apply (pool_ok_clearing (__init__ wc cb)), pool_ok_init.
Qed.



Definition is_stop (e : event) : Prop :=
  match e with
  | Stop _ _ _ => True
  | _ => False
  end.

Lemma run_history_discarded h : ∀ p p',
  Forall (λ e, ¬ is_stop e) h → run_history h p = Some p' →
  discarded p' = discarded p.
Proof.
  induction h as [|e h IH]; intros p p' Hns; simpl.
  - by intros [= <-].
  - apply Forall_cons in Hns as [He Hns].
    destruct (run_event e p) as [p1|] eqn:Hev; [|done]. simpl.
    intros Hrest. rewrite (IH p1 p' Hns Hrest).
    destruct e as [priority n i1 i2|acts|sc sq aj]; simpl in Hev.
    + destruct (running p) eqn:Hrun.
      * destruct (add_job_running priority (Job n) i1 i2 p Hrun)
          as (p2 & Hadd & _ & _ & Hd & _).
        rewrite Hadd in Hev. by injection Hev as <-.
      * rewrite add_job_stopped in Hev by done. by injection Hev as <-.
    + injection Hev as <-.
      by destruct (run_workers_settings acts p) as (_ & _ & _ & _ & Hd & _).
    + by destruct He.
Qed.

(** X6. The pool neither loses nor invents jobs: after any history, the
    jobs that [add_job] accepted are, each as often as it was accepted,
    the jobs that are queued, being handled, handled, or discarded; and
    only [stop] discards. *)
Theorem accepted_jobs_accounted wc cb h p :
  run_history h (__init__ wc cb) = Some p →
  filter is_job ((work_queue p).*2 ++ (current_jobs p).*2 ++
                 handled p ++ discarded p)
    ≡ₚ accepted h (__init__ wc cb) ∧
  (Forall (λ e, ¬ is_stop e) h → discarded p = []).
Proof.
  intros Hrun. split.
  - destruct (run_history_inv wc h _ _ (history_inv_init wc cb) Hrun) as [_ Hacc].
    unfold accounted in Hacc. simpl in Hacc. by rewrite app_nil_r in Hacc.
  - intros Hns. by rewrite (run_history_discarded h _ _ Hns Hrun).
Qed.

Lemma accepted_jobs_accounted_witness :
  filter is_job ((work_queue busy_pool).*2 ++ (current_jobs busy_pool).*2 ++
                 handled busy_pool ++ discarded busy_pool)
    ≡ₚ [Job 0; Job 1; Job 2].
Proof.
  exact (proj1 (accepted_jobs_accounted 1 false busy_history busy_pool
                  busy_pool_reached)).
Defined.

Lemma queue_get_min q : ∀ x r,
  queue_get q = Some (x, r) → ∀ y, y ∈ q → x.1 ≤ y.1.
Proof.
  induction q as [|z q IH]; intros x r; simpl; [done|].
  destruct (queue_get q) as [[m r']|] eqn:Hq.
  - destruct (Z.leb_spec z.1 m.1) as [Hle|Hgt]; intros [= <- <-] y Hy;
      apply elem_of_cons in Hy as [->|Hy]; try lia.
    + pose proof (IH m r' eq_refl y Hy). lia.
    + by apply (IH m r' eq_refl).
  - intros [= <- <-] y Hy. apply queue_get_None in Hq. subst q.
    apply list_elem_of_singleton in Hy as ->. lia.
Qed.

(** X7. A job a worker starts was waiting in the queue under a priority
    value that no waiting item undercuts ([PriorityQueueItem.__lt__]
    orders by priority). *)
Theorem worker_starts_most_urgent now p j :
  (now, j) ∈ current_jobs (worker_step (Take now) p) →
  (now, j) ∉ current_jobs p →
  ∃ priority, (priority, j) ∈ work_queue p ∧
              ∀ y, y ∈ work_queue p → priority ≤ y.1.
Proof.
  simpl. case_decide as Hidle; [|done].
  destruct (queue_get (work_queue p)) as [[[pr [n|]] q']|] eqn:Hget; try done.
  simpl. intros [Hin|Hin]%elem_of_app Hnot; [done|].
  apply list_elem_of_singleton in Hin. injection Hin as ->.
  exists pr. split.
  - rewrite (queue_get_perm _ _ _ Hget). left.
  - intros y Hy. apply (queue_get_min _ _ _ Hget y Hy).
Qed.

Lemma worker_starts_most_urgent_witness :
  ∃ priority,
    (priority, Job 7) ∈ [(5, Job 1); (2, Job 7); (9, Job 3)] ∧
    ∀ y, y ∈ [(5, Job 1); (2, Job 7); (9, Job 3)] → priority ≤ y.1.
Proof.
  apply (worker_starts_most_urgent 4
           (set_queue [(5, Job 1); (2, Job 7); (9, Job 3)] 3%nat (__init__ 1 false))
           (Job 7)).
  - vm_compute. left.
  - vm_compute. apply not_elem_of_nil.
Defined.

(** *** Waiting for the queue *)







Example busy_pool_drained :
  (λ p, (handled p, discarded p, workers p)) <$>
    block_till_done
      [Finish (5, Job 0); Take 6; Finish (6, Job 1); Take 7; Finish (7, Job 2)]
      busy_pool =
  Some ([Job 0; Job 1; Job 2], [], 1%nat).
Proof. vm_compute. reflexivity. Qed.


(** *** After [stop] *)

Lemma run_workers_idle acts p :
  work_queue p = [] → current_jobs p = [] → run_workers acts p = p.
Proof.
  intros Hq Hc. induction acts as [|a acts IH]; [done|].
  unfold run_workers in *. cbn [foldl].
  assert (worker_step a p = p) as ->; [|done].
  destruct a as [now|jl]; simpl.
  - case_decide; [|done]. by rewrite Hq.
  - rewrite Hc. by rewrite decide_False by apply not_elem_of_nil.
Qed.

(** X28. A pool that [stop] has returned from is at its end: whatever is
    tried on it afterwards ([add_job], which raises, another [stop], any
    step a worker thread could take), it stays exactly as [stop] left it, and
    no job is handled any more. *)
Theorem stopped_pool_is_final p sched_clear sched_quit acts_join p' h :
  pool_ok p → running p = true →
  stop sched_clear sched_quit acts_join p = Some p' →
  run_history h p' = Some p'.
Proof.
  intros Hok Hrun Hstop.
  destruct (stop_spec _ _ _ _ _ Hok Hrun Hstop) as (Hoff & Hq & Hc & _).
  induction h as [|e h IH]; [done|].
  cbn [run_history].
  assert (run_event e p' = Some p') as ->; [|done].
  destruct e as [priority n i1 i2|acts|sc sq aj]; simpl.
  - by rewrite add_job_stopped.
  - by rewrite run_workers_idle.
  - by apply stop_not_running.
Qed.

Lemma stopped_pool_is_final_witness :
  run_history [AddJob 1 7 [] [Take 3]; Work [Take 4; Finish (5, Job 0)]; Stop [] [] []]
    stopped_pool = Some stopped_pool.
Proof.
  exact (stopped_pool_is_final busy_pool [] [] [Finish (5, Job 0); Take 9] stopped_pool
           [AddJob 1 7 [] [Take 3]; Work [Take 4; Finish (5, Job 0)]; Stop [] [] []]
           busy_pool_ok eq_refl busy_pool_stop).
Defined.

End ThreadPool.

(* ===================================================================== *)
(** ** homeassistant/components/scheduler/time.py                         *)
(* ===================================================================== *)
Module TimeEvent.

(** A naive [datetime]: the date as its proleptic Gregorian ordinal
    ([date.toordinal()]), and the time of day by its attributes. *)
Record datetime : Type := {
  ordinal : Z;
  hour : Z;
  minute : Z;
  second : Z;
  microsecond : Z
}.

(** [date.max.toordinal()], the 31st of December 9999. *)
Definition MAXORDINAL : Z := 3652059.

Definition valid (dt : datetime) : Prop :=
  1 ≤ ordinal dt ≤ MAXORDINAL ∧ 0 ≤ hour dt < 24 ∧ 0 ≤ minute dt < 60 ∧
  0 ≤ second dt < 60 ∧ 0 ≤ microsecond dt < 1000000.

Inductive exn : Type := ValueError | OverflowError.

(** What running a piece of the method gives: a value, an exception, or
    no answer within the fuel allotted to the loop. *)
Inductive outcome (A : Type) : Type :=
| Done (a : A)
| Raises (e : exn)
| OutOfFuel.
Arguments Done {A} a.
Arguments Raises {A} e.
Arguments OutOfFuel {A}.

(** [dt.replace(hour=, minute=, second=, microsecond=)]: the date stays;
    a field out of range raises ValueError. *)
Definition replace (dt : datetime) (h m s us : Z) : outcome datetime :=
  if decide (0 ≤ h < 24 ∧ 0 ≤ m < 60 ∧ 0 ≤ s < 60 ∧ 0 ≤ us < 1000000) then
    Done {| ordinal := ordinal dt; hour := h; minute := m; second := s;
            microsecond := us |}
  else Raises ValueError.

(** [dt + timedelta(days=n)]: a date beyond [date.max] raises
    OverflowError. *)
Definition add_days (dt : datetime) (n : Z) : outcome datetime :=
  if decide (1 ≤ ordinal dt + n ≤ MAXORDINAL) then
    Done {| ordinal := ordinal dt + n; hour := hour dt; minute := minute dt;
            second := second dt; microsecond := microsecond dt |}
  else Raises OverflowError.

(** [dt.weekday()]: Monday is 0. *)
Definition weekday (dt : datetime) : Z := (ordinal dt + 6) `mod` 7.

(** [a < b] compares date and time attribute by attribute. *)
Definition dt_compare (a b : datetime) : comparison :=
  match ordinal a ?= ordinal b with
  | Eq =>
      match hour a ?= hour b with
      | Eq =>
          match minute a ?= minute b with
          | Eq =>
              match second a ?= second b with
              | Eq => microsecond a ?= microsecond b
              | c => c
              end
          | c => c
          end
      | c => c
      end
  | c => c
  end.

Definition dt_ltb (a b : datetime) : bool :=
  match dt_compare a b with
  | Lt => true
  | _ => false
  end.

(** The listener: [_hour], [_minute], [_second], the service it calls, and
    [self._schedule.days]. *)
Record TimeEventListener : Type := {
  service : string;
  _hour : Z;
  _minute : Z;
  _second : Z;
  days : list Z
}.

(** [create]: [parts] is [event_listener_data['time'].split(':')], [int]
    the conversion of one part.  Unpacking anything but three values
    raises ValueError, as does a part that is no integer. *)
Definition create (int : string → option Z) (schedule_days : list Z)
  (service : string) (parts : list string) : outcome TimeEventListener :=
  match parts with
  | [a; b; c] =>
      match int a, int b, int c with
      | Some h, Some m, Some s =>
          Done {| service := service; _hour := h; _minute := m; _second := s;
                  days := schedule_days |}
      | _, _, _ => Raises ValueError
      end
  | _ => Raises ValueError
  end.

(** Modelled from the spec: [hass.track_point_in_time(callback, when)] of
    the missing homeassistant/__init__.py registers a callback that fires
    once at [when] (section 4.3).  The registrations are kept with the
    service the callback will call. *)
Record HomeAssistant : Type := {
  point_in_time_listeners : list (string * datetime)
}.

Definition track_point_in_time (srv : string) (when : datetime)
  (hass : HomeAssistant) : HomeAssistant :=
  {| point_in_time_listeners := point_in_time_listeners hass ++ [(srv, when)] |}.

Section schedule.

(** [clock k] is what the [k]-th call of [datetime.now()] returns. *)
Variable clock : nat → datetime.

(** The [while] loop of [schedule]; [tick] counts the clock readings made
    so far.  [or] looks at the weekday only when the time is not past. *)
Fixpoint next_day_loop (fuel : nat) (self : TimeEventListener) (tick : nat)
  (next_time : datetime) : outcome (datetime * nat) :=
  match fuel with
  | O => OutOfFuel
  | S fuel' =>
      if dt_ltb next_time (clock tick)
         || negb (bool_decide (weekday next_time ∈ days self)) then
        match add_days next_time 1 with
        | Done next_time' => next_day_loop fuel' self (S tick) next_time'
        | Raises e => Raises e
        | OutOfFuel => OutOfFuel
        end
      else Done (next_time, S tick)
  end.

Definition schedule (fuel : nat) (self : TimeEventListener)
  (hass : HomeAssistant) (tick : nat) : outcome (HomeAssistant * nat) :=
  match replace (clock tick) (_hour self) (_minute self) (_second self) 0 with
  | Done next_time =>
      match next_day_loop fuel self (S tick) next_time with
      | Done (next_time', tick') =>
          Done (track_point_in_time (service self) next_time' hass, tick')
      | Raises e => Raises e
      | OutOfFuel => OutOfFuel
      end
  | Raises e => Raises e
  | OutOfFuel => OutOfFuel
  end.


(** *** Order and days *)

(** Microseconds since the start of ordinal 0. *)
Definition to_micro (dt : datetime) : Z :=
  (((ordinal dt * 24 + hour dt) * 60 + minute dt) * 60 + second dt) * 1000000
  + microsecond dt.

Definition DAY : Z := 86400000000.



(** The same time of day, [j] days later. *)
Definition shift (dt : datetime) (j : Z) : datetime :=
  {| ordinal := ordinal dt + j; hour := hour dt; minute := minute dt;
     second := second dt; microsecond := microsecond dt |}.




(** The test of the loop on the candidate [j] days after [c], made at
    reading [t + j]. *)
Definition test (self : TimeEventListener) (c : datetime) (t j : nat) : bool :=
  dt_ltb (shift c (Z.of_nat j)) (clock (t + j))
  || negb (bool_decide (weekday (shift c (Z.of_nat j)) ∈ days self)).





Lemma shift_0 dt : shift dt 0 = dt.
Proof. destruct dt. unfold shift. simpl. f_equal. lia. Qed.




(** *** Whatever the clock does *)

Lemma shift_shift dt i j : shift (shift dt i) j = shift dt (i + j).
Proof. unfold shift. simpl. f_equal. lia. Qed.

Lemma add_days_Done dt dt' :
  add_days dt 1 = Done dt' → dt' = shift dt 1 ∧ ordinal dt + 1 ≤ MAXORDINAL.
Proof.
  unfold add_days. case_decide as Hb; [|done]. intros [= <-]. split; [done|lia].
Qed.

Lemma next_day_loop_sound self : ∀ fuel tick nt nt' tick',
  next_day_loop fuel self tick nt = Done (nt', tick') →
  ∃ n : nat,
    nt' = shift nt (Z.of_nat n) ∧ tick' = S (tick + n) ∧
    dt_ltb nt' (clock (tick + n)) = false ∧ weekday nt' ∈ days self ∧
    (∀ i, (i < n)%nat → test self nt tick i = true) ∧
    (∀ fuel', (fuel ≤ fuel')%nat →
       next_day_loop fuel' self tick nt = Done (nt', tick')).
Proof.
  induction fuel as [|fuel IH]; intros tick nt nt' tick' Hrun; [done|].
  simpl in Hrun.
  destruct (dt_ltb nt (clock tick)
            || negb (bool_decide (weekday nt ∈ days self))) eqn:Htest.
  - destruct (add_days nt 1) as [nt1| |] eqn:Hadd; [|done|done].
    destruct (add_days_Done _ _ Hadd) as [-> _].
    destruct (IH _ _ _ _ Hrun) as (n & -> & -> & Hnot & Hday & Hpassed & Hfuel).
    exists (S n). rewrite shift_shift in *.
    replace (1 + Z.of_nat n) with (Z.of_nat (S n)) in * by lia.
    replace (S tick + n)%nat with (tick + S n)%nat in * by lia.
    split_and!; [done|done|done|done| |].
    + intros [|i] Hi.
      * unfold test. by rewrite shift_0, Nat.add_0_r.
      * pose proof (Hpassed i ltac:(lia)) as Hp. unfold test in *.
        rewrite shift_shift in Hp.
        replace (1 + Z.of_nat i) with (Z.of_nat (S i)) in Hp by lia.
        by replace (S tick + i)%nat with (tick + S i)%nat in Hp by lia.
    + intros [|fuel'] Hle; [lia|]. simpl. rewrite Htest, Hadd.
      apply Hfuel. lia.
  - injection Hrun as <- <-. exists 0%nat.
    apply orb_false_iff in Htest as Htest'. destruct Htest' as [Hnot Hday].
    apply negb_false_iff, bool_decide_eq_true in Hday.
    rewrite shift_0, Nat.add_0_r.
    split_and!; [done|done|done|done|lia|].
    intros [|fuel'] Hle; [lia|]. simpl. by rewrite Htest.
Qed.

(** X12. Whatever the clock shows, when [schedule] returns it has added
    exactly one firing after those already registered: at the configured
    time of day, which is a time of day, [n] days after the date first read,
    on one of the schedule's days and not before the last clock reading;
    each of the [n] days passed over was past when looked at or not on the
    schedule; the clock was read [n + 2] times; and more fuel gives the same
    result. *)
Theorem schedule_registers_checked_time fuel self hass tick hass' tick' :
  schedule fuel self hass tick = Done (hass', tick') →
  ∃ (next_time : datetime) (n : nat),
    point_in_time_listeners hass' =
      point_in_time_listeners hass ++ [(service self, next_time)] ∧
    ordinal next_time = ordinal (clock tick) + Z.of_nat n ∧
    hour next_time = _hour self ∧ minute next_time = _minute self ∧
    second next_time = _second self ∧ microsecond next_time = 0 ∧
    (0 ≤ _hour self < 24 ∧ 0 ≤ _minute self < 60 ∧ 0 ≤ _second self < 60) ∧
    weekday next_time ∈ days self ∧
    tick' = (tick + n + 2)%nat ∧
    dt_ltb next_time (clock (tick + n + 1)) = false ∧
    (∀ i, (i < n)%nat →
       dt_ltb (shift next_time (Z.of_nat i - Z.of_nat n)) (clock (tick + i + 1)) = true ∨
       weekday (shift next_time (Z.of_nat i - Z.of_nat n)) ∉ days self) ∧
    (∀ fuel', (fuel ≤ fuel')%nat →
       schedule fuel' self hass tick = Done (hass', tick')).
Proof.
  unfold schedule, replace. intros Hrun.
  case_decide as Htime; [|done].
  set (c0 := {| ordinal := ordinal (clock tick); hour := _hour self;
                minute := _minute self; second := _second self;
                microsecond := 0 |}) in *.
  destruct (next_day_loop fuel self (S tick) c0) as [[nt t']| |] eqn:Hloop;
    [|done|done].
  injection Hrun as <- <-.
  destruct (next_day_loop_sound _ _ _ _ _ _ Hloop)
    as (n & -> & -> & Hnot & Hday & Hpassed & Hfuel).
  exists (shift c0 (Z.of_nat n)), n.
  replace (tick + n + 1)%nat with (S tick + n)%nat by lia.
  split_and!; [done|done|done|done|done|done|lia|lia|lia|lia|lia|lia|done|lia|done| |].
  - intros i Hi. pose proof (Hpassed i Hi) as Hp. unfold test in Hp.
    rewrite shift_shift.
    replace (Z.of_nat n + (Z.of_nat i - Z.of_nat n)) with (Z.of_nat i) by lia.
    replace (tick + i + 1)%nat with (S tick + i)%nat by lia.
    apply orb_true_iff in Hp as [Hp|Hp]; [by left|right].
    by apply negb_true_iff, bool_decide_eq_false in Hp.
  - intros fuel' Hle. by rewrite (Hfuel fuel' Hle).
Qed.

Lemma next_day_loop_no_day self : ∀ fuel tick nt,
  (∀ d, d ∈ days self → ¬ 0 ≤ d ≤ 6) →
  1 ≤ ordinal nt ≤ MAXORDINAL →
  next_day_loop fuel self tick nt =
  if decide (MAXORDINAL - ordinal nt < Z.of_nat fuel)
  then Raises OverflowError else OutOfFuel.
Proof.
  intros fuel tick nt Hdays. revert tick nt.
  induction fuel as [|fuel IH]; intros tick nt Hnt.
  - simpl. by rewrite decide_False by lia.
  - cbn [next_day_loop].
    rewrite (bool_decide_eq_false_2 (weekday nt ∈ days self)).
    2:{ intros Hin. apply (Hdays _ Hin). unfold weekday.
        pose proof (Z.mod_pos_bound (ordinal nt + 6) 7 ltac:(lia)). lia. }
    rewrite orb_true_r. unfold add_days. case_decide as Hb.
    + rewrite IH by (simpl; lia). simpl.
      case_decide; case_decide; (done || lia).
    + by rewrite decide_True by lia.
Qed.

(** X13. A schedule none of whose days is a weekday number (0 to 6), an
    empty one included, is never registered: with a time of day configured,
    [schedule] adds a day at every turn of its loop and raises OverflowError
    when it passes the last representable date; on less fuel than the days
    left it is still looping. *)
Theorem schedule_without_weekday_overflows self hass tick fuel :
  (∀ d, d ∈ days self → ¬ 0 ≤ d ≤ 6) →
  0 ≤ _hour self < 24 → 0 ≤ _minute self < 60 → 0 ≤ _second self < 60 →
  1 ≤ ordinal (clock tick) ≤ MAXORDINAL →
  schedule fuel self hass tick =
  if decide (MAXORDINAL - ordinal (clock tick) < Z.of_nat fuel)
  then Raises OverflowError else OutOfFuel.
Proof.
  intros Hdays Hh Hm Hs Hord. unfold schedule, replace.
  rewrite decide_True by lia.
  rewrite next_day_loop_no_day by done. simpl. by case_decide.
Qed.

Lemma next_day_loop_raises self : ∀ fuel tick nt e,
  next_day_loop fuel self tick nt = Raises e → e = OverflowError.
Proof.
  induction fuel as [|fuel IH]; intros tick nt e Hrun; [done|].
  simpl in Hrun.
  destruct (dt_ltb nt (clock tick)
            || negb (bool_decide (weekday nt ∈ days self))); [|done].
  unfold add_days in Hrun. case_decide as Hb.
  - by apply IH in Hrun.
  - by injection Hrun as <-.
Qed.

(** X14. [create] takes any three integers as the time without looking at
    their ranges.  The listener it returns, when scheduled, raises ValueError
    exactly when the three are not a time of day, on any fuel and before
    anything is registered; no other step of [schedule] raises ValueError. *)
Theorem unchecked_time_fails_at_schedule int schedule_days srv a b c h m s :
  int a = Some h → int b = Some m → int c = Some s →
  ∃ self, create int schedule_days srv [a; b; c] = Done self ∧
    _hour self = h ∧ _minute self = m ∧ _second self = s ∧
    days self = schedule_days ∧ service self = srv ∧
    ∀ fuel hass tick,
      schedule fuel self hass tick = Raises ValueError ↔
      ¬ (0 ≤ h < 24 ∧ 0 ≤ m < 60 ∧ 0 ≤ s < 60).
Proof.
  intros Ha Hb Hc. unfold create. rewrite Ha, Hb, Hc.
  eexists. split; [reflexivity|]. cbn [_hour _minute _second days service].
  split_and!; [done|done|done|done|done|].
  intros fuel hass tick. unfold schedule, replace.
  cbn [_hour _minute _second days service]. split.
  - case_decide as Htime; [|intros _ Hin; apply Htime; lia].
    destruct (next_day_loop fuel _ (S tick) _) as [[nt t']|e|] eqn:Hloop;
      [done| |done].
    apply next_day_loop_raises in Hloop as ->. done.
  - intros Hnot. rewrite decide_False; [done|]. intros Hin. apply Hnot. lia.
Qed.



End schedule.

(** *** A concrete call *)

(** 2014-01-01, a Wednesday, at 23:00:00.000005. *)
Definition new_year : datetime :=
  {| ordinal := 735234; hour := 23; minute := 0; second := 0; microsecond := 5 |}.

Definition fixed_clock (k : nat) : datetime := new_year.

Definition evening_listener : TimeEventListener :=
  {| service := "switch.turn_off"; _hour := 22; _minute := 0; _second := 0;
     days := [0; 4] |}.

Example evening_listener_created :
  create (λ s, if decide (s = "22") then Some 22
               else if decide (s = "00") then Some 0 else None)
         [0; 4] "switch.turn_off" ["22"; "00"; "00"] = Done evening_listener.
Proof. reflexivity. Qed.

(** 22:00 is past on Wednesday evening; the next of the schedule's days
    is Friday. *)
Example evening_listener_scheduled :
  schedule fixed_clock 9 evening_listener {| point_in_time_listeners := [] |} 0 =
  Done ({| point_in_time_listeners :=
             [("switch.turn_off",
               {| ordinal := 735236; hour := 22; minute := 0; second := 0;
                  microsecond := 0 |})] |}, 4%nat).
Proof. vm_compute. reflexivity. Qed.



(** The firing of [evening_listener_scheduled], read back. *)
Lemma schedule_registers_checked_time_witness :
  schedule fixed_clock 9 evening_listener {| point_in_time_listeners := [] |} 0 =
    Done ({| point_in_time_listeners :=
               [("switch.turn_off",
                 {| ordinal := 735236; hour := 22; minute := 0; second := 0;
                    microsecond := 0 |})] |}, 4%nat) ∧
  ∃ (next_time : datetime) (n : nat),
    [("switch.turn_off",
      {| ordinal := 735236; hour := 22; minute := 0; second := 0;
         microsecond := 0 |})] = [] ++ [("switch.turn_off", next_time)] ∧
    ordinal next_time = ordinal (fixed_clock 0) + Z.of_nat n ∧
    hour next_time = 22 ∧ minute next_time = 0 ∧
    second next_time = 0 ∧ microsecond next_time = 0 ∧
    (0 ≤ 22 < 24 ∧ 0 ≤ 0 < 60 ∧ 0 ≤ 0 < 60) ∧
    weekday next_time ∈ [0; 4] ∧
    4%nat = (0 + n + 2)%nat ∧
    dt_ltb next_time (fixed_clock (0 + n + 1)) = false ∧
    (∀ i, (i < n)%nat →
       dt_ltb (shift next_time (Z.of_nat i - Z.of_nat n)) (fixed_clock (0 + i + 1)) = true ∨
       weekday (shift next_time (Z.of_nat i - Z.of_nat n)) ∉ [0; 4]) ∧
    (∀ fuel', (9 ≤ fuel')%nat →
       schedule fixed_clock fuel' evening_listener {| point_in_time_listeners := [] |} 0 =
       Done ({| point_in_time_listeners :=
                  [("switch.turn_off",
                    {| ordinal := 735236; hour := 22; minute := 0; second := 0;
                       microsecond := 0 |})] |}, 4%nat)).
Proof.
  split; [vm_compute; reflexivity|].
  apply (schedule_registers_checked_time fixed_clock 9 evening_listener
           {| point_in_time_listeners := [] |} 0%nat
           {| point_in_time_listeners :=
                [("switch.turn_off",
                  {| ordinal := 735236; hour := 22; minute := 0; second := 0;
                     microsecond := 0 |})] |} 4%nat).
  vm_compute. reflexivity.
Defined.

(** A schedule written with Sunday as 7. *)
Definition sunday_as_seven : TimeEventListener :=
  {| service := "switch.turn_off"; _hour := 22; _minute := 0; _second := 0;
     days := [7] |}.

(** The 29th of December 9999. *)
Definition last_days (k : nat) : datetime :=
  {| ordinal := MAXORDINAL - 2; hour := 12; minute := 0; second := 0;
     microsecond := 0 |}.

Lemma schedule_without_weekday_overflows_witness :
  schedule last_days 9 sunday_as_seven {| point_in_time_listeners := [] |} 0 =
  if decide (MAXORDINAL - ordinal (last_days 0) < Z.of_nat 9)
  then Raises OverflowError else OutOfFuel.
Proof.
  apply (schedule_without_weekday_overflows last_days sunday_as_seven
           {| point_in_time_listeners := [] |} 0%nat 9%nat).
  - intros d Hd. apply list_elem_of_singleton in Hd. lia.
  - simpl. lia.
  - simpl. lia.
  - simpl. lia.
  - unfold last_days, MAXORDINAL. simpl. lia.
Defined.

Example sunday_as_seven_overflows :
  schedule last_days 9 sunday_as_seven {| point_in_time_listeners := [] |} 0 =
    Raises OverflowError ∧
  schedule fixed_clock 9 sunday_as_seven {| point_in_time_listeners := [] |} 0 =
    OutOfFuel.
Proof. split; vm_compute; reflexivity. Qed.

(** The conversion of the parts of a time, on the few it is used for
    here. *)
Definition demo_int (s : string) : option Z :=
  if decide (s = "00") then Some 0
  else if decide (s = "22") then Some 22
  else if decide (s = "25") then Some 25
  else None.

(** The time 25:00:00. *)
Lemma unchecked_time_fails_at_schedule_witness :
  ∃ self, create demo_int [0; 4] "switch.turn_off" ["25"; "00"; "00"] = Done self ∧
    _hour self = 25 ∧ _minute self = 0 ∧ _second self = 0 ∧
    days self = [0; 4] ∧ service self = "switch.turn_off" ∧
    ∀ fuel hass tick,
      schedule fixed_clock fuel self hass tick = Raises ValueError ↔
      ¬ (0 ≤ 25 < 24 ∧ 0 ≤ 0 < 60 ∧ 0 ≤ 0 < 60).
Proof.
  apply (unchecked_time_fails_at_schedule fixed_clock demo_int [0; 4]
           "switch.turn_off" "25" "00" "00" 25 0 0); reflexivity.
Defined.

End TimeEvent.

(* ===================================================================== *)
(** ** homeassistant/util.py : the string helpers                         *)
(* ===================================================================== *)
Module Util.

Local Open Scope nat_scope.

(** The characters of a string, in order. *)
Definition chars : string → list Ascii.ascii := String.list_ascii_of_string.

(** [sep.join(parts)]. *)
Fixpoint join (sep : string) (parts : list string) : string :=
  match parts with
  | [] => ""
  | [part] => part
  | part :: parts' => part +:+ sep +:+ join sep parts'
  end.

(** *** sanitize_filename, sanitize_path *)

(** [RE_SANITIZE_FILENAME.sub("", filename)] with the pattern
    [(~|\.\.|/|\\)]: at each place the alternatives are tried in turn, a
    match is dropped and the scan goes on behind it; a character where
    none matches is kept. *)
Fixpoint sanitize_filename (filename : string) : string :=
  match filename with
  | "" => ""
  | String c rest =>
      if decide (c = "~"%char) then sanitize_filename rest
      else if decide (c = "."%char) then
        match rest with
        | String "."%char rest' => sanitize_filename rest'
        | _ => String c (sanitize_filename rest)
        end
      else if decide (c = "/"%char) then sanitize_filename rest
      else if decide (c = "\"%char) then sanitize_filename rest
      else String c (sanitize_filename rest)
  end.

(** [RE_SANITIZE_PATH.sub("", path)] with the pattern [(~|\.(\.)+)]: a
    run of two or more dots is dropped whole; [in_dots] says that the scan
    is inside such a run. *)
Fixpoint sanitize_path_from (in_dots : bool) (path : string) : string :=
  match path with
  | "" => ""
  | String c rest =>
      if decide (c = "."%char) then
        if in_dots then sanitize_path_from true rest
        else match rest with
             | String "."%char _ => sanitize_path_from true rest
             | _ => String c (sanitize_path_from false rest)
             end
      else if decide (c = "~"%char) then sanitize_path_from false rest
      else String c (sanitize_path_from false rest)
  end.

Definition sanitize_path (path : string) : string := sanitize_path_from false path.

(** [".." in s]. *)
Fixpoint has_dotdot (s : string) : bool :=
  match s with
  | "" => false
  | String a rest =>
      match rest with
      | "" => false
      | String b _ =>
          (bool_decide (a = "."%char) && bool_decide (b = "."%char))
          || has_dotdot rest
      end
  end.

(** *** slugify *)

Definition between (lo hi c : Ascii.ascii) : bool :=
  (Ascii.nat_of_ascii lo <=? Ascii.nat_of_ascii c) && (Ascii.nat_of_ascii c <=? Ascii.nat_of_ascii hi).

(** The class [A-Za-z0-9_]. *)
Definition slug_char (c : Ascii.ascii) : bool :=
  between "A" "Z" c || between "a" "z" c || between "0" "9" c
  || bool_decide (c = "_"%char).

(** [text.replace(old, new)] for one-character strings. *)
Fixpoint replace (old new : Ascii.ascii) (text : string) : string :=
  match text with
  | "" => ""
  | String c rest => String (if decide (c = old) then new else c) (replace old new rest)
  end.

(** [RE_SLUGIFY.sub("", text)] with the pattern [[^A-Za-z0-9_]+]. *)
Fixpoint RE_SLUGIFY_sub (text : string) : string :=
  match text with
  | "" => ""
  | String c rest =>
      if slug_char c then String c (RE_SLUGIFY_sub rest) else RE_SLUGIFY_sub rest
  end.

Definition slugify (text : string) : string :=
  RE_SLUGIFY_sub (replace " " "_" text).

(** *** split_entity_id *)

(** [s.split(".", 1)]: what stands before the first dot, and what stands
    behind it when there is one. *)
Fixpoint split_once (s : string) : string * option string :=
  match s with
  | "" => ("", None)
  | String c rest =>
      if decide (c = "."%char) then ("", Some rest)
      else let '(before, behind) := split_once rest in (String c before, behind)
  end.

Definition split_entity_id (entity_id : string) : list string :=
  let '(before, behind) := split_once entity_id in
  before :: match behind with Some rest => [rest] | None => [] end.

(** *** ensure_unique_string *)

(** The [while] loop; [tries] and [string] are the local variables. *)
Fixpoint ensure_unique_loop (fuel : nat) (preferred_string : string)
  (current_strings : list string) (tries : nat) (string : String.string)
  : option String.string :=
  match fuel with
  | O => None
  | S fuel' =>
      if decide (string ∈ current_strings) then
        ensure_unique_loop fuel' preferred_string current_strings (S tries)
          (preferred_string +:+ "_" +:+ pretty (S tries))
      else Some string
  end.

Definition ensure_unique_string (fuel : nat) (preferred_string : string)
  (current_strings : list string) : option string :=
  ensure_unique_loop fuel preferred_string current_strings 1 preferred_string.

(** The string the loop looks at in its [tries]-th turn. *)
Definition candidate (preferred_string : string) (tries : nat) : string :=
  if decide (tries = 1) then preferred_string
  else preferred_string +:+ "_" +:+ pretty tries.


(** *** Characters kept and dropped *)

Lemma chars_cons c s : chars (String c s) = c :: chars s.
Proof. done. Qed.

Lemma chars_app s1 s2 : chars (s1 +:+ s2) = chars s1 ++ chars s2.
Proof. unfold chars. induction s1 as [|c s1 IH]; simpl; [done|]. by rewrite IH. Qed.

Lemma string_ind2 (P : string → Prop) :
  P "" → (∀ c, P (String c "")) →
  (∀ a b s, P s → P (String b s) → P (String a (String b s))) →
  ∀ s, P s.
Proof.
  intros H0 H1 H2.
  assert (∀ s, P s ∧ ∀ a, P (String a s)) as Hboth; [|intros s; apply Hboth].
  induction s as [|b s [IH1 IH2]]; [by split|].
  split; [apply IH2|]. intros a. by apply H2.
Qed.

Lemma has_dotdot_cons_ne c s : c ≠ "."%char → has_dotdot (String c s) = has_dotdot s.
Proof.
  intros Hc. simpl. destruct s as [|b s]; [done|].
  by rewrite (bool_decide_eq_false_2 (c = "."%char)).
Qed.

Lemma has_dotdot_cons2 c b s :
  b ≠ "."%char → has_dotdot (String c (String b s)) = has_dotdot (String b s).
Proof.
  intros Hb. cbn [has_dotdot].
  by rewrite (bool_decide_eq_false_2 (b = "."%char)), andb_false_r.
Qed.

(** One step of the scan of [sanitize_filename]. *)
Lemma sanitize_filename_step c rest :
  sanitize_filename (String c rest) =
  if decide (c = "~"%char ∨ c = "/"%char ∨ c = "\"%char) then sanitize_filename rest
  else match rest with
       | "" => String c ""
       | String b rest' =>
           if decide (c = "."%char ∧ b = "."%char) then sanitize_filename rest'
           else String c (sanitize_filename rest)
       end.
Proof.
  destruct rest as [|b rest'].
  - simpl. repeat case_decide; try done; intuition congruence.
  - destruct (decide (b = "."%char)) as [->|Hb].
    + cbn [sanitize_filename]. repeat case_decide; try done; intuition congruence.
    + rewrite (decide_False (P := c = "."%char ∧ b = "."%char)) by tauto.
      case_decide as Hc.
      * destruct Hc as [->| [->| ->]]; reflexivity.
      * change (sanitize_filename (String c (String b rest'))) with
          (if decide (c = "~"%char) then sanitize_filename (String b rest')
           else if decide (c = "."%char) then
             match String b rest' with
             | String "."%char rest'' => sanitize_filename rest''
             | _ => String c (sanitize_filename (String b rest'))
             end
           else if decide (c = "/"%char) then sanitize_filename (String b rest')
           else if decide (c = "\"%char) then sanitize_filename (String b rest')
           else String c (sanitize_filename (String b rest'))).
        repeat case_decide; try done; try intuition congruence.
        destruct b as [[] [] [] [] [] [] [] []]; done.
Qed.

Lemma sanitize_filename_keep c rest :
  c ≠ "~"%char → c ≠ "/"%char → c ≠ "\"%char → c ≠ "."%char →
  sanitize_filename (String c rest) = String c (sanitize_filename rest).
Proof.
  intros. rewrite sanitize_filename_step. rewrite decide_False by intuition congruence.
  destruct rest; [done|]. by rewrite decide_False by intuition congruence.
Qed.

Definition separator (c : Ascii.ascii) : Prop :=
  c = "~"%char ∨ c = "/"%char ∨ c = "\"%char.

Lemma sanitize_filename_sublist filename :
  sublist (chars (sanitize_filename filename)) (chars filename).
Proof.
  induction filename as [| |a b s IH1 IH2] using string_ind2.
  - done.
  - rewrite sanitize_filename_step. case_decide; [apply sublist_nil_l|done].
  - rewrite sanitize_filename_step. case_decide; [by apply sublist_cons|].
    case_decide.
    + rewrite !chars_cons. by do 2 apply sublist_cons.
    + rewrite !(chars_cons a). by apply sublist_skip.
Qed.

Lemma sanitize_filename_no_separator filename c :
  c ∈ chars (sanitize_filename filename) → ¬ separator c.
Proof.
  induction filename as [|a|a b s IH1 IH2] using string_ind2.
  - by intros ?%elem_of_nil.
  - rewrite sanitize_filename_step. case_decide; [by intros ?%elem_of_nil|].
    by intros ->%list_elem_of_singleton.
  - rewrite sanitize_filename_step. case_decide; [done|]. case_decide; [done|].
    rewrite chars_cons. by intros [->|?]%elem_of_cons; [|apply IH2].
Qed.

Lemma sanitize_filename_no_dotdot filename :
  (∀ c, c ∈ chars filename → ¬ separator c) →
  has_dotdot (sanitize_filename filename) = false.
Proof.
  induction filename as [|a|a b s IH1 IH2] using string_ind2; intros Hno.
  - done.
  - rewrite sanitize_filename_step. by case_decide.
  - assert (¬ separator a) as Ha by (apply Hno; left).
    assert (¬ separator b) as Hb by (apply Hno; right; left).
    assert (has_dotdot (sanitize_filename (String b s)) = false) as H2.
    { apply IH2. intros c Hc. apply Hno. by right. }
    rewrite sanitize_filename_step. rewrite decide_False by done.
    case_decide as Hdots.
    + apply IH1. intros c Hc. apply Hno. by do 2 right.
    + destruct (decide (a = "."%char)) as [->|Hadot].
      * assert (b ≠ "."%char) as Hbdot by tauto.
        unfold separator in Hb.
        rewrite sanitize_filename_keep in * by tauto.
        by rewrite has_dotdot_cons2.
      * by rewrite has_dotdot_cons_ne.
Qed.

(** X19. [sanitize_filename] only deletes: what it returns is what is left
    of the file name, in order, and holds no [~], [/] or backslash.  Of a
    name free of these three it leaves no two dots side by side; but
    deleting one of them can bring two dots together, as in [./.]. *)
Theorem sanitize_filename_removes filename :
  sublist (chars (sanitize_filename filename)) (chars filename) ∧
  (∀ c, c ∈ chars (sanitize_filename filename) →
        c ≠ "~"%char ∧ c ≠ "/"%char ∧ c ≠ "\"%char) ∧
  ((∀ c, c ∈ chars filename → c ≠ "~"%char ∧ c ≠ "/"%char ∧ c ≠ "\"%char) →
   has_dotdot (sanitize_filename filename) = false) ∧
  sanitize_filename "./." = "..".
Proof.
  split_and!.
  - apply sanitize_filename_sublist.
  - intros c Hc%sanitize_filename_no_separator. unfold separator in Hc. tauto.
  - intros Hno. apply sanitize_filename_no_dotdot.
    intros c Hc%Hno. unfold separator. tauto.
  - reflexivity.
Qed.

(** One step of the scan of [sanitize_path]. *)
Lemma sanitize_path_from_step in_dots c rest :
  sanitize_path_from in_dots (String c rest) =
  if decide (c = "."%char) then
    if in_dots then sanitize_path_from true rest
    else match rest with
         | "" => String c ""
         | String b _ =>
             if decide (b = "."%char) then sanitize_path_from true rest
             else String c (sanitize_path_from false rest)
         end
  else if decide (c = "~"%char) then sanitize_path_from false rest
  else String c (sanitize_path_from false rest).
Proof.
  destruct rest as [|b rest']; [done|].
  destruct (decide (b = "."%char)) as [->|Hb]; [done|].
  change (sanitize_path_from in_dots (String c (String b rest'))) with
    (if decide (c = "."%char) then
       if in_dots then sanitize_path_from true (String b rest')
       else match String b rest' with
            | String "."%char _ => sanitize_path_from true (String b rest')
            | _ => String c (sanitize_path_from false (String b rest'))
            end
     else if decide (c = "~"%char) then sanitize_path_from false (String b rest')
     else String c (sanitize_path_from false (String b rest'))).
  repeat case_decide; try done.
  destruct in_dots; [done|].
  destruct b as [[] [] [] [] [] [] [] []]; done.
Qed.

Lemma sanitize_path_from_sublist path : ∀ in_dots,
  sublist (chars (sanitize_path_from in_dots path)) (chars path).
Proof.
  induction path as [|c rest IH]; intros in_dots; [done|].
  rewrite sanitize_path_from_step, chars_cons.
  repeat case_decide; try destruct in_dots; try destruct rest;
    try (by apply sublist_cons); try (by apply sublist_skip).
  all: repeat case_decide; try (by apply sublist_cons); by apply sublist_skip.
Qed.

Lemma sanitize_path_from_no_tilde path c : ∀ in_dots,
  c ∈ chars (sanitize_path_from in_dots path) → c ≠ "~"%char.
Proof.
  induction path as [|a rest IH]; intros in_dots; [by intros ?%elem_of_nil|].
  rewrite sanitize_path_from_step.
  assert (∀ d, c ∈ chars (String a (sanitize_path_from d rest)) →
               a ≠ "~"%char → c ≠ "~"%char) as Hkeep.
  { intros d. rewrite chars_cons. intros [->|Hin]%elem_of_cons ?; [done|].
    by apply (IH d). }
  case_decide as Hdot.
  - destruct in_dots; [apply IH|]. destruct rest as [|b rest'].
    + subst a. by intros ->%list_elem_of_singleton.
    + case_decide; [apply IH|]. intros Hin. apply (Hkeep _ Hin). by subst a.
  - case_decide; [apply IH|]. intros Hin. by apply (Hkeep _ Hin).
Qed.

Lemma sanitize_path_from_no_dotdot path : ∀ in_dots,
  "~"%char ∉ chars path → has_dotdot (sanitize_path_from in_dots path) = false.
Proof.
  induction path as [|a rest IH]; intros in_dots Hno; [done|].
  rewrite chars_cons in Hno. apply not_elem_of_cons in Hno as [Ha Hrest].
  rewrite sanitize_path_from_step. case_decide as Hdot.
  - destruct in_dots; [by apply IH|]. destruct rest as [|b rest']; [done|].
    case_decide as Hb; [by apply IH|].
    pose proof (IH false Hrest) as H2.
    rewrite chars_cons in Hrest. apply not_elem_of_cons in Hrest as [Hb' _].
    rewrite sanitize_path_from_step in *.
    rewrite decide_False in * by done. rewrite decide_False in * by done.
    by rewrite has_dotdot_cons2.
  - rewrite decide_False by done. rewrite has_dotdot_cons_ne by done. by apply IH.
Qed.

(** X20. [sanitize_path] only deletes, and leaves no [~].  Of a path
    without [~] it leaves no two dots side by side, since every run of dots is
    dropped whole; deleting a [~] between two dots brings them together. *)
Theorem sanitize_path_removes path :
  sublist (chars (sanitize_path path)) (chars path) ∧
  ("~"%char ∉ chars (sanitize_path path)) ∧
  ("~"%char ∉ chars path → has_dotdot (sanitize_path path) = false) ∧
  sanitize_path ".~." = "..".
Proof.
  unfold sanitize_path. split_and!.
  - apply sanitize_path_from_sublist.
  - intros Hin. by apply sanitize_path_from_no_tilde in Hin.
  - apply sanitize_path_from_no_dotdot.
  - reflexivity.
Qed.


(** *** Slugs *)

Lemma slug_char_space : slug_char " " = false.
Proof. reflexivity. Qed.

Lemma RE_SLUGIFY_sub_chars text c :
  c ∈ chars (RE_SLUGIFY_sub text) ↔ c ∈ chars text ∧ slug_char c = true.
Proof.
  induction text as [|a rest IH]; simpl.
  - split; [by intros ?%elem_of_nil|by intros [?%elem_of_nil _]].
  - destruct (slug_char a) eqn:Ha; rewrite ?chars_cons, ?elem_of_cons, IH.
    + split; [intros [->|[? ?]]; auto|]. intros [[->|?] ?]; auto.
    + split; [intros [? ?]; auto|]. intros [[->|?] ?]; [congruence|auto].
Qed.

Lemma RE_SLUGIFY_sub_id text :
  (∀ c, c ∈ chars text → slug_char c = true) → RE_SLUGIFY_sub text = text.
Proof.
  induction text as [|a rest IH]; intros Hall; simpl; [done|].
  rewrite (Hall a) by (rewrite chars_cons; left).
  f_equal. apply IH. intros c Hc. apply Hall. rewrite chars_cons. by right.
Qed.

Lemma replace_id old new text : old ∉ chars text → replace old new text = text.
Proof.
  induction text as [|a rest IH]; [done|].
  rewrite chars_cons. intros [Ha Hrest]%not_elem_of_cons. simpl.
  rewrite decide_False by done. f_equal. by apply IH.
Qed.

Lemma replace_app old new s1 s2 :
  replace old new (s1 +:+ s2) = replace old new s1 +:+ replace old new s2.
Proof. induction s1 as [|a rest IH]; simpl; [done|]. by rewrite IH. Qed.

Lemma RE_SLUGIFY_sub_app s1 s2 :
  RE_SLUGIFY_sub (s1 +:+ s2) = RE_SLUGIFY_sub s1 +:+ RE_SLUGIFY_sub s2.
Proof.
  induction s1 as [|a rest IH]; simpl; [done|].
  destruct (slug_char a); simpl; by rewrite IH.
Qed.

Lemma slugify_cons c text :
  slugify (String c text) =
  if decide (c = " "%char) then String "_" (slugify text)
  else if slug_char c then String c (slugify text) else slugify text.
Proof. unfold slugify. simpl. by case_decide. Qed.

Lemma slugify_keeps text c :
  c ∈ chars text → slug_char c = true → c ∈ chars (slugify text).
Proof.
  induction text as [|a rest IH]; [by intros ?%elem_of_nil|].
  rewrite chars_cons, slugify_cons. intros [->|Hin]%elem_of_cons Hc.
  - case_decide as Hsp; [by rewrite Hsp, slug_char_space in Hc|].
    rewrite Hc, chars_cons. left.
  - case_decide; [rewrite chars_cons; right; by apply IH|].
    destruct (slug_char a); [rewrite chars_cons; right|]; by apply IH.
Qed.

Lemma slugify_space text :
  " "%char ∈ chars text → "_"%char ∈ chars (slugify text).
Proof.
  induction text as [|a rest IH]; [by intros ?%elem_of_nil|].
  rewrite chars_cons, slugify_cons. intros [<-|Hin]%elem_of_cons.
  - rewrite decide_True by done. rewrite chars_cons. left.
  - case_decide; [rewrite chars_cons; right; by apply IH|].
    destruct (slug_char a); [rewrite chars_cons; right|]; by apply IH.
Qed.

Lemma slugify_length text : String.length (slugify text) ≤ String.length text.
Proof.
  induction text as [|a rest IH]; [done|].
  rewrite slugify_cons. case_decide; [simpl; lia|].
  destruct (slug_char a); simpl; lia.
Qed.

(** X21. [slugify] returns only letters, digits and underscores; it keeps
    every such character of the text in place, turns each space into an
    underscore and drops the rest.  So it works piece by piece, leaves a slug
    as it is, and slugifying twice is slugifying once. *)
Theorem slugify_slug text :
  (∀ c, c ∈ chars (slugify text) → slug_char c = true) ∧
  (∀ c, c ∈ chars text → slug_char c = true → c ∈ chars (slugify text)) ∧
  (" "%char ∈ chars text → "_"%char ∈ chars (slugify text)) ∧
  (String.length (slugify text) ≤ String.length text) ∧
  (∀ text', slugify (text +:+ text') = slugify text +:+ slugify text') ∧
  ((∀ c, c ∈ chars text → slug_char c = true) → slugify text = text) ∧
  slugify (slugify text) = slugify text.
Proof.
  assert (∀ c, c ∈ chars (slugify text) → slug_char c = true) as Hslug.
  { intros c. unfold slugify. rewrite RE_SLUGIFY_sub_chars. tauto. }
  assert (∀ t, (∀ c, c ∈ chars t → slug_char c = true) → slugify t = t) as Hid.
  { intros t Hall. unfold slugify. rewrite replace_id; [by apply RE_SLUGIFY_sub_id|].
    intros Hin%Hall. by rewrite slug_char_space in Hin. }
  split_and!; [done| | | | |apply Hid|by apply Hid].
  - intros c. apply slugify_keeps.
  - apply slugify_space.
  - apply slugify_length.
  - intros text'. unfold slugify. by rewrite replace_app, RE_SLUGIFY_sub_app.
Qed.


(** *** Splitting at the first dot *)

Lemma split_once_spec s :
  match split_once s with
  | (before, None) => s = before ∧ "."%char ∉ chars s
  | (before, Some behind) =>
      s = before +:+ "." +:+ behind ∧ "."%char ∉ chars before
  end.
Proof.
  induction s as [|c rest IH]; cbn [split_once].
  - split; [done|]. by intros ?%elem_of_nil.
  - case_decide as Hc.
    + subst c. split; [done|]. by intros ?%elem_of_nil.
    + destruct (split_once rest) as [before [behind|]].
      * destruct IH as [-> Hno]. split; [done|].
        rewrite chars_cons. by apply not_elem_of_cons.
      * destruct IH as [-> Hno]. split; [done|].
        rewrite chars_cons. by apply not_elem_of_cons.
Qed.

Lemma split_once_app before behind :
  "."%char ∉ chars before →
  split_once (before +:+ "." +:+ behind) = (before, Some behind).
Proof.
  induction before as [|c rest IH]; [done|].
  rewrite chars_cons. intros [Hc Hrest]%not_elem_of_cons. simpl.
  rewrite decide_False by done. by rewrite IH.
Qed.

(** X22. [split_entity_id] cuts at the first dot and loses nothing: joining
    its parts with a dot gives the entity id back.  An id with a dot gives
    two parts, the first free of dots; an id without gives one part, itself,
    which a caller that unpacks two values does not survive.  A domain
    without dots and an object id, joined by a dot, come back as they
    were. *)
Theorem split_entity_id_round_trip entity_id :
  join "." (split_entity_id entity_id) = entity_id ∧
  ("."%char ∈ chars entity_id →
     ∃ domain object_id, split_entity_id entity_id = [domain; object_id] ∧
                         "."%char ∉ chars domain) ∧
  ("."%char ∉ chars entity_id → split_entity_id entity_id = [entity_id]) ∧
  (∀ domain object_id, "."%char ∉ chars domain →
     split_entity_id (domain +:+ "." +:+ object_id) = [domain; object_id]).
Proof.
  unfold split_entity_id. pose proof (split_once_spec entity_id) as Hspec.
  destruct (split_once entity_id) as [before [behind|]].
  - destruct Hspec as [-> Hno]. split_and!.
    + done.
    + intros _. by exists before, behind.
    + intros Hdot. exfalso. apply Hdot.
      rewrite !chars_app, !elem_of_app. right. left. unfold chars. simpl. left.
    + intros domain object_id Hd. by rewrite split_once_app.
  - destruct Hspec as [-> Hno]. split_and!.
    + done.
    + done.
    + done.
    + intros domain object_id Hd. by rewrite split_once_app.
Qed.


(** *** A name not yet taken *)

Lemma string_app_length s1 s2 :
  String.length (s1 +:+ s2) = String.length s1 + String.length s2.
Proof. induction s1 as [|c s1 IH]; simpl; [done|]. by rewrite IH. Qed.

Global Instance candidate_inj preferred_string : Inj (=) (=) (candidate preferred_string).
Proof.
  intros i j. unfold candidate. repeat case_decide.
  - congruence.
  - intros Heq. apply (f_equal String.length) in Heq.
    rewrite !string_app_length in Heq. simpl in Heq. lia.
  - intros Heq. apply (f_equal String.length) in Heq.
    rewrite !string_app_length in Heq. simpl in Heq. lia.
  - intros Heq. by do 2 apply (inj (String.app _)) in Heq; apply (inj pretty) in Heq.
Qed.

Lemma ensure_unique_loop_candidate preferred_string current_strings :
  ∀ k fuel tries,
    1 ≤ tries →
    (∀ j, tries ≤ j < tries + k → candidate preferred_string j ∈ current_strings) →
    candidate preferred_string (tries + k) ∉ current_strings →
    k < fuel →
    ensure_unique_loop fuel preferred_string current_strings tries
      (candidate preferred_string tries) = Some (candidate preferred_string (tries + k)).
Proof.
  induction k as [|k IH]; intros fuel tries Htries Htaken Hfree Hfuel;
    (destruct fuel as [|fuel]; [lia|]); simpl.
  - rewrite Nat.add_0_r in *. by rewrite decide_False.
  - rewrite decide_True by (apply Htaken; lia).
    replace (preferred_string +:+ "_" +:+ pretty (S tries))
      with (candidate preferred_string (S tries))
      by (unfold candidate; by rewrite decide_False by lia).
    rewrite (IH fuel (S tries)); [f_equal; f_equal; lia|lia| | |lia].
    + intros j Hj. apply Htaken. lia.
    + by replace (S tries + k) with (tries + S k) by lia.
Qed.

(** Among more strings than the list is long, one is not on it. *)
Lemma candidate_free preferred_string current_strings :
  ∃ k, k ≤ length current_strings ∧
       (candidate preferred_string (1 + k) ∉ current_strings) ∧
       ∀ j, j < k → candidate preferred_string (1 + j) ∈ current_strings.
Proof.
  set (n := length current_strings).
  assert (∃ k, k ≤ n ∧ candidate preferred_string (1 + k) ∉ current_strings)
    as (k & Hk & Hfree).
  { destruct (decide (Forall (λ k, candidate preferred_string (1 + k) ∈ current_strings)
                             (seq 0 (S n)))) as [Hall|Hex].
    - exfalso.
      assert (candidate preferred_string <$> seq 1 (S n) ⊆+ current_strings) as Hsub.
      { apply NoDup_submseteq.
        - apply (NoDup_fmap_2 _), NoDup_seq.
        - intros s (j & -> & Hj)%list_elem_of_fmap. apply elem_of_seq in Hj.
          rewrite Forall_forall in Hall.
          replace j with (1 + (j - 1)) by lia. apply Hall, elem_of_seq. lia. }
      apply submseteq_length in Hsub. rewrite length_fmap, length_seq in Hsub.
      unfold n in Hsub. lia.
    - apply not_Forall_Exists in Hex; [|apply _].
      apply Exists_exists in Hex as (k & Hk%elem_of_seq & Hfree).
      exists k. split; [lia|done]. }
  revert Hk. induction k as [k IH] using lt_wf_ind. intros Hk.
  destruct (decide (Forall (λ j, candidate preferred_string (1 + j) ∈ current_strings)
                           (seq 0 k))) as [Hall|Hex].
  - exists k. split_and!; [done|done|].
    intros j Hj. rewrite Forall_forall in Hall. apply Hall, elem_of_seq. lia.
  - apply not_Forall_Exists in Hex; [|apply _].
    apply Exists_exists in Hex as (j & Hj%elem_of_seq & Hfree').
    apply (IH j); [lia|done|lia].
Qed.

(** X23. [ensure_unique_string] ends after at most one turn of its loop per
    string in [current_strings], and returns a string that is not among them:
    the preferred string when that is free, and otherwise the preferred string
    followed by [_k] for the least [k] from 2 on that gives a free string. *)
Theorem ensure_unique_string_free preferred_string current_strings :
  ∃ result tries,
    (∀ fuel, length current_strings < fuel →
       ensure_unique_string fuel preferred_string current_strings = Some result) ∧
    (result ∉ current_strings) ∧
    1 ≤ tries ≤ length current_strings + 1 ∧
    (preferred_string ∉ current_strings → result = preferred_string) ∧
    (preferred_string ∈ current_strings →
       2 ≤ tries ∧ result = preferred_string +:+ "_" +:+ pretty tries) ∧
    (∀ j, 2 ≤ j < tries →
       preferred_string +:+ "_" +:+ pretty j ∈ current_strings).
Proof.
  destruct (candidate_free preferred_string current_strings) as (k & Hk & Hfree & Htaken).
  exists (candidate preferred_string (1 + k)), (1 + k).
  assert (candidate preferred_string 1 = preferred_string) as H1 by done.
  split_and!; [|done|lia|lia| | |].
  - intros fuel Hfuel. unfold ensure_unique_string.
    rewrite <- H1 at 2.
    apply ensure_unique_loop_candidate; [lia| |done|lia].
    intros j Hj. replace j with (1 + (j - 1)) by lia. apply Htaken. lia.
  - intros Hp. destruct k as [|k]; [done|]. exfalso. apply Hp.
    rewrite <- H1. apply (Htaken 0). lia.
  - intros Hp. destruct k as [|k]; [done|]. split; [lia|].
    unfold candidate. by rewrite decide_False by lia.
  - intros j Hj.
    replace (preferred_string +:+ "_" +:+ pretty j) with (candidate preferred_string j)
      by (unfold candidate; by rewrite decide_False by lia).
    replace j with (1 + (j - 1)) by lia. apply Htaken. lia.
Qed.

Example ensure_unique_string_counts :
  ensure_unique_string 4 "light.lamp" ["light.lamp"; "light.lamp_3"; "light.lamp_2"]
    = Some "light.lamp_4" ∧
  ensure_unique_string 1 "light.lamp" ["switch.lamp"] = Some "light.lamp" ∧
  slugify "Living Room: lamp #2" = "Living_Room_lamp_2" ∧
  split_entity_id "light.living.room" = ["light"; "living.room"] ∧
  split_entity_id "light" = ["light"] ∧
  sanitize_filename "../../etc/passwd" = "etcpasswd" ∧
  sanitize_path "~/.ssh/../...x" = "/.ssh//x".
Proof. vm_compute. done. Qed.

End Util.

(* ===================================================================== *)
(** ** homeassistant/helpers.py : entity ids of a platform's devices      *)
(* ===================================================================== *)
Module Helpers.

Local Open Scope nat_scope.

Section platform_devices_from_config.

(** A device object with its [get_name()], the [entity_id_format.format]
    of the caller, and the domain. *)
Context {Device : Type}.
Variable get_name : Device → option string.
Variable entity_id_format : string → string.
Variable domain : string.

(** [device_dict[entity_id] = device] on a dict kept in insertion order. *)
Definition dict_set (entity_id : string) (device : Device)
  (device_dict : list (string * Device)) : list (string * Device) :=
  if decide (entity_id ∈ device_dict.*1) then
    (λ entry, if decide (entry.1 = entity_id) then (entity_id, device) else entry)
      <$> device_dict
  else device_dict ++ [(entity_id, device)].

(** The loop of [platform_devices_from_config] that sets up the entity
    ids, over the devices the platforms returned.  A pair of the result
    holds the [entity_id] attribute given to the device with the device. *)
Fixpoint setup_entity_ids (fuel : nat) (devices : list Device)
  (no_name_count : nat) (device_dict : list (string * Device))
  : option (list (string * Device)) :=
  match devices with
  | [] => Some device_dict
  | device :: devices' =>
      let '(name, no_name_count') :=
        match get_name device with
        | Some name => (name, no_name_count)
        | None => (domain +:+ " #" +:+ pretty no_name_count, S no_name_count)
        end in
      entity_id ← Util.ensure_unique_string fuel
                    (entity_id_format (Util.slugify name)) device_dict.*1;
      setup_entity_ids fuel devices' no_name_count'
        (dict_set entity_id device device_dict)
  end.

Definition platform_devices_from_config (fuel : nat) (devices : list Device)
  : option (list (string * Device)) :=
  setup_entity_ids fuel devices 1 [].

(** The name a device goes by: its own, or the domain with the number of
    the nameless devices so far. *)
Fixpoint names (devices : list Device) (no_name_count : nat) : list string :=
  match devices with
  | [] => []
  | device :: devices' =>
      match get_name device with
      | Some name => name :: names devices' no_name_count
      | None => (domain +:+ " #" +:+ pretty no_name_count)
                  :: names devices' (S no_name_count)
      end
  end.

Lemma setup_entity_ids_spec devices : ∀ no_name_count device_dict,
  NoDup device_dict.*1 →
  ∃ new,
    (∀ fuel, length device_dict + length devices ≤ fuel →
       setup_entity_ids fuel devices no_name_count device_dict
       = Some (device_dict ++ new)) ∧
    new.*2 = devices ∧
    NoDup (device_dict ++ new).*1 ∧
    Forall2 (λ entry name,
               ∃ tries, 1 ≤ tries ∧
                 entry.1 = Util.candidate (entity_id_format (Util.slugify name)) tries)
            new (names devices no_name_count).
Proof.
  induction devices as [|device devices IH]; intros no_name_count device_dict Hnd.
  - exists []. rewrite app_nil_r. split_and!; [done|done|done|constructor].
  - cbn [setup_entity_ids names].
    set (name := match get_name device with
                 | Some name => name
                 | None => domain +:+ " #" +:+ pretty no_name_count
                 end).
    set (count' := match get_name device with
                   | Some _ => no_name_count
                   | None => S no_name_count
                   end).
    destruct (Util.candidate_free (entity_id_format (Util.slugify name)) device_dict.*1)
      as (k & Hk & Hfree & Htaken).
    set (entity_id := Util.candidate (entity_id_format (Util.slugify name)) (1 + k)) in *.
    assert (∀ fuel, length device_dict < fuel →
              Util.ensure_unique_string fuel (entity_id_format (Util.slugify name))
                device_dict.*1 = Some entity_id) as Hrun.
    { intros fuel Hfuel. unfold Util.ensure_unique_string.
      change (entity_id_format (Util.slugify name))
        with (Util.candidate (entity_id_format (Util.slugify name)) 1) at 2.
      apply Util.ensure_unique_loop_candidate; [lia| |done|].
      - intros j Hj. replace j with (1 + (j - 1)) by lia. apply Htaken. lia.
      - rewrite length_fmap in Hk. lia. }
    assert (dict_set entity_id device device_dict = device_dict ++ [(entity_id, device)])
      as Hset by (unfold dict_set; by rewrite decide_False).
    destruct (IH count' (device_dict ++ [(entity_id, device)])) as (new & Hnew & Hdevs & Hnd' & Hnames).
    { rewrite fmap_app. apply NoDup_app. split_and!; [done| |apply NoDup_singleton].
      intros x Hx ->%list_elem_of_singleton. done. }
    exists ((entity_id, device) :: new).
    replace (device_dict ++ (entity_id, device) :: new)
      with ((device_dict ++ [(entity_id, device)]) ++ new)
      by (by rewrite <- app_assoc).
    split_and!.
    + intros fuel Hfuel. simpl in Hfuel.
      assert (match get_name device with
              | Some name0 => (name0, no_name_count)
              | None => (domain +:+ " #" +:+ pretty no_name_count, S no_name_count)
              end = (name, count')) as -> by (unfold name, count'; by destruct (get_name device)).
      rewrite Hrun by lia. simpl. rewrite Hset. apply Hnew.
      rewrite length_app. simpl. lia.
    + by rewrite fmap_cons, Hdevs.
    + done.
    + assert (match get_name device with
              | Some name0 => name0 :: names devices no_name_count
              | None => (domain +:+ " #" +:+ pretty no_name_count)
                          :: names devices (S no_name_count)
              end = name :: names devices count') as ->
        by (unfold name, count'; by destruct (get_name device)).
      constructor; [|done]. exists (1 + k). split; [lia|done].
Qed.

(** X24. [platform_devices_from_config] gives every device an entity id
    of its own: the dict it returns holds the devices one by one in their
    order, none lost, under keys that are all different.  The key of a
    device is the formatted slug of its name, or of the domain with a running
    number when it has no name, followed by [_k] when that was taken. *)
Theorem entity_ids_all_different devices :
  ∃ device_dict,
    (∀ fuel, length devices ≤ fuel →
       platform_devices_from_config fuel devices = Some device_dict) ∧
    device_dict.*2 = devices ∧
    NoDup device_dict.*1 ∧
    Forall2 (λ entry name,
               entry.1 = entity_id_format (Util.slugify name) ∨
               ∃ tries, 2 ≤ tries ∧
                 entry.1 = entity_id_format (Util.slugify name) +:+ "_" +:+ pretty tries)
            device_dict (names devices 1).
Proof.
  destruct (setup_entity_ids_spec devices 1 []) as (new & Hrun & Hdevs & Hnd & Hnames).
  { constructor. }
  exists new. split_and!; [|done|done|].
  - intros fuel Hfuel. by apply Hrun.
  - eapply Forall2_impl; [exact Hnames|].
    intros entry name (tries & Htries & ->). unfold Util.candidate.
    case_decide; [by left|right]. exists tries. split; [lia|done].
Qed.

End platform_devices_from_config.

(** Two lamps of one name and a device without a name. *)
Example lamps_named :
  platform_devices_from_config (λ device : option string, device)
    (λ slug, "light." +:+ slug) "light" 3 [Some "Lamp"; None; Some "Lamp"] =
  Some [("light.Lamp", Some "Lamp"); ("light.light_1", None);
        ("light.Lamp_2", Some "Lamp")].
Proof. vm_compute. reflexivity. Qed.

End Helpers.

(* ===================================================================== *)
(** ** homeassistant/util.py : Throttle                                   *)
(* ===================================================================== *)
Module Throttle.

(** What a call of the wrapped method gives: the method's value, [None],
    or an exception. *)
Inductive outcome (R E : Type) : Type :=
| Value (r : R)
| NoneValue
| Raised (e : E).
Arguments Value {R E} r.
Arguments NoneValue {R E}.
Arguments Raised {R E} e.

(** One run of the decorated method, as the method saw it: the number of
    clock readings made before, the [no_throttle] entry of the keyword
    arguments if it was still among them, and whether the method returned
    ([ok]) or raised. *)
Record invocation : Type := {
  at_tick : nat;
  seen : option bool;
  ok : bool
}.

Section Throttle.

(** The state of the object the method belongs to, the positional
    arguments, the values and the exceptions of the method. *)
Context {S A R E : Type}.

(** [clock k] is what the [k]-th call of [datetime.now()] returns, in
    microseconds; the intervals are in microseconds too. *)
Variable clock : nat → Z.
Variable min_time : Z.
Variable limit_no_throttle : option Z.

(** The method that is decorated.  It is handed the [no_throttle] entry
    of the keyword arguments when no wrapper has popped it. *)
Variable method : A → option bool → S → (R + E) * S.

(** The attribute [last_call] of the wrapper and of the wrapper inside it
    that [limit_no_throttle] adds, with the runs of the method so far. *)
Record state : Type := {
  self : S;
  ticks : nat;
  last_call : option Z;
  inner_last_call : option Z;
  invocations : list invocation
}.

Definition now (g : state) : Z * state :=
  (clock (ticks g),
   {| self := self g; ticks := Datatypes.S (ticks g); last_call := last_call g;
      inner_last_call := inner_last_call g; invocations := invocations g |}).

Definition set_last_call (t : Z) (g : state) : state :=
  {| self := self g; ticks := ticks g; last_call := Some t;
     inner_last_call := inner_last_call g; invocations := invocations g |}.

Definition set_inner_last_call (t : Z) (g : state) : state :=
  {| self := self g; ticks := ticks g; last_call := last_call g;
     inner_last_call := Some t; invocations := invocations g |}.

Definition callable : Type := A → option bool → state → outcome R E * state.

(** The method itself, with its run written down. *)
Definition run_method : callable := λ args kwargs g,
  let '(result, self') := method args kwargs (self g) in
  (match result with inl r => Value r | inr e => Raised e end,
   {| self := self'; ticks := ticks g; last_call := last_call g;
      inner_last_call := inner_last_call g;
      invocations := invocations g ++
        [{| at_tick := ticks g; seen := kwargs;
            ok := match result with inl _ => true | inr _ => false end |}] |}).

(** The call of the method, [wrapper.last_call = datetime.now()] and
    [return result]: an exception of the method leaves [last_call] as it
    was. *)
Definition invoke (set : Z → state → state) (wrapped : callable) : callable :=
  λ args kwargs g,
  let '(result, g1) := wrapped args kwargs g in
  match result with
  | Raised e => (Raised e, g1)
  | _ => let '(t, g2) := now g1 in (result, set t g2)
  end.

(** [wrapper]: [or] pops [no_throttle] only when [last_call] is set, and
    the clock is read only when the call is not forced. *)
Definition wrapper (min_time : Z) (get : state → option Z)
  (set : Z → state → state) (wrapped : callable) : callable :=
  λ args kwargs g,
  match get g with
  | None => invoke set wrapped args kwargs g
  | Some last =>
      if default false kwargs then invoke set wrapped args None g
      else
        let '(t, g1) := now g in
        if decide (t - last > min_time) then invoke set wrapped args None g1
        else (NoneValue, g1)
  end.

(** [Throttle(min_time, limit_no_throttle)(method)]. *)
Definition decorated : callable :=
  wrapper min_time last_call set_last_call
    match limit_no_throttle with
    | None => run_method
    | Some limit => wrapper limit inner_last_call set_inner_last_call run_method
    end.

(** [wrapper.last_call = None], on both wrappers. *)
Definition init (s : S) (n : nat) : state :=
  {| self := s; ticks := n; last_call := None; inner_last_call := None;
     invocations := [] |}.

(** A series of calls, each with its arguments and its [no_throttle];
    the lock of the wrapper lets in one call at a time. *)
Fixpoint run (calls : list (A * option bool)) (g : state) : state :=
  match calls with
  | [] => g
  | (args, kwargs) :: calls' => run calls' (decorated args kwargs g).2
  end.


(** *** Between two calls *)

(** A reading of the clock, past and not before the return of any run of
    the method. *)
Definition reading (g : state) (t : Z) : Prop :=
  ∃ k, (k < ticks g)%nat ∧ t = clock k ∧
       ∀ e, e ∈ invocations g → ok e = true → (at_tick e ≤ k)%nat.

Record settled (g : state) : Prop := {
  settled_fresh : last_call g = None →
    inner_last_call g = None ∧ ∀ e, e ∈ invocations g → ok e = false;
  settled_last : ∀ t, last_call g = Some t → reading g t;
  settled_inner : ∀ t, inner_last_call g = Some t → reading g t;
  settled_limit : is_Some limit_no_throttle → inner_last_call g = None →
    ∀ e, e ∈ invocations g → ok e = false;
  settled_single : limit_no_throttle = None → inner_last_call g = None;
  settled_past : ∀ e, e ∈ invocations g → (at_tick e ≤ ticks g)%nat
}.

(** What a call adds to the runs of the method. *)
Definition waited (interval : Z) (g : state) (e : invocation) : Prop :=
  ∀ e0, e0 ∈ invocations g → ok e0 = true →
    ∃ k, (at_tick e0 ≤ k < at_tick e)%nat ∧ clock k - clock (at_tick e0) > interval.

Hypothesis clock_mono : ∀ i j, (i ≤ j)%nat → clock i ≤ clock j.

(** The callable that the outer wrapper wraps. *)
Definition wrapped : callable :=
  match limit_no_throttle with
  | None => run_method
  | Some limit => wrapper limit inner_last_call set_inner_last_call run_method
  end.

Lemma reading_keep g g' t :
  reading g t → (ticks g ≤ ticks g')%nat →
  (∀ e, e ∈ invocations g' → ok e = true → e ∈ invocations g) →
  reading g' t.
Proof.
  intros (k & Hk & -> & Hafter) Hticks Hsame. exists k.
  split_and!; [lia|done|]. intros e He Hok. apply Hafter; auto.
Qed.

Lemma reading_new g g' k :
  (k < ticks g')%nat → (ticks g ≤ k)%nat →
  (∀ e, e ∈ invocations g → at_tick e ≤ ticks g)%nat →
  (∀ e, e ∈ invocations g' → e ∈ invocations g ∨ at_tick e ≤ k)%nat →
  reading g' (clock k).
Proof.
  intros Hk Hg Hpast Hnew. exists k. split_and!; [done|done|].
  intros e [He|He]%Hnew _; [|done]. apply Hpast in He. lia.
Qed.

(** What the method's run looks like from outside. *)
Lemma run_method_spec args kwargs g :
  ∃ result self',
    method args kwargs (self g) = (result, self') ∧
    run_method args kwargs g =
      (match result with inl r => Value r | inr e => Raised e end,
       {| self := self'; ticks := ticks g; last_call := last_call g;
          inner_last_call := inner_last_call g;
          invocations := invocations g ++
            [{| at_tick := ticks g; seen := kwargs;
                ok := match result with inl _ => true | inr _ => false end |}] |}).
Proof.
  unfold run_method. destruct (method args kwargs (self g)) as [result self'].
  by exists result, self'.
Qed.

(** The wrapped callable either leaves the method alone, which only the
    inner wrapper of a limit does, and only once its [last_call] is set, or
    runs it once. *)
Definition skipped (g g' : state) : Prop :=
  invocations g' = invocations g ∧ last_call g' = last_call g ∧
  inner_last_call g' = inner_last_call g ∧ ticks g' = Datatypes.S (ticks g).

Definition ran (kwargs : option bool) (g : state) (result : outcome R E)
  (g' : state) (e : invocation) : Prop :=
  invocations g' = invocations g ++ [e] ∧ last_call g' = last_call g ∧
  (ticks g ≤ at_tick e)%nat ∧ (at_tick e ≤ ticks g')%nat ∧
  result ≠ NoneValue ∧
  (ok e = true ↔ ∃ r, result = Value r) ∧
  (ok e = false → inner_last_call g' = inner_last_call g) ∧
  (ok e = true → ∀ t, inner_last_call g' = Some t →
     t = clock (at_tick e) ∧ (at_tick e < ticks g')%nat) ∧
  (limit_no_throttle = None → inner_last_call g' = inner_last_call g) ∧
  (ok e = true → is_Some limit_no_throttle → is_Some (inner_last_call g')) ∧
  (∀ limit, limit_no_throttle = Some limit → waited limit g e) ∧
  (seen e ≠ None → seen e = kwargs ∧
     (is_Some limit_no_throttle → inner_last_call g = None)).

Definition entry (g : state) (kwargs : option bool) (returned : bool) : invocation :=
  {| at_tick := ticks g; seen := kwargs; ok := returned |}.

Lemma invoke_run_method set args kwargs g :
  ∃ result self',
    method args kwargs (self g) = (result, self') ∧
    invoke set run_method args kwargs g =
    match result with
    | inl r =>
        (Value r,
         set (clock (ticks g))
           {| self := self'; ticks := Datatypes.S (ticks g); last_call := last_call g;
              inner_last_call := inner_last_call g;
              invocations := invocations g ++ [entry g kwargs true] |})
    | inr e =>
        (Raised e,
         {| self := self'; ticks := ticks g; last_call := last_call g;
            inner_last_call := inner_last_call g;
            invocations := invocations g ++ [entry g kwargs false] |})
    end.
Proof.
  unfold invoke, run_method.
  destruct (method args kwargs (self g)) as [[r|e] self']; by do 2 eexists.
Qed.

Ltac ran_done :=
  unfold ran, skipped, entry in *; simpl in *;
  split_and!;
  try done; simpl;
  try done; try lia;
  try (by split; [eauto|]);
  try (by split; [|intros [? ?]]);
  try (by intros _ ? [= <-]; split; [|lia]);
  try (by intros ? ?; simplify_eq; eauto);
  try (by intros [? ?]);
  try (intros ?; congruence);
  try (by intros _ ? [= <-]);
  try (by intros ? [= <-]);
  try (by intros ? ? [= <-]);
  eauto.

Lemma wrapped_spec args kwargs g :
  settled g → (kwargs = None ∨ last_call g = None) →
  ∃ result g', wrapped args kwargs g = (result, g') ∧
    ((result = NoneValue ∧ skipped g g' ∧ is_Some (inner_last_call g)) ∨
     ∃ e, ran kwargs g result g' e).
Proof.
  intros Hs Hkw. unfold wrapped.
  destruct limit_no_throttle as [limit|] eqn:Hlimit.
  - unfold wrapper. destruct (inner_last_call g) as [last|] eqn:Hinner.
    + assert (kwargs = None) as ->.
      { destruct Hkw as [?|Hnone]; [done|].
        destruct (settled_fresh _ Hs Hnone) as [? _]. congruence. }
      simpl. case_decide as Hlate.
      * set (g1 := {| self := self g; ticks := Datatypes.S (ticks g) |}).
        destruct (invoke_run_method set_inner_last_call args None g1)
          as (res & self' & Hm & ->).
        assert (∀ b, waited limit g (entry g1 None b)) as Hwaited.
        { intros b e0 He0 Hok0. exists (ticks g). simpl.
          destruct (settled_inner _ Hs _ Hinner) as (k & Hk & -> & Hafter).
          pose proof (Hafter _ He0 Hok0).
          pose proof (settled_past _ Hs _ He0).
          pose proof (clock_mono (at_tick e0) k ltac:(done)).
          split; [lia|lia]. }
        destruct res as [r|e]; do 2 eexists; (split; [done|]); right;
          eexists; ran_done.
      * do 2 eexists. split; [done|]. left. ran_done.
    + destruct (invoke_run_method set_inner_last_call args kwargs g)
        as (res & self' & Hm & ->).
      assert (∀ e, waited limit g e) as Hwaited.
      { intros e e0 He0 Hok0.
        by rewrite (settled_limit _ Hs ltac:(rewrite Hlimit; eauto) Hinner _ He0) in Hok0. }
      destruct res as [r|e]; do 2 eexists; (split; [done|]); right;
        eexists; ran_done.
  - destruct (run_method_spec args kwargs g) as (res & self' & Hm & ->).
    pose proof (settled_single _ Hs Hlimit) as Hinner.
    destruct res; do 2 eexists; (split; [done|]); right; eexists; ran_done.
    all: try (by rewrite Hinner).
    all: try (by intros _; split; [|intros [? ?]]).
    all: rewrite Hlimit; by intros _ [? ?].
Qed.

Definition tick (g : state) : state := (now g).2.

Lemma settled_tick g : settled g → settled (tick g).
Proof.
  intros Hs. split; simpl.
  - apply (settled_fresh _ Hs).
  - intros t Ht. apply (reading_keep g); [by apply (settled_last _ Hs)|simpl; lia|done].
  - intros t Ht. apply (reading_keep g); [by apply (settled_inner _ Hs)|simpl; lia|done].
  - apply (settled_limit _ Hs).
  - apply (settled_single _ Hs).
  - intros e He. pose proof (settled_past _ Hs e He). lia.
Qed.

Lemma invoke_wrapped args kwargs g :
  settled g → (kwargs = None ∨ last_call g = None) →
  ∃ result g', invoke set_last_call wrapped args kwargs g = (result, g') ∧
    settled g' ∧ (ticks g ≤ ticks g')%nat ∧
    (invocations g' = invocations g ∨
     ∃ e, invocations g' = invocations g ++ [e] ∧ (ticks g ≤ at_tick e)%nat ∧
       (∀ limit, limit_no_throttle = Some limit → waited limit g e) ∧
       (seen e ≠ None → seen e = kwargs)).
Proof.
  intros Hs Hkw. unfold invoke.
  destruct (wrapped_spec args kwargs g Hs Hkw)
    as (result & g1 & -> & [(-> & (Hinv & Hlast & Hinner & Hticks) & Hset)|[e Hran]]).
  - (* the inner wrapper held the call back *)
    simpl. do 2 eexists. split; [done|]. split_and!; [|simpl; lia|by left].
    split; simpl.
    + done.
    + intros t [= <-]. apply (reading_new g); simpl; [lia|lia|apply (settled_past _ Hs)|].
      rewrite Hinv. auto.
    + rewrite Hinner. intros t Ht.
      apply (reading_keep g); [by apply (settled_inner _ Hs)|simpl; lia|].
      simpl. by rewrite Hinv.
    + rewrite Hinner. intros _ Hnone. rewrite Hnone in Hset. by destruct Hset.
    + rewrite Hinner. apply (settled_single _ Hs).
    + rewrite Hinv. intros e He. pose proof (settled_past _ Hs e He). lia.
  - destruct Hran as (Hinv & Hlast & Hat & Hat' & Hres & Hok & Hfail & Hdone
                        & Hsingle & Hsome & Hwaited & Hseen).
    assert (∀ e0, e0 ∈ invocations g1 → e0 ∈ invocations g ∨ e0 = e) as Hmem.
    { intros e0. rewrite Hinv, elem_of_app, list_elem_of_singleton. tauto. }
    assert (∀ e0, e0 ∈ invocations g1 → (at_tick e0 ≤ at_tick e)%nat) as Hpast.
    { intros e0 [He0| ->]%Hmem; [|done].
      pose proof (settled_past _ Hs e0 He0). lia. }
    assert (invocations g1 = invocations g ∨
            ∃ e, invocations g1 = invocations g ++ [e] ∧ (ticks g ≤ at_tick e)%nat ∧
              (∀ limit, limit_no_throttle = Some limit → waited limit g e) ∧
              (seen e ≠ None → seen e = kwargs)) as Hadded.
    { right. exists e. split_and!; [done|done|done|]. intros Hne. by apply Hseen. }
    destruct result as [r| |e'].
    + (* the method returned *)
      assert (ok e = true) as Htrue by (apply Hok; eauto).
      simpl. do 2 eexists. split; [done|]. split_and!; [|simpl; lia|done].
      split; simpl.
      * done.
      * intros t [= <-]. exists (ticks g1). simpl. split_and!; [lia|done|].
        intros e0 He0%Hpast _. lia.
      * intros t Ht. destruct (Hdone Htrue t Ht) as [-> Hlt].
        exists (at_tick e). simpl. split_and!; [lia|done|]. intros e0 He0 _. by apply Hpast.
      * intros Hlimit Hnone. destruct (Hsome Htrue Hlimit) as [t Ht]. congruence.
      * intros Hlimit. rewrite (Hsingle Hlimit). by apply (settled_single _ Hs).
      * intros e0 He0%Hpast. lia.
    + done.
    + (* the method raised *)
      assert (ok e = false) as Hfalse.
      { apply not_true_is_false. intros Hoke. apply Hok in Hoke as [r ?]. done. }
      assert (∀ e0, e0 ∈ invocations g1 → ok e0 = true → e0 ∈ invocations g) as Hold.
      { intros e0 [He0| ->]%Hmem Hok0; [done|congruence]. }
      do 2 eexists. split; [done|]. split_and!; [|lia|done].
      split.
      * rewrite Hlast, (Hfail Hfalse). intros Hnone.
        destruct (settled_fresh _ Hs Hnone) as [Hin Hnot]. split; [done|].
        intros e0 [He0| ->]%Hmem; [by apply Hnot|done].
      * rewrite Hlast. intros t Ht.
        apply (reading_keep g); [by apply (settled_last _ Hs)|lia|done].
      * rewrite (Hfail Hfalse). intros t Ht.
        apply (reading_keep g); [by apply (settled_inner _ Hs)|lia|done].
      * rewrite (Hfail Hfalse). intros Hlimit Hnone e0 [He0| ->]%Hmem; [|done].
        by apply (settled_limit _ Hs Hlimit Hnone).
      * rewrite (Hfail Hfalse). apply (settled_single _ Hs).
      * intros e0 He0%Hpast. lia.
Qed.

Lemma decorated_step args kwargs g :
  settled g →
  ∃ result g', decorated args kwargs g = (result, g') ∧
    settled g' ∧ (ticks g ≤ ticks g')%nat ∧
    (invocations g' = invocations g ∨
     ∃ e, invocations g' = invocations g ++ [e] ∧ (ticks g ≤ at_tick e)%nat ∧
       (default false kwargs = false → waited min_time g e) ∧
       (∀ limit, limit_no_throttle = Some limit → waited limit g e) ∧
       (seen e ≠ None →
          seen e = kwargs ∧ ∀ e0, e0 ∈ invocations g → ok e0 = false)).
Proof.
  intros Hs. change decorated with (wrapper min_time last_call set_last_call wrapped).
  unfold wrapper. destruct (last_call g) as [last|] eqn:Hlast.
  - destruct (default false kwargs) eqn:Hkw.
    + (* no_throttle *)
      destruct (invoke_wrapped args None g Hs) as (result & g' & -> & Hs' & Hticks & Hinv);
        [by left|].
      exists result, g'. split_and!; [done|done|done|].
      destruct Hinv as [?|(e & He & Hat & Hlimit & Hseen)]; [by left|right].
      exists e. split_and!.
      * done.
      * done.
      * done.
      * done.
      * intros Hne. destruct (Hne (Hseen Hne)).
    + destruct (now g) as [t g1] eqn:Hnow. injection Hnow as <- <-.
      case_decide as Hlate.
      * (* the interval is over *)
        destruct (invoke_wrapped args None (tick g) (settled_tick _ Hs))
          as (result & g' & Hrun & Hs' & Hticks & Hinv); [by left|].
        exists result, g'. split_and!; [done|done|simpl in Hticks; lia|].
        destruct Hinv as [?|(e & He & Hat & Hlimit & Hseen)]; [by left|right].
        exists e. split_and!; [done|simpl in Hat; lia| |done|].
        -- intros _ e0 He0 Hok0. exists (ticks g).
           destruct (settled_last _ Hs _ Hlast) as (k & Hk & -> & Hafter).
           pose proof (Hafter _ He0 Hok0).
           pose proof (settled_past _ Hs _ He0).
           pose proof (clock_mono (at_tick e0) k ltac:(done)).
           simpl in Hat. split; [lia|lia].
        -- intros Hne. destruct (Hne (Hseen Hne)).
      * exists NoneValue, (tick g). split_and!; [done| |simpl; lia|by left].
        by apply settled_tick.
  - (* never called, or not since the method last returned *)
    destruct (invoke_wrapped args kwargs g Hs) as (result & g' & -> & Hs' & Hticks & Hinv);
      [by right|].
    destruct (settled_fresh _ Hs Hlast) as [_ Hnone].
    exists result, g'. split_and!; [done|done|done|].
    destruct Hinv as [?|(e & He & Hat & Hlimit & Hseen)]; [by left|right].
    exists e. split_and!; [done|done| |done|].
    + intros _ e0 He0 Hok0. by rewrite (Hnone _ He0) in Hok0.
    + intros Hne. split; [by apply Hseen|done].
Qed.

Lemma settled_init s n : settled (init s n).
Proof.
  split; simpl; try done.
  - intros _. split; [done|]. by intros e ?%elem_of_nil.
  - by intros _ _ e ?%elem_of_nil.
  - by intros e ?%elem_of_nil.
Qed.

Lemma run_settled calls : ∀ g, settled g → settled (run calls g).
Proof.
  induction calls as [|[args kwargs] calls IH]; intros g Hs; [done|]. simpl.
  destruct (decorated_step args kwargs g Hs) as (result & g' & -> & Hs' & _).
  by apply IH.
Qed.


(** X26. The method is handed [no_throttle] itself only in calls made
    before its first run that returned, and then as the caller gave it:
    once [last_call] is set the wrapper pops the keyword.  The first call
    of all always runs the method, the keyword among its arguments. *)
Theorem no_throttle_reaches_method calls s n args kwargs :
  let g := run calls (init s n) in
  let g' := (decorated args kwargs g).2 in
  (invocations g' = invocations g ∨
   ∃ e, invocations g' = invocations g ++ [e] ∧
     (seen e = None ∨
      seen e = kwargs ∧ ∀ e0, e0 ∈ invocations g → ok e0 = false)) ∧
  (∃ returned,
     invocations (decorated args kwargs (init s n)).2 =
       [{| at_tick := n; seen := kwargs; ok := returned |}]).
Proof.
  intros g g'. split.
  - destruct (decorated_step args kwargs g) as (result & g1 & Hrun & _ & _ & Hinv).
    { apply run_settled, settled_init. }
    unfold g'. rewrite Hrun. simpl.
    destruct Hinv as [->|(e & -> & _ & _ & _ & Hseen)]; [by left|right].
    exists e. split; [done|].
    destruct (seen e) as [b|] eqn:Hb; [right|by left]. by apply Hseen.
  - unfold decorated, wrapper. simpl.
    destruct limit_no_throttle as [limit|]; unfold wrapper, invoke, run_method; simpl;
      destruct (method args kwargs s) as [[r|e] s']; simpl; eauto.
Qed.

End Throttle.

(** *** A counter behind a throttle *)

(** A clock that shows ten more at every reading. *)
Definition steady_clock (k : nat) : Z := 10 * Z.of_nat k.

(** A method without parameters that counts its runs, and so raises
    TypeError when handed a keyword. *)
Definition count (args : unit) (kwargs : option bool) (s : nat)
  : (nat + string) * nat :=
  match kwargs with
  | Some _ => (inr "TypeError", s)
  | None => (inl s, Datatypes.S s)
  end.

(** Five plain calls under [Throttle(25)]: the first and the fourth run the
    method. *)
Example every_fourth_call :
  invocations (run steady_clock 25 None count
                 [(tt, None); (tt, None); (tt, None); (tt, None); (tt, None)]
                 (init 0%nat 0)) =
  [{| at_tick := 0; seen := None; ok := true |};
   {| at_tick := 4; seen := None; ok := true |}].
Proof. vm_compute. reflexivity. Qed.

(** [no_throttle=True] on the first call reaches the method; on a later
    call it is popped, and the method runs at once. *)
Example keyword_on_first_call :
  (decorated steady_clock 25 None count tt (Some true) (init 0%nat 0)).1
    = Raised "TypeError" ∧
  invocations (run steady_clock 25 None count
                 [(tt, None); (tt, Some true)] (init 0%nat 0)) =
  [{| at_tick := 0; seen := None; ok := true |};
   {| at_tick := 1; seen := None; ok := true |}].
Proof. split; vm_compute; reflexivity. Qed.

(** Under [Throttle(25, 20)] a call with [no_throttle] that comes too
    early for the limit does not run the method, and still sets
    [last_call]: the plain call that follows is measured from it, and is
    held back although the method last returned 40 ago. *)
Example held_back_call_sets_last_call :
  let g := run steady_clock 25 (Some 20) count [(tt, None); (tt, Some true)] (init 0%nat 0) in
  invocations g = [{| at_tick := 0; seen := None; ok := true |}] ∧
  inner_last_call g = Some 0 ∧ last_call g = Some 30 ∧
  decorated steady_clock 25 (Some 20) count tt None g =
    (NoneValue, tick steady_clock g).
Proof. vm_compute. done. Qed.


Lemma no_throttle_reaches_method_witness :
  let g := run steady_clock 25 None count [(tt, None)] (init 0%nat 0) in
  let g' := (decorated steady_clock 25 None count tt (Some true) g).2 in
  (invocations g' = invocations g ∨
   ∃ e, invocations g' = invocations g ++ [e] ∧
     (seen e = None ∨
      seen e = Some true ∧ ∀ e0, e0 ∈ invocations g → ok e0 = false)) ∧
  (∃ returned,
     invocations (decorated steady_clock 25 None count tt (Some true) (init 0%nat 0)).2 =
       [{| at_tick := 0; seen := Some true; ok := returned |}]).
Proof.
  apply (no_throttle_reaches_method steady_clock 25 None count).
  intros i j Hij. unfold steady_clock. lia.
Defined.

End Throttle.

(* ===================================================================== *)
(** ** homeassistant/util.py : strip_microseconds                         *)
(* ===================================================================== *)
Module UtilTime.
Import TimeEvent.

(** [dattim - timedelta(microseconds=n)]: the datetime is counted out in
    microseconds, the difference is split into days, seconds and
    microseconds again, and a day outside of 1 .. [date.max] raises
    OverflowError. *)
Definition sub_microseconds (dattim : datetime) (n : Z) : outcome datetime :=
  let total := to_micro dattim - n in
  let days := total `div` DAY in
  let seconds := (total `mod` DAY) `div` 1000000 in
  if decide (0 < days ≤ MAXORDINAL) then
    Done {| ordinal := days;
            hour := seconds `div` 3600;
            minute := (seconds `mod` 3600) `div` 60;
            second := seconds `mod` 60;
            microsecond := total `mod` 1000000 |}
  else Raises OverflowError.

Definition strip_microseconds (dattim : datetime) : outcome datetime :=
  if decide (microsecond dattim ≠ 0) then
    sub_microseconds dattim (microsecond dattim)
  else Done dattim.

(** X27. [strip_microseconds] never raises on a datetime: it returns the
    same date and time of day with the microseconds at zero, so at most a
    second earlier; stripping twice is stripping once. *)
Theorem strip_microseconds_zero dattim :
  valid dattim →
  ∃ stripped,
    strip_microseconds dattim = Done stripped ∧
    stripped = {| ordinal := ordinal dattim; hour := hour dattim;
                  minute := minute dattim; second := second dattim;
                  microsecond := 0 |} ∧
    valid stripped ∧
    to_micro stripped ≤ to_micro dattim < to_micro stripped + 1000000 ∧
    strip_microseconds stripped = Done stripped.
Proof.
  intros Hvalid. eexists. split_and!; [|reflexivity| | | |].
  - unfold strip_microseconds. case_decide as Hus.
    + unfold sub_microseconds.
      set (total := to_micro dattim - microsecond dattim).
      set (secs := (hour dattim * 60 + minute dattim) * 60 + second dattim).
      assert (total = ordinal dattim * DAY + secs * 1000000) as Htotal
        by (unfold total, secs, to_micro, DAY; lia).
      assert (0 ≤ secs < 86400) as Hsecs by (unfold valid, secs in *; lia).
      assert (total `div` DAY = ordinal dattim) as ->.
      { symmetry. apply (Z.div_unique _ _ _ (secs * 1000000)); [|unfold DAY in *; lia].
        left. unfold DAY. lia. }
      assert (total `mod` DAY = secs * 1000000) as ->.
      { symmetry. apply (Z.mod_unique _ _ (ordinal dattim)); [|unfold DAY in *; lia].
        left. unfold DAY. lia. }
      assert (total `mod` 1000000 = 0) as ->.
      { symmetry. apply (Z.mod_unique _ _ (ordinal dattim * 86400 + secs)); [lia|].
        unfold DAY in *. lia. }
      rewrite Z.div_mul by done.
      assert (secs `div` 3600 = hour dattim) as ->.
      { symmetry. apply (Z.div_unique _ _ _ (minute dattim * 60 + second dattim));
          unfold valid, secs in *; lia. }
      assert (secs `mod` 3600 = minute dattim * 60 + second dattim) as Hrem.
      { symmetry. apply (Z.mod_unique _ _ (hour dattim)); unfold valid, secs in *; lia. }
      assert (secs `mod` 60 = second dattim) as ->.
      { symmetry. apply (Z.mod_unique _ _ (hour dattim * 60 + minute dattim));
          unfold valid, secs in *; lia. }
      rewrite Hrem.
      assert ((minute dattim * 60 + second dattim) `div` 60 = minute dattim) as ->.
      { symmetry. apply (Z.div_unique _ _ _ (second dattim)); unfold valid in *; lia. }
      rewrite decide_True by (unfold valid in *; lia). done.
    + destruct dattim as [o h m s us]. simpl in *.
      by replace us with 0 by lia.
  - unfold valid in *. simpl. lia.
  - unfold valid, to_micro in *. simpl. lia.
  - unfold valid, to_micro in *. simpl. lia.
  - reflexivity.
Qed.

Lemma strip_microseconds_zero_witness :
  ∃ stripped,
    strip_microseconds {| ordinal := 735234; hour := 23; minute := 59; second := 59;
                          microsecond := 999999 |} = Done stripped ∧
    stripped = {| ordinal := 735234; hour := 23; minute := 59; second := 59;
                  microsecond := 0 |} ∧
    valid stripped ∧
    to_micro stripped ≤
      to_micro {| ordinal := 735234; hour := 23; minute := 59; second := 59;
                  microsecond := 999999 |} < to_micro stripped + 1000000 ∧
    strip_microseconds stripped = Done stripped.
Proof.
  apply (strip_microseconds_zero
           {| ordinal := 735234; hour := 23; minute := 59; second := 59;
              microsecond := 999999 |}).
  unfold valid, MAXORDINAL. simpl. lia.
Defined.

End UtilTime.
